(** * squoosh-cli: encoder resolution, quality mapping, output paths,
      atomic writes and the batch runner, embedded from the TypeScript
      sources ([src/lib/encoders.ts], [src/lib/fs.ts], the batch runner
      [lib/process] and the command-line entry point). *)

From Stdlib Require Import Ascii Strings.Byte DecimalString QArith Qround Lqa.
From stdpp Require Import base tactics option list strings gmap.

(** ** JavaScript control flow: a call either returns or throws. *)

Module Js.

Inductive Result (A : Type) : Type :=
| Ok (a : A)
| Throw (msg : string).
Arguments Ok {A} a.
Arguments Throw {A} msg.

Definition bind {A B} (m : Result A) (k : A → Result B) : Result B :=
  match m with
  | Ok a => k a
  | Throw e => Throw e
  end.

Definition returns {A} (m : Result A) : bool :=
  match m with Ok _ => true | Throw _ => false end.

End Js.


(** ** [node:path], POSIX flavour

    The library functions the sources call, by their behaviour on the
    "/"-separated segments of a path.  [PathChars] works on lists of
    characters; [Path] wraps it for strings. *)

Module PathChars.

Definition sep : ascii := "/"%char.
Definition dot : ascii := "."%char.
Definition dotdot : list ascii := [dot; dot].

(** [path.split("/")] *)
Fixpoint segments (p : list ascii) : list (list ascii) :=
  match p with
  | [] => [[]]
  | c :: r =>
      if decide (c = sep) then [] :: segments r
      else match segments r with
           | s :: ss => (c :: s) :: ss
           | [] => [[c]]
           end
  end.

(** [segs.join("/")] *)
Fixpoint unsegments (segs : list (list ascii)) : list ascii :=
  match segs with
  | [] => []
  | s :: rest =>
      match rest with
      | [] => s
      | _ :: _ => s ++ sep :: unsegments rest
      end
  end.

(** One segment of [normalizeString]; [res] is the result so far, last
    segment first.  Empty and "." segments vanish; ".." removes the last
    kept segment, or is kept when there is none to remove and the path may
    climb above its start. *)
Definition normalize_step (allowAboveRoot : bool)
    (res : list (list ascii)) (seg : list ascii) : list (list ascii) :=
  if decide (seg = []) then res
  else if decide (seg = [dot]) then res
  else if decide (seg = dotdot) then
    match res with
    | top :: below =>
        if decide (top = dotdot)
        then (if allowAboveRoot then dotdot :: res else res)
        else below
    | [] => if allowAboveRoot then [dotdot] else []
    end
  else seg :: res.

Definition normalize_segments (allowAboveRoot : bool) (segs : list (list ascii))
  : list (list ascii) :=
  rev (fold_left (normalize_step allowAboveRoot) segs []).

Definition normalizeString (path : list ascii) (allowAboveRoot : bool) : list ascii :=
  unsegments (normalize_segments allowAboveRoot (segments path)).

Definition isAbsolute (path : list ascii) : bool :=
  match path with
  | c :: _ => bool_decide (c = sep)
  | [] => false
  end.

Definition endsWithSep (path : list ascii) : bool :=
  match last path with
  | Some c => bool_decide (c = sep)
  | None => false
  end.

Definition normalize (path : list ascii) : list ascii :=
  match path with
  | [] => [dot]
  | _ :: _ =>
      let absolute := isAbsolute path in
      let trailingSeparator := endsWithSep path in
      let path' := normalizeString path (negb absolute) in
      match path' with
      | [] =>
          if absolute then [sep]
          else if trailingSeparator then [dot; sep] else [dot]
      | _ :: _ =>
          let path'' := if trailingSeparator then path' ++ [sep] else path' in
          if absolute then sep :: path'' else path''
      end
  end.

Definition join (args : list (list ascii)) : list ascii :=
  match filter (λ arg, arg ≠ []) args with
  | [] => [dot]
  | joined => normalize (unsegments joined)
  end.

(** [path.resolve(p)] with one argument; [cwd] is [process.cwd()]. *)
Definition resolve (cwd path : list ascii) : list ascii :=
  let tail := match path with [] => [] | _ :: _ => path ++ [sep] end in
  let '(resolvedPath, resolvedAbsolute) :=
    if isAbsolute path then (tail, true)
    else match cwd with
         | [] => (tail, false)
         | _ :: _ => (cwd ++ sep :: tail, isAbsolute cwd)
         end in
  let resolvedPath := normalizeString resolvedPath (negb resolvedAbsolute) in
  if resolvedAbsolute then sep :: resolvedPath
  else match resolvedPath with [] => [dot] | _ :: _ => resolvedPath end.

Fixpoint strip_common (from to : list (list ascii))
  : list (list ascii) * list (list ascii) :=
  match from, to with
  | f :: from', t :: to' =>
      if decide (f = t) then strip_common from' to' else (from, to)
  | _, _ => (from, to)
  end.

(** The segments of a resolved path after its leading "/". *)
Definition resolved_segments (p : list ascii) : list (list ascii) :=
  match drop 1 p with
  | [] => []
  | rest => segments rest
  end.

Definition relative (cwd from to : list ascii) : list ascii :=
  if decide (from = to) then []
  else
    let from' := resolve cwd from in
    let to' := resolve cwd to in
    if decide (from' = to') then []
    else
      let '(up, down) :=
        strip_common (resolved_segments from') (resolved_segments to') in
      unsegments (map (λ _, dotdot) up ++ down).

(** Does the text hold a character that is not a separator? *)
Definition has_name (p : list ascii) : bool :=
  existsb (λ c, negb (bool_decide (c = sep))) p.

(** The largest index of a separator that has a non-separator somewhere to
    its right. *)
Fixpoint dir_end (p : list ascii) : option nat :=
  match p with
  | [] => None
  | c :: r =>
      match dir_end r with
      | Some k => Some (S k)
      | None => if bool_decide (c = sep) && has_name r then Some 0%nat else None
      end
  end.

(** [path.dirname]: the scan for the separator never looks at index 0. *)
Definition dirname (path : list ascii) : list ascii :=
  match path with
  | [] => [dot]
  | c :: r =>
      let hasRoot := bool_decide (c = sep) in
      match dir_end r with
      | None => if hasRoot then [sep] else [dot]
      | Some k =>
          if hasRoot && bool_decide (k = 0%nat) then [sep; sep]
          else take (S k) path
      end
  end.

(** [path.parse(p).base]: the last non-empty segment. *)
Definition basename (path : list ascii) : list ascii :=
  default [] (last (filter (λ s, s ≠ []) (segments path))).

(** Index of the last "." of a base name. *)
Fixpoint last_dot (base : list ascii) : option nat :=
  match base with
  | [] => None
  | c :: r =>
      match last_dot r with
      | Some k => Some (S k)
      | None => if bool_decide (c = dot) then Some 0%nat else None
      end
  end.

(** Where the extension starts, if the base name has one: not when the only
    dot leads the name, and not for "..". *)
Definition ext_start (base : list ascii) : option nat :=
  match last_dot base with
  | None => None
  | Some 0%nat => None
  | Some k => if decide (base = dotdot) then None else Some k
  end.

(** [path.parse(p).name] *)
Definition parse_name (path : list ascii) : list ascii :=
  let base := basename path in
  match ext_start base with
  | None => base
  | Some k => take k base
  end.

(** [path.extname] *)
Definition extname (path : list ascii) : list ascii :=
  let base := basename path in
  match ext_start base with
  | None => []
  | Some k => drop k base
  end.

End PathChars.

Module Path.

Definition chars : string → list ascii := String.list_ascii_of_string.
Definition str : list ascii → string := String.string_of_list_ascii.

Definition normalize (path : string) : string := str (PathChars.normalize (chars path)).
Definition join (args : list string) : string := str (PathChars.join (map chars args)).
Definition resolve (cwd path : string) : string :=
  str (PathChars.resolve (chars cwd) (chars path)).
Definition relative (cwd from to : string) : string :=
  str (PathChars.relative (chars cwd) (chars from) (chars to)).
Definition dirname (path : string) : string := str (PathChars.dirname (chars path)).
Definition basename (path : string) : string := str (PathChars.basename (chars path)).
Definition parse_name (path : string) : string := str (PathChars.parse_name (chars path)).
Definition extname (path : string) : string := str (PathChars.extname (chars path)).

End Path.

(** ** The process and its surroundings

    What the sources reach outside themselves for: the disk, the clock and
    random source behind temporary names, the optional [@squoosh/lib]
    codec pool and the [sharp] library.  A run threads a [Machine]; the
    parts it cannot change are the [Env]. *)

Module World.
Import Js.

Definition Buffer := list Byte.byte.

#[export] Instance byte_eq_dec : EqDecision Byte.byte := Stdlib.Strings.Byte.byte_eq_dec.

(** A disk: file contents by path and the directories that exist.  Paths
    are compared as written. *)
Record Disk : Type := {
  files : gmap string Buffer;
  dirs : gset string;
}.

(** Calls that leave the program, in the order they are made. *)
Inductive Event : Type :=
| EvMkdir (dir : string)
| EvWriteFile (path : string) (data : Buffer)
| EvCopyFile (src dst : string)
| EvRename (src dst : string)
| EvReadFile (path : string)
| EvImportSquoosh
| EvNewImagePool (threads : Z)
| EvSquooshEncode (codec : string) (options : list (string * Q)) (input : Buffer)
| EvClosePool
| EvSharpToFile (input output : string)
| EvJob (inputFile encoderId : string).

(** What a [sharp] pipeline was configured to produce. *)
Inductive SharpCall : Type :=
| SharpJpeg (quality : Q) (mozjpeg : bool)
| SharpPng (compressionLevel : Z) (adaptiveFiltering : bool)
| SharpWebp (quality : Q)
| SharpAvif (quality : Q).

(** [image.encodedWith[codec]] after an encode: the entry may be missing,
    and so may its [binary]. *)
Definition Encoded := option (option Buffer).

Record Env : Type := {
  (** [process.cwd()] *)
  cwd : string;
  (** [process.pid] *)
  pid : N;
  (** [Date.now()], by how many times the clock or the random source was
      consulted before *)
  now : nat → N;
  (** the hexadecimal digits of [Math.random().toString(16).slice(2)] *)
  random_digits : nat → list N;
  (** [Number(process.versions.node.split('.')[0] ?? 0)] *)
  node_major : nat;
  (** [os.cpus().length] *)
  cpus : nat;
  (** does [await import('@squoosh/lib')] resolve *)
  import_ok : bool;
  (** does [new ImagePool(threads)] return *)
  pool_ctor_ok : Z → bool;
  (** [pool.ingestImage(input)] then [image.encode({[codec]: options})] *)
  squoosh_encode : string → list (string * Q) → Buffer → Result Encoded;
  (** the bytes a configured [sharp] pipeline makes of an input file *)
  sharp_encode : SharpCall → Buffer → Result Buffer;
}.

Record Machine : Type := {
  disk : Disk;
  (** every state of the disk another process could have seen, oldest first *)
  observed : list Disk;
  events : list Event;
  (** how often the clock or the random source was consulted *)
  ticks : nat;
}.

(** A computation: it returns or throws, and either way leaves a machine. *)
Definition M (A : Type) : Type := Machine → Result A * Machine.

#[export] Instance M_ret : MRet M := λ A a m, (Ok a, m).
#[export] Instance M_bind : MBind M := λ A B k c m,
  match c m with
  | (Ok a, m') => k a m'
  | (Throw e, m') => (Throw e, m')
  end.

Definition throw {A} (msg : string) : M A := λ m, (Throw msg, m).

(** [try { body } catch (e) { handler e }] *)
Definition try_catch {A} (body : M A) (handler : string → M A) : M A := λ m,
  match body m with
  | (Ok a, m') => (Ok a, m')
  | (Throw e, m') => handler e m'
  end.

(** Run [body] and hand its outcome back as a value. *)
Definition attempt {A} (body : M A) : M (Result A) := λ m,
  match body m with
  | (r, m') => (Ok r, m')
  end.

Definition emit (e : Event) : M unit := λ m,
  (Ok tt, {| disk := disk m; observed := observed m;
             events := events m ++ [e]; ticks := ticks m |}).

Definition get_disk : M Disk := λ m, (Ok (disk m), m).

(** The disk moves to [d] in one step. *)
Definition set_disk (d : Disk) : M unit := λ m,
  (Ok tt, {| disk := d; observed := observed m ++ [d];
             events := events m; ticks := ticks m |}).

(** The disk moves through [ds], one visible state after the other. *)
Fixpoint set_disks (ds : list Disk) : M unit :=
  match ds with
  | [] => mret tt
  | d :: rest => set_disk d ≫= λ _, set_disks rest
  end.

Definition next_tick : M nat := λ m,
  (Ok (ticks m), {| disk := disk m; observed := observed m;
                    events := events m; ticks := S (ticks m) |}).

(** *** [node:fs/promises] *)

Definition put_file (p : string) (data : Buffer) (d : Disk) : Disk :=
  {| files := <[p := data]> (files d); dirs := dirs d |}.

(** [fs.mkdir(dir, { recursive: true })] *)
Definition fs_mkdir_recursive (dir : string) : M unit :=
  emit (EvMkdir dir) ≫= λ _,
  d ← get_disk;
  match files d !! dir with
  | Some _ => throw "EEXIST"
  | None => set_disk {| files := files d; dirs := {[dir]} ∪ dirs d |}
  end.

(** The file at [p] being written: created empty, then growing to [data]. *)
Definition write_stages (p : string) (data : Buffer) (d : Disk) : list Disk :=
  map (λ k, put_file p (take k data) d) (seq 0 (S (length data))).

Definition write_bytes (p : string) (data : Buffer) : M unit :=
  d ← get_disk;
  if bool_decide (p ∈ dirs d) then throw "EISDIR"
  else if bool_decide (Path.dirname p ∈ dirs d)
  then set_disks (write_stages p data d)
  else throw "ENOENT".

(** [fs.writeFile(p, data)] *)
Definition fs_writeFile (p : string) (data : Buffer) : M unit :=
  emit (EvWriteFile p data) ≫= λ _, write_bytes p data.

(** [fs.readFile(p)] *)
Definition fs_readFile (p : string) : M Buffer :=
  emit (EvReadFile p) ≫= λ _,
  d ← get_disk;
  match files d !! p with
  | Some data => mret data
  | None => throw "ENOENT"
  end.

(** [fs.copyFile(src, dst)] *)
Definition fs_copyFile (src dst : string) : M unit :=
  emit (EvCopyFile src dst) ≫= λ _,
  d ← get_disk;
  match files d !! src with
  | Some data => write_bytes dst data
  | None => throw "ENOENT"
  end.

(** [fs.rename(src, dst)]: the one step that makes [dst] appear whole. *)
Definition fs_rename (src dst : string) : M unit :=
  emit (EvRename src dst) ≫= λ _,
  d ← get_disk;
  match files d !! src with
  | Some data =>
      if bool_decide (dst ∈ dirs d) then throw "EISDIR"
      else if bool_decide (Path.dirname dst ∈ dirs d)
      then set_disk {| files := <[dst := data]> (delete src (files d));
                       dirs := dirs d |}
      else throw "ENOENT"
  | None => throw "ENOENT"
  end.

(** *** Numbers as text *)

(** [`${n}`] for a natural number *)
Definition decimal (n : N) : string := NilZero.string_of_uint (N.to_uint n).

Definition hex_digit (d : N) : ascii :=
  default "0"%char (String.list_ascii_of_string "0123456789abcdef" !! N.to_nat (d mod 16)).

Definition hex (ds : list N) : string := String.string_of_list_ascii (map hex_digit ds).

(** *** [@squoosh/lib] and [sharp] *)

Definition import_squoosh (env : Env) : M unit :=
  emit EvImportSquoosh ≫= λ _,
  if import_ok env then mret tt else throw "Cannot find module '@squoosh/lib'".

Definition new_ImagePool (env : Env) (threads : Z) : M unit :=
  emit (EvNewImagePool threads) ≫= λ _,
  if pool_ctor_ok env threads then mret tt else throw "ImagePool failed to start".

(** [pool.ingestImage(input)], [await image.encode({ [codec]: options })],
    then [image.encodedWith[codec]]. *)
Definition pool_encode (env : Env) (codec : string) (options : list (string * Q))
    (input : Buffer) : M Encoded :=
  emit (EvSquooshEncode codec options input) ≫= λ _,
  match squoosh_encode env codec options input with
  | Ok e => mret e
  | Throw msg => throw msg
  end.

Definition pool_close : M unit := emit EvClosePool.

(** [sharp(input).<format>(...).toFile(output)] *)
Definition sharp_toFile (env : Env) (call : SharpCall) (input output : string) : M unit :=
  emit (EvSharpToFile input output) ≫= λ _,
  d ← get_disk;
  match files d !! input with
  | None => throw "Input file is missing"
  | Some data =>
      match sharp_encode env call data with
      | Ok out => write_bytes output out
      | Throw msg => throw msg
      end
  end.

(** The 70 bytes of the 1x1 PNG behind [TINY_PNG]. *)
Definition TINY_PNG : Buffer :=
  [ Byte.x89; Byte.x50; Byte.x4e; Byte.x47; Byte.x0d; Byte.x0a; Byte.x1a; Byte.x0a; Byte.x00; Byte.x00;
    Byte.x00; Byte.x0d; Byte.x49; Byte.x48; Byte.x44; Byte.x52; Byte.x00; Byte.x00; Byte.x00; Byte.x01;
    Byte.x00; Byte.x00; Byte.x00; Byte.x01; Byte.x08; Byte.x06; Byte.x00; Byte.x00; Byte.x00; Byte.x1f;
    Byte.x15; Byte.xc4; Byte.x89; Byte.x00; Byte.x00; Byte.x00; Byte.x0d; Byte.x49; Byte.x44; Byte.x41;
    Byte.x54; Byte.x78; Byte.x9c; Byte.x63; Byte.xf8; Byte.xcf; Byte.xc0; Byte.xf0; Byte.x1f; Byte.x00;
    Byte.x05; Byte.x83; Byte.x02; Byte.x7f; Byte.x94; Byte.x7e; Byte.xa2; Byte.xe2; Byte.x00; Byte.x00;
    Byte.x00; Byte.x00; Byte.x49; Byte.x45; Byte.x4e; Byte.x44; Byte.xae; Byte.x42; Byte.x60; Byte.x82 ].

End World.

(** ** [src/lib/encoders.ts] *)

Module Encoders.

Inductive EncoderId : Set :=
| avif | browser_gif | browser_jpeg | browser_png | jxl | mozjpeg
| oxipng | qoi | webp | wp2 | original.

#[export] Instance EncoderId_eq_dec : EqDecision EncoderId.
Proof. solve_decision. Defined.

(** The string behind each member of the [EncoderId] union type. *)
Definition id_string (i : EncoderId) : string :=
  match i with
  | avif => "avif"
  | browser_gif => "browser-gif"
  | browser_jpeg => "browser-jpeg"
  | browser_png => "browser-png"
  | jxl => "jxl"
  | mozjpeg => "mozjpeg"
  | oxipng => "oxipng"
  | qoi => "qoi"
  | webp => "webp"
  | wp2 => "wp2"
  | original => "original"
  end.

Inductive EncoderType : Set := squoosh | sharp | copy | unsupported.

#[export] Instance EncoderType_eq_dec : EqDecision EncoderType.
Proof. solve_decision. Defined.

Inductive SharpFormat : Set := sf_jpeg | sf_png | sf_webp | sf_avif.

#[export] Instance SharpFormat_eq_dec : EqDecision SharpFormat.
Proof. solve_decision. Defined.

(** Optional fields ([squooshCodec?], [sharpFormat?], [isFallback?]) are
    [option]s: [None] is [undefined]. *)
Record EncoderOption : Set := {
  id : EncoderId;
  label : string;
  ext : string;
  lossy : bool;
  supportsQuality : bool;
  encoderType : EncoderType;
  squooshCodec : option string;
  sharpFormat : option SharpFormat;
  isFallback : option bool;
}.

#[export] Instance EncoderOption_eq_dec : EqDecision EncoderOption.
Proof. solve_decision. Defined.

Record SquooshSupport : Set := {
  s_mozjpeg : bool;
  s_webp : bool;
  s_avif : bool;
  s_oxipng : bool;
  s_jxl : bool;
  s_wp2 : bool;
}.

(** *** Quality mapper

    A JavaScript number is modelled by an exact rational.  On the integer
    qualities the exact value of [cq] is either a half-integer that binary64
    represents exactly (q = 7 and q = 19) or at least 1/12 away from one,
    so rounding the exact value and rounding the double agree. *)

(** [Math.round]: nearest integer, ties towards +infinity. *)
Definition Math_round (x : Q) : Z := Qfloor (x + (1 # 2))%Q.

Definition Math_min (a b : Q) : Q := if Qle_bool a b then a else b.
Definition Math_max (a b : Q) : Q := if Qle_bool a b then b else a.

Definition mapQualityToAvifCq (quality : Q) : Z :=
  let q := Math_min 100 (Math_max 1 quality) in
  let cq :=
    (if Qle_bool 75 q then
       let t := (q - 75) / 25 in
       30 + (10 - 30) * t
     else if Qle_bool 50 q then
       let t := (q - 50) / 25 in
       40 + (30 - 40) * t
     else if Qle_bool 25 q then
       let t := (q - 25) / 25 in
       50 + (40 - 50) * t
     else
       let t := (q - 1) / 24 in
       60 + (50 - 60) * t)%Q in
  Z.min 63 (Z.max 0 (Math_round cq)).

(** *** Format catalog *)

Definition getMenuOptions (support : SquooshSupport) : list EncoderOption :=
  let mozjpegUsesSquoosh := s_mozjpeg support in
  [ {| id := avif; label := "AVIF"; ext := "avif";
       lossy := true; supportsQuality := true;
       encoderType := if s_avif support then squoosh else sharp;
       squooshCodec := if s_avif support then Some "avif" else None;
       sharpFormat := if s_avif support then None else Some sf_avif;
       isFallback := None |};
    {| id := browser_gif; label := "Browser GIF"; ext := "gif";
       lossy := true; supportsQuality := false;
       encoderType := unsupported;
       squooshCodec := None; sharpFormat := None; isFallback := None |};
    {| id := browser_jpeg; label := "Browser JPEG"; ext := "jpg";
       lossy := true; supportsQuality := true;
       encoderType := sharp;
       squooshCodec := None; sharpFormat := Some sf_jpeg; isFallback := None |};
    {| id := browser_png; label := "Browser PNG"; ext := "png";
       lossy := false; supportsQuality := false;
       encoderType := sharp;
       squooshCodec := None; sharpFormat := Some sf_png; isFallback := None |};
    {| id := jxl; label := "JPEG XL (beta)"; ext := "jxl";
       lossy := true; supportsQuality := true;
       encoderType := if s_jxl support then squoosh else unsupported;
       squooshCodec := if s_jxl support then Some "jxl" else None;
       sharpFormat := None; isFallback := None |};
    {| id := mozjpeg;
       label := if mozjpegUsesSquoosh then "MozJPEG"
                else "JPEG fallback (not true MozJPEG)";
       ext := "jpg";
       lossy := true; supportsQuality := true;
       encoderType := if mozjpegUsesSquoosh then squoosh else sharp;
       squooshCodec := if mozjpegUsesSquoosh then Some "mozjpeg" else None;
       sharpFormat := if mozjpegUsesSquoosh then None else Some sf_jpeg;
       isFallback := Some (negb mozjpegUsesSquoosh) |};
    {| id := oxipng; label := "OxiPNG"; ext := "png";
       lossy := false; supportsQuality := false;
       encoderType := if s_oxipng support then squoosh else unsupported;
       squooshCodec := if s_oxipng support then Some "oxipng" else None;
       sharpFormat := None; isFallback := None |};
    {| id := qoi; label := "QOI"; ext := "qoi";
       lossy := false; supportsQuality := false;
       encoderType := unsupported;
       squooshCodec := None; sharpFormat := None; isFallback := None |};
    {| id := webp; label := "WebP"; ext := "webp";
       lossy := true; supportsQuality := true;
       encoderType := if s_webp support then squoosh else sharp;
       squooshCodec := if s_webp support then Some "webp" else None;
       sharpFormat := if s_webp support then None else Some sf_webp;
       isFallback := None |};
    {| id := wp2; label := "WebP v2 (unstable)"; ext := "wp2";
       lossy := true; supportsQuality := true;
       encoderType := if s_wp2 support then squoosh else unsupported;
       squooshCodec := if s_wp2 support then Some "wp2" else None;
       sharpFormat := None; isFallback := None |};
    {| id := original; label := "Original image (copy)"; ext := "original";
       lossy := false; supportsQuality := false;
       encoderType := copy;
       squooshCodec := None; sharpFormat := None; isFallback := None |} ].

(** *** Native encode options

    The returned [Record<string, unknown>] only ever holds numbers; it is an
    association list from property name to value, [[]] being [{}]. *)

Definition getSquooshEncodeOptions (i : EncoderId) (quality : Q) : list (string * Q) :=
  match i with
  | mozjpeg => [("quality", quality)]
  | webp => [("quality", quality)]
  | avif => [("cqLevel", inject_Z (mapQualityToAvifCq quality))]
  | oxipng => [("level", 4%Q)]
  | jxl => [("quality", quality)]
  | wp2 => [("quality", quality)]
  | _ => []
  end.

(** *** Capability detection *)

Import Js World.

Definition no_support : SquooshSupport :=
  {| s_mozjpeg := false; s_webp := false; s_avif := false;
     s_oxipng := false; s_jxl := false; s_wp2 := false |}.

(** [Boolean(encoded?.binary?.length)] *)
Definition has_bytes (encoded : Encoded) : bool :=
  match encoded with
  | Some (Some binary) => negb (bool_decide (length binary = 0%nat))
  | _ => false
  end.

Definition trySquooshEncode (env : Env) (codec : string)
    (options : list (string * Q)) : M bool :=
  try_catch
    (encoded ← pool_encode env codec options TINY_PNG;
     mret (has_bytes encoded))
    (λ _, mret false).

Definition detectSquooshSupport (env : Env) : M SquooshSupport :=
  let major := node_major env in
  if bool_decide (20 ≤ major)%nat then mret no_support
  else
    loaded ← attempt (import_squoosh env);
    match loaded with
    | Throw _ => mret no_support
    | Ok _ =>
        new_ImagePool env 1 ≫= λ _,
        mozjpeg_ok ← trySquooshEncode env "mozjpeg" [("quality", 75%Q)];
        webp_ok ← trySquooshEncode env "webp" [("quality", 75%Q)];
        avif_ok ← trySquooshEncode env "avif" [("cqLevel", 30%Q)];
        oxipng_ok ← trySquooshEncode env "oxipng" [("level", 2%Q)];
        jxl_ok ← trySquooshEncode env "jxl" [("quality", 75%Q)];
        wp2_ok ← trySquooshEncode env "wp2" [("quality", 75%Q)];
        pool_close ≫= λ _,
        mret {| s_mozjpeg := mozjpeg_ok; s_webp := webp_ok; s_avif := avif_ok;
                s_oxipng := oxipng_ok; s_jxl := jxl_ok; s_wp2 := wp2_ok |}
    end.

End Encoders.


(** ** [src/lib/fs.ts] *)

Module Fs.
Import Js World.

(** [s.startsWith(prefix)] *)
Fixpoint startsWith (s prefix : string) {struct prefix} : bool :=
  match prefix, s with
  | EmptyString, _ => true
  | String p prefix', String c s' => bool_decide (c = p) && startsWith s' prefix'
  | String _ _, EmptyString => false
  end.

(** [toLowerCase] on one character; only A-Z have a lower case here. *)
Definition lower_char (c : ascii) : ascii :=
  let n := Ascii.nat_of_ascii c in
  if bool_decide (65 ≤ n)%nat && bool_decide (n ≤ 90)%nat
  then Ascii.ascii_of_nat (n + 32) else c.

Fixpoint toLowerCase (s : string) : string :=
  match s with
  | EmptyString => EmptyString
  | String c s' => String (lower_char c) (toLowerCase s')
  end.

(** [s.slice(1)] *)
Definition slice1 (s : string) : string :=
  match s with
  | EmptyString => EmptyString
  | String _ s' => s'
  end.

Definition ensureDir (dirPath : string) : M unit :=
  fs_mkdir_recursive dirPath.

Definition getTempPath (env : Env) (targetPath : string) : M string :=
  t ← next_tick;
  let stamp :=
    decimal (pid env) +:+ "-" +:+ decimal (now env t) +:+ "-"
    +:+ hex (random_digits env t) in
  mret (targetPath +:+ ".tmp-" +:+ stamp).

Definition writeFileAtomic (env : Env) (targetPath : string) (data : Buffer) : M unit :=
  ensureDir (Path.dirname targetPath) ≫= λ _,
  tempPath ← getTempPath env targetPath;
  fs_writeFile tempPath data ≫= λ _,
  fs_rename tempPath targetPath.

Definition copyFileAtomic (env : Env) (sourcePath targetPath : string) : M unit :=
  ensureDir (Path.dirname targetPath) ≫= λ _,
  tempPath ← getTempPath env targetPath;
  fs_copyFile sourcePath tempPath ≫= λ _,
  fs_rename tempPath targetPath.

(** [outDir] is optional; an empty string counts as absent, as in the
    source's truthiness test. *)
Definition getOutputRoot (env : Env) (inputPath : string) (isDirectory : bool)
    (outDir : option string) : string * string :=
  let given := match outDir with
               | Some d => if bool_decide (d = "") then None else Some d
               | None => None
               end in
  if isDirectory then
    let base := Path.basename inputPath in
    let parent := Path.dirname inputPath in
    let outputRoot :=
      match given with
      | Some d => Path.resolve (cwd env) d
      | None => Path.join [parent; base +:+ "-squoosh"]
      end in
    (outputRoot, Path.join [outputRoot; ".squoosh-last.json"])
  else
    let outputRoot :=
      match given with
      | Some d => Path.resolve (cwd env) d
      | None => Path.dirname inputPath
      end in
    (outputRoot, Path.join [outputRoot; ".squoosh-last.json"]).

Definition buildOutputPath (env : Env) (inputFile inputRoot outputRoot : string)
    (isDirectory : bool) (outputExt : string) : string :=
  let baseName := Path.parse_name inputFile in
  let fileName := baseName +:+ "-squoosh." +:+ outputExt in
  if negb isDirectory then Path.join [outputRoot; fileName]
  else
    let relativePath := Path.relative (cwd env) inputRoot inputFile in
    let relativeDir := Path.dirname relativePath in
    Path.join [outputRoot; relativeDir; fileName].

Definition getOriginalExtension (inputFile : string) : string :=
  let ext := toLowerCase (Path.extname inputFile) in
  if startsWith ext "." then slice1 ext else ext.

End Fs.

(** ** [src/lib/discover.ts] *)

Module Discover.
Import World Fs.

Definition SUPPORTED_INPUT_EXTS : list string :=
  [".jpg"; ".jpeg"; ".png"; ".webp"; ".avif"; ".gif"].

Definition isSupportedImagePath (filePath : string) : bool :=
  let ext := toLowerCase (Path.extname filePath) in
  bool_decide (ext ∈ SUPPORTED_INPUT_EXTS).


End Discover.

(** ** The batch runner, [lib/process] *)

Module Process.
Import Js World Encoders Fs.

(** [default] in the source. *)
Record QualityConfig : Type := {
  q_default : Q;
  overrides : gmap string Q;
}.

Record Skipped : Type := {
  u_id : EncoderId;
  u_label : string;
  skipped : nat;
}.

Record Failure : Type := {
  file : string;
  reason : string;
}.

Record ProcessSummary : Type := {
  totalInputs : nat;
  outputsByEncoder : EncoderId → nat;
  failures : list Failure;
  unsupported : list Skipped;
  runtimeMs : Z;
}.

Record Params : Type := {
  inputFiles : list string;
  inputRoot : string;
  outputRoot : string;
  isDirectory : bool;
  encoders : list EncoderOption;
  quality : QualityConfig;
  concurrency : option Z;
}.

Definition getQualityForEncoder (encoder : EncoderOption) (quality : QualityConfig) : Q :=
  match overrides quality !! id_string (id encoder) with
  | Some q => q
  | None => q_default quality
  end.

Definition defaultConcurrency (env : Env) : Z :=
  let cores := if bool_decide (cpus env = 0%nat) then 2%Z else Z.of_nat (cpus env) in
  Z.min 8 (Z.max 2 (cores - 1)).

(** [pLimit(concurrency)] refuses anything but a count from 1 up. *)
Definition pLimit (concurrency : Z) : M unit :=
  if bool_decide (1 ≤ concurrency)%Z then mret tt
  else throw "Expected `concurrency` to be a number from 1 and up".

Definition encodeWithSharp (env : Env) (encoder : EncoderOption)
    (inputPath outputPath : string) (quality : Q) : M unit :=
  tempPath ← getTempPath env outputPath;
  ensureDir (Path.dirname outputPath) ≫= λ _,
  pipeline ←
    match id encoder with
    | browser_jpeg => mret (SharpJpeg quality false)
    | mozjpeg => mret (SharpJpeg quality true)
    | browser_png => mret (SharpPng 9 true)
    | webp => mret (SharpWebp quality)
    | avif => mret (SharpAvif quality)
    | other => throw ("Sharp encoder not configured for " +:+ id_string other)
    end;
  sharp_toFile env pipeline inputPath tempPath ≫= λ _,
  fs_rename tempPath outputPath.

Definition encodeWithSquoosh (env : Env) (encoder : EncoderOption)
    (inputBuffer : Buffer) (outputPath : string) (quality : Q) : M unit :=
  match squooshCodec encoder with
  | None => throw ("Missing codec for " +:+ id_string (id encoder))
  | Some codec =>
      if bool_decide (codec = "")
      then throw ("Missing codec for " +:+ id_string (id encoder))
      else
        let options := getSquooshEncodeOptions (id encoder) quality in
        encoded ← pool_encode env codec options inputBuffer;
        match encoded with
        | Some (Some binary) => writeFileAtomic env outputPath binary
        | _ => throw ("Encoding failed for " +:+ id_string (id encoder))
        end
  end.

(** The counters and lists the tasks share. *)
Record Tally : Type := {
  outputs : EncoderId → nat;
  failed : list Failure;
  completed : nat;
}.

Definition count_output (i : EncoderId) (t : Tally) : Tally :=
  {| outputs := λ j, if decide (j = i) then S (outputs t j) else outputs t j;
     failed := failed t; completed := completed t |}.

Definition record_failure (f : Failure) (t : Tally) : Tally :=
  {| outputs := outputs t; failed := failed t ++ [f]; completed := completed t |}.

Definition file_done (t : Tally) : Tally :=
  {| outputs := outputs t; failed := failed t; completed := S (completed t) |}.

(** The body of the [try] of one job: the dispatch on the strategy.
    [inputBuffer] is the variable declared outside the [try]; what the body
    assigned to it before throwing stays assigned, so the body hands back
    the variable together with how it ended. *)
Definition dispatch (env : Env) (params : Params) (pool : bool)
    (inputFile : string) (encoder : EncoderOption) (inputBuffer : option Buffer)
  : M (option Buffer * Result unit) :=
  let outputExt :=
    if decide (id encoder = original) then getOriginalExtension inputFile
    else ext encoder in
  let outputPath :=
    buildOutputPath env inputFile (inputRoot params) (outputRoot params)
      (isDirectory params) outputExt in
  let quality := getQualityForEncoder encoder (quality params) in
  match encoderType encoder with
  | Encoders.copy =>
      r ← attempt (copyFileAtomic env inputFile outputPath);
      mret (inputBuffer, r)
  | Encoders.sharp =>
      r ← attempt (encodeWithSharp env encoder inputFile outputPath quality);
      mret (inputBuffer, r)
  | Encoders.squoosh =>
      if negb pool then mret (inputBuffer, Throw "Squoosh pool unavailable")
      else
        read ← attempt (match inputBuffer with
                        | Some b => mret b
                        | None => fs_readFile inputFile
                        end);
        match read with
        | Throw e => mret (inputBuffer, Throw e)
        | Ok buffer =>
            r ← attempt (encodeWithSquoosh env encoder buffer outputPath quality);
            mret (Some buffer, r)
        end
  | Encoders.unsupported => mret (inputBuffer, Ok tt)
  end.

(** One turn of the loop over [activeEncoders], for one input file: the
    dispatch, then the counter or the failure list.  The [EvJob] mark at its
    start is bookkeeping of the model: one mark per job. *)
Definition encodeOne (env : Env) (params : Params) (pool : bool)
    (inputFile : string) (encoder : EncoderOption)
    (st : option Buffer * Tally) : M (option Buffer * Tally) :=
  let '(inputBuffer, tally) := st in
  emit (EvJob inputFile (id_string (id encoder))) ≫= λ _,
  '(inputBuffer, outcome) ← dispatch env params pool inputFile encoder inputBuffer;
  match outcome with
  | Ok _ => mret (inputBuffer, count_output (id encoder) tally)
  | Throw message =>
      mret (inputBuffer,
            record_failure
              {| file := inputFile;
                 reason := label encoder +:+ ": " +:+ message |} tally)
  end.

Fixpoint encodeAll (env : Env) (params : Params) (pool : bool) (inputFile : string)
    (active : list EncoderOption) (st : option Buffer * Tally)
  : M (option Buffer * Tally) :=
  match active with
  | [] => mret st
  | encoder :: rest =>
      st' ← encodeOne env params pool inputFile encoder st;
      encodeAll env params pool inputFile rest st'
  end.

(** The task of one input file. *)
Definition task (env : Env) (params : Params) (pool : bool)
    (active : list EncoderOption) (inputFile : string) (tally : Tally) : M Tally :=
  st ← encodeAll env params pool inputFile active (None, tally);
  mret (file_done (snd st)).

(** [Promise.all(tasks)].  [p-limit] lets up to [concurrency] tasks take
    turns at their [await]s; a counter update is one step of the event loop,
    so the counters, the skipped list and the set of jobs do not depend on
    the turns taken.  The tasks are run here one input file after the
    other, which is the order [concurrency = 1] gives. *)
Fixpoint runTasks (env : Env) (params : Params) (pool : bool)
    (active : list EncoderOption) (files : list string) (tally : Tally) : M Tally :=
  match files with
  | [] => mret tally
  | inputFile :: rest =>
      tally' ← task env params pool active inputFile tally;
      runTasks env params pool active rest tally'
  end.

Definition skip_all (params : Params) (enc : EncoderOption) : Skipped :=
  {| u_id := id enc; u_label := label enc; skipped := length (inputFiles params) |}.

Definition is_type (t : EncoderType) (enc : EncoderOption) : bool :=
  bool_decide (encoderType enc = t).

(** [Date.now()] *)
Definition Date_now (env : Env) : M Z :=
  t ← next_tick; mret (Z.of_N (now env t)).

(** The block that constructs the pool when a selected encoder needs it:
    whether a pool is open, the encoders still active, the skipped list. *)
Definition openPool (env : Env) (params : Params) (concurrency : Z)
    (activeEncoders : list EncoderOption) (unsupported : list Skipped)
  : M (bool * list EncoderOption * list Skipped) :=
  let needsSquoosh := existsb (is_type squoosh) activeEncoders in
  if needsSquoosh then
    try_catch
      (import_squoosh env ≫= λ _,
       new_ImagePool env concurrency ≫= λ _,
       mret (true, activeEncoders, unsupported))
      (λ _,
         let squooshEncoders :=
           filter (λ enc, encoderType enc = squoosh) activeEncoders in
         mret (false,
               filter (λ enc, encoderType enc ≠ squoosh) activeEncoders,
               unsupported ++ map (skip_all params) squooshEncoders))
  else mret (false, activeEncoders, unsupported).

Definition processImages (env : Env) (params : Params) : M ProcessSummary :=
  start ← Date_now env;
  let concurrency :=
    match concurrency params with
    | Some c => c
    | None => defaultConcurrency env
    end in
  pLimit concurrency ≫= λ _,
  let outputsByEncoder : EncoderId → nat := λ _, 0%nat in
  let activeEncoders :=
    filter (λ enc, encoderType enc ≠ Encoders.unsupported) (encoders params) in
  let unsupported :=
    map (skip_all params)
        (filter (λ enc, encoderType enc = Encoders.unsupported) (encoders params)) in
  openPool env params concurrency activeEncoders unsupported
  ≫= λ opened : bool * list EncoderOption * list Skipped,
  let '(pool, activeEncoders, unsupported) := opened in
  tally ← runTasks env params pool activeEncoders (inputFiles params)
             {| outputs := outputsByEncoder; failed := []; completed := 0 |};
  (if pool then pool_close else mret tt) ≫= λ _,
  finish ← Date_now env;
  mret {| totalInputs := length (inputFiles params);
          outputsByEncoder := outputs tally;
          failures := failed tally;
          unsupported := unsupported;
          runtimeMs := finish - start |}.

End Process.

(** ** The command-line entry point: the saved configuration *)

Module Cli.
Import Js World Encoders.

(** What [JSON.parse] can return. *)
#[local] Unset Elimination Schemes.
Inductive Json : Type :=
| JNull
| JBool (b : bool)
| JNum (n : Q)
| JStr (s : string)
| JArr (items : list Json)
| JObj (fields : list (string * Json)).
#[local] Set Elimination Schemes.

(** [menuOptions.filter((option) => selection.includes(option.id))] *)
Definition selectedEncoders (menuOptions : list EncoderOption)
    (selection : list EncoderId) : list EncoderOption :=
  filter (λ option, id option ∈ selection) menuOptions.

(** [value.key]: [None] is [undefined]; only objects carry the keys of the
    parsed text. *)
Definition property (value : Json) (key : string) : option Json :=
  match value with
  | JObj fields => snd <$> List.find (λ kv, bool_decide (fst kv = key)) fields
  | _ => None
  end.

(** [if (value)] *)
Definition truthy (value : Json) : bool :=
  match value with
  | JNull => false
  | JBool b => b
  | JNum n => negb (Qeq_bool n 0)
  | JStr s => negb (bool_decide (s = ""))
  | JArr _ | JObj _ => true
  end.

(** [option.id === value] *)
Definition is_id (value : Json) (i : EncoderId) : bool :=
  match value with
  | JStr s => bool_decide (s = id_string i)
  | _ => false
  end.

(** The catalog id [value] is strictly equal to, if any. *)
Definition menu_id (menuOptions : list EncoderOption) (value : Json) : option EncoderId :=
  id <$> List.find (λ option, is_id value (id option)) menuOptions.

Section SavedConfig.

(** [JSON.parse], which throws a [SyntaxError] on text that is not JSON. *)
Variable JSON_parse : Buffer → Result Json.

Definition loadSavedConfig (configPath : string) : M Json :=
  try_catch
    (raw ← fs_readFile configPath;
     match JSON_parse raw with
     | Ok value => mret value
     | Throw msg => throw msg
     end)
    (λ _, mret JNull).

(** [savedConfig.selectedIds.filter((id) => menuOptions.some(...))]: reading
    a property of [undefined] or [null] throws, and so does calling a
    [filter] that is not there. *)
Definition filter_selectedIds (savedConfig : Json) (menuOptions : list EncoderOption)
  : Result (list EncoderId) :=
  match property savedConfig "selectedIds" with
  | None | Some JNull =>
      Throw "Cannot read properties of undefined (reading 'filter')"
  | Some (JArr items) => Ok (omap (menu_id menuOptions) items)
  | Some _ => Throw "savedConfig.selectedIds.filter is not a function"
  end.

(** The [if (args.yes)] block of [main]: the selection and quality it leaves
    ([[]] and [null] to start with). *)
Definition reuseSaved (yes : bool) (savedConfig : Json)
    (menuOptions : list EncoderOption) : Result (list EncoderId * option Json) :=
  if yes then
    if truthy savedConfig then
      bind (filter_selectedIds savedConfig menuOptions) (λ selection,
        Ok (selection, property savedConfig "quality"))
    else Ok ([], None)
  else Ok ([], None).

(** [loadSavedConfig] followed by the [--yes] block. *)
Definition loadAndReuse (yes : bool) (configPath : string)
    (menuOptions : list EncoderOption) : M (list EncoderId * option Json) :=
  savedConfig ← loadSavedConfig configPath;
  match reuseSaved yes savedConfig menuOptions with
  | Ok r => mret r
  | Throw msg => throw msg
  end.

End SavedConfig.

End Cli.

(** ** The command-line entry point: arguments and the format menu *)

Module CliArgs.
Import Js World Encoders Fs.

(** A function that may end the process instead of returning:
    [process.exit(code)]. *)
Inductive Outcome (A : Type) : Type :=
| Returned (a : A)
| Exited (code : Z).
Arguments Returned {A} a.
Arguments Exited {A} code.

Section Arguments.

(** The numbers of the host, and [Number(text)]: [None] is [NaN]. *)
Context {number : Type}.
Variable Number_ : string → option number.

Record Args : Type := {
  inputPath : option string;
  outDir : option string;
  concurrency : option number;
  yes : bool;
}.

(** [if (inputPath)]: [undefined] and the empty string are falsy. *)
Definition given (value : option string) : bool :=
  match value with
  | Some s => negb (bool_decide (s = ""))
  | None => false
  end.

(** The loop of [parseArgs] from index [i] on: [args] are the arguments
    from [i], [st] the four variables.  An option at the very end reads
    [args[i + 1]] as [undefined]. *)
Fixpoint parseArgs_from (args : list string) (st : Args) : Outcome Args :=
  match args with
  | [] => Returned st
  | arg :: rest =>
      if negb (startsWith arg "-") && negb (given (inputPath st)) then
        parseArgs_from rest
          {| inputPath := Some arg; outDir := outDir st;
             concurrency := concurrency st; yes := yes st |}
      else if bool_decide (arg = "--out") then
        match rest with
        | [] =>
            Returned {| inputPath := inputPath st; outDir := None;
                        concurrency := concurrency st; yes := yes st |}
        | value :: rest' =>
            parseArgs_from rest'
              {| inputPath := inputPath st; outDir := Some value;
                 concurrency := concurrency st; yes := yes st |}
        end
      else if bool_decide (arg = "--concurrency") then
        match rest with
        | [] => Returned st
        | value :: rest' =>
            parseArgs_from rest'
              match Number_ value with
              | Some n =>
                  {| inputPath := inputPath st; outDir := outDir st;
                     concurrency := Some n; yes := yes st |}
              | None => st
              end
        end
      else if bool_decide (arg = "--yes") then
        parseArgs_from rest
          {| inputPath := inputPath st; outDir := outDir st;
             concurrency := concurrency st; yes := true |}
      else if bool_decide (arg = "--help") || bool_decide (arg = "-h") then
        Exited 0
      else parseArgs_from rest st
  end.

Definition parseArgs (args : list string) : Outcome Args :=
  parseArgs_from args
    {| inputPath := None; outDir := None; concurrency := None; yes := false |}.

End Arguments.

Section Selection.

(** [String.prototype.trim], and [Number(text)] with [None] for what is
    not a finite number. *)
Variable trim : string → string.
Variable Number_ : string → option Q.

(** [s.split(',')] *)
Fixpoint split_commas (s : string) : list string :=
  match s with
  | EmptyString => [EmptyString]
  | String c r =>
      if bool_decide (c = ","%char) then EmptyString :: split_commas r
      else match split_commas r with
           | p :: ps => String c p :: ps
           | [] => [String c EmptyString]
           end
  end.

(** [Number.isInteger] *)
Definition isInteger (value : Q) : bool := Qeq_bool value (inject_Z (Qfloor value)).

(** [indices.add(index)] on a [Set], kept in insertion order. *)
Definition set_add (index : nat) (indices : list nat) : list nat :=
  if bool_decide (index ∈ indices) then indices else indices ++ [index].

(** The [for] loop over [parts]; [None] is the [return null] inside it. *)
Fixpoint collect_indices (count : nat) (parts : list string) (indices : list nat)
  : option (list nat) :=
  match parts with
  | [] => Some indices
  | part :: rest =>
      match Number_ part with
      | None => None
      | Some value =>
          if negb (isInteger value) || negb (Qle_bool 1 value)
             || negb (Qle_bool value (inject_Z (Z.of_nat count)))
          then None
          else collect_indices count rest
                 (set_add (Z.to_nat (Qfloor value - 1)) indices)
      end
  end.

(** [options[index].id]: reading [id] of [undefined] throws. *)
Definition id_at (options : list EncoderOption) (index : nat) : Result EncoderId :=
  match options !! index with
  | Some option => Ok (id option)
  | None => Throw "Cannot read properties of undefined (reading 'id')"
  end.

Fixpoint ids_at (options : list EncoderOption) (indices : list nat)
  : Result (list EncoderId) :=
  match indices with
  | [] => Ok []
  | index :: rest =>
      bind (id_at options index) (λ i,
        bind (ids_at options rest) (λ others, Ok (i :: others)))
  end.

(** [None] is [null]. *)
Definition parseSelection (input : string) (options : list EncoderOption)
  : Result (option (list EncoderId)) :=
  let normalized := toLowerCase (trim input) in
  if bool_decide (normalized = "all") then Ok (Some (map id options))
  else
    let parts := filter (λ part, part ≠ "") (map trim (split_commas normalized)) in
    if bool_decide (length parts = 0%nat) then Ok None
    else
      match collect_indices (length options) parts [] with
      | None => Ok None
      | Some indices => bind (ids_at options indices) (λ ids, Ok (Some ids))
      end.

End Selection.

(** The first statement of [promptForQuality]: the encoders a quality is
    asked for. *)
Definition lossyEncoders (selected : list EncoderOption) : list EncoderOption :=
  filter (λ enc, lossy enc = true ∧ supportsQuality enc = true
                 ∧ encoderType enc ≠ unsupported) selected.

Section Saving.

(** The UTF-8 text of [JSON.stringify(value, null, 2)]. *)
Variable JSON_stringify : Cli.Json → Buffer.

(** [config] is the record to save, as the JSON value it is. *)
Definition saveConfig (configPath : string) (config : Cli.Json) : M unit :=
  fs_writeFile configPath (JSON_stringify config ++ [Byte.x0a]).

End Saving.

End CliArgs.

(** ** A sample world

    A host with Node 18 where [@squoosh/lib] loads, a folder of three
    images, and codecs that hand their input back. *)

Module Samples.
Import Js World Encoders Process.

Definition sample_env : Env :=
  {| cwd := "/w";
     pid := 4242;
     now := λ t, (1700000000000 + 5 * N.of_nat t)%N;
     random_digits := λ t, [10; 3; 15; 0; N.of_nat t]%N;
     node_major := 18;
     cpus := 4;
     import_ok := true;
     pool_ctor_ok := λ _, true;
     squoosh_encode := λ _ _ input, Ok (Some (Some input));
     sharp_encode := λ _ input, Ok input |}.

(** The same host, but the codec pool does not start. *)
Definition sample_env_no_pool : Env :=
  {| cwd := cwd sample_env; pid := pid sample_env; now := now sample_env;
     random_digits := random_digits sample_env;
     node_major := node_major sample_env; cpus := cpus sample_env;
     import_ok := true;
     pool_ctor_ok := λ _, false;
     squoosh_encode := squoosh_encode sample_env;
     sharp_encode := sharp_encode sample_env |}.

Definition sample_disk : Disk :=
  {| files := {[ "/in/a.png" := [Byte.x01; Byte.x02];
                 "/in/sub/b.png" := [Byte.x03];
                 "/in/sub/c.jpg" := [Byte.x04] ]};
     dirs := {[ "/in"; "/in/sub" ]} |}.

Definition sample_machine : Machine :=
  {| disk := sample_disk; observed := []; events := []; ticks := 0 |}.

Definition full_support : SquooshSupport :=
  {| s_mozjpeg := true; s_webp := true; s_avif := true;
     s_oxipng := true; s_jxl := true; s_wp2 := true |}.

(** WebP, QOI and the original copy, picked from the catalog. *)
Definition sample_selection : list EncoderOption :=
  Cli.selectedEncoders (getMenuOptions full_support) [webp; qoi; original].

Definition sample_params : Params :=
  {| inputFiles := ["/in/a.png"; "/in/sub/b.png"; "/in/sub/c.jpg"];
     inputRoot := "/in";
     outputRoot := "/in-squoosh";
     isDirectory := true;
     encoders := sample_selection;
     quality := {| q_default := 75; overrides := ∅ |};
     concurrency := None |}.

Definition qoi_option : EncoderOption :=
  {| id := qoi; label := "QOI"; ext := "qoi";
     lossy := false; supportsQuality := false;
     encoderType := Encoders.unsupported;
     squooshCodec := None; sharpFormat := None; isFallback := None |}.

(** A stand-in for [JSON.parse] that knows one text, [{}]. *)
Definition parse_empty_object (raw : Buffer) : Result Cli.Json :=
  if bool_decide (raw = [Byte.x7b; Byte.x7d]) then Ok (Cli.JObj [])
  else Throw "Unexpected token".

Definition sample_config_path : string := "/in-squoosh/.squoosh-last.json".

(** The sample disk after a run left the text [{}] as saved configuration. *)
Definition sample_machine_saved : Machine :=
  {| disk := {| files := <[sample_config_path := [Byte.x7b; Byte.x7d]]> (files sample_disk);
                dirs := {[ "/in-squoosh" ]} ∪ dirs sample_disk |};
     observed := []; events := []; ticks := 0 |}.

End Samples.

(** ** More sample hosts *)

Module Hosts.
Import Js World Encoders Process.

(** The sample host on Node 20, where the codec pool is never asked for. *)
Definition node20_env : Env :=
  {| cwd := cwd Samples.sample_env; pid := pid Samples.sample_env;
     now := now Samples.sample_env;
     random_digits := random_digits Samples.sample_env;
     node_major := 20; cpus := cpus Samples.sample_env;
     import_ok := true;
     pool_ctor_ok := λ _, true;
     squoosh_encode := squoosh_encode Samples.sample_env;
     sharp_encode := sharp_encode Samples.sample_env |}.

(** A machine with nothing on its disk. *)
Definition blank_machine : Machine :=
  {| disk := {| files := ∅; dirs := ∅ |}; observed := []; events := []; ticks := 0 |}.

(** The sample batch asked to run with no worker at all. *)
Definition params_no_worker : Params :=
  {| inputFiles := inputFiles Samples.sample_params;
     inputRoot := inputRoot Samples.sample_params;
     outputRoot := outputRoot Samples.sample_params;
     isDirectory := true;
     encoders := encoders Samples.sample_params;
     quality := quality Samples.sample_params;
     concurrency := Some 0%Z |}.

End Hosts.

(** * Properties *)

(** ** Quality mapper *)

Module QualitySpec.
Import Encoders.

Local Open Scope Q_scope.

(** The clamp [Math.min(100, Math.max(1, quality))]. *)
Definition clamp_quality (quality : Q) : Q := Math_min 100 (Math_max 1 quality).

(** The four-branch interpolation of the source, after the clamp. *)
Definition cq_of (q : Q) : Q :=
  if Qle_bool 75 q then 30 + (10 - 30) * ((q - 75) / 25)
  else if Qle_bool 50 q then 40 + (30 - 40) * ((q - 50) / 25)
  else if Qle_bool 25 q then 50 + (40 - 50) * ((q - 25) / 25)
  else 60 + (50 - 60) * ((q - 1) / 24).

(** The curve as the documentation words it: straight lines between the
    points (quality, cqLevel) = (1,60), (25,50), (50,40), (75,30), (100,10). *)
Definition avif_breakpoints : list (Q * Q) :=
  [(1, 60); (25, 50); (50, 40); (75, 30); (100, 10)].

Fixpoint piecewise_linear (pts : list (Q * Q)) (q : Q) : option Q :=
  match pts with
  | (x0, y0) :: (((x1, y1) :: _) as rest) =>
      if Qle_bool x0 q && Qle_bool q x1
      then Some (y0 + (y1 - y0) * ((q - x0) / (x1 - x0)))
      else piecewise_linear rest q
  | _ => None
  end.

Lemma mapQualityToAvifCq_unfold quality :
  mapQualityToAvifCq quality
  = Z.min 63 (Z.max 0 (Math_round (cq_of (clamp_quality quality)))).
Proof. reflexivity. Qed.

Ltac qbool :=
  repeat match goal with
  | H : Qle_bool _ _ = true |- _ => apply Qle_bool_iff in H
  | H : Qle_bool _ _ = false |- _ =>
      apply not_true_iff_false in H; rewrite Qle_bool_iff in H
  end.

(* Division by the constants of the source, as a multiplication. *)
Ltac qdiv :=
  unfold Qdiv in *;
  repeat match goal with
  | |- context [/ ?c] =>
      let v := eval vm_compute in (/ c) in change (/ c) with v
  end.

(* Case split on the comparisons, innermost first. *)
Ltac qcases :=
  repeat match goal with
  | |- context [Qle_bool ?a ?b] =>
      lazymatch b with
      | context [Qle_bool _ _] => fail
      | _ => destruct (Qle_bool a b) eqn:?
      end
  end.

Lemma clamp_quality_bounds quality :
  1 <= clamp_quality quality <= 100.
Proof.
  unfold clamp_quality, Math_min, Math_max.
  qcases; qbool; lra.
Qed.

Lemma clamp_quality_in_range quality :
  1 <= quality <= 100 → clamp_quality quality == quality.
Proof.
  intros [Hlo Hhi]. unfold clamp_quality, Math_min, Math_max.
  qcases; qbool; lra.
Qed.

Lemma clamp_quality_mono q1 q2 :
  q1 <= q2 → clamp_quality q1 <= clamp_quality q2.
Proof.
  intros Hle. unfold clamp_quality, Math_min, Math_max.
  qcases; qbool; lra.
Qed.

Lemma clamp_quality_low quality :
  quality <= 1 → clamp_quality quality == 1.
Proof.
  intros Hle. unfold clamp_quality, Math_min, Math_max.
  qcases; qbool; lra.
Qed.

Lemma clamp_quality_high quality :
  100 <= quality → clamp_quality quality == 100.
Proof.
  intros Hle. unfold clamp_quality, Math_min, Math_max.
  qcases; qbool; lra.
Qed.

(** The interpolated value falls as quality rises. *)
Lemma cq_of_antitone q1 q2 :
  1 <= q1 → q1 <= q2 → q2 <= 100 → cq_of q2 <= cq_of q1.
Proof.
  intros H1 H12 H2. unfold cq_of.
  qcases; qbool; qdiv; lra.
Qed.

Lemma cq_of_range q : 1 <= q <= 100 → 10 <= cq_of q <= 60.
Proof.
  intros [Hlo Hhi]. unfold cq_of.
  qcases; qbool; qdiv; lra.
Qed.

#[export] Instance cq_of_proper : Proper (Qeq ==> Qeq) cq_of.
Proof.
  intros a b Hab. unfold cq_of.
  qcases; qbool; qdiv; lra.
Qed.

#[export] Instance Math_round_proper : Proper (Qeq ==> eq) Math_round.
Proof.
  intros a b Hab. unfold Math_round. apply Qfloor_comp. lra.
Qed.

Lemma Math_round_mono a b : a <= b → (Math_round a <= Math_round b)%Z.
Proof.
  intros Hab. unfold Math_round. apply Qfloor_resp_le. lra.
Qed.

(** [Math_round x] is an integer nearest to [x]. *)
Lemma Math_round_nearest x :
  x - (1 # 2) < inject_Z (Math_round x) ∧ inject_Z (Math_round x) <= x + (1 # 2).
Proof.
  unfold Math_round.
  pose proof (Qfloor_le (x + (1 # 2))) as Hle.
  pose proof (Qlt_floor (x + (1 # 2))) as Hlt.
  rewrite inject_Z_plus in Hlt.
  change (inject_Z 1) with 1 in Hlt.
  split; lra.
Qed.

Lemma Math_round_Z (z : Z) : Math_round (inject_Z z) = z.
Proof.
  unfold Math_round.
  pose proof (Qfloor_le (inject_Z z + (1 # 2))) as Hle.
  pose proof (Qlt_floor (inject_Z z + (1 # 2))) as Hlt.
  set (f := Qfloor (inject_Z z + (1 # 2))) in *.
  assert (inject_Z z < inject_Z (f + 1)) as H1 by lra.
  assert (inject_Z f < inject_Z (z + 1)) as H2.
  { rewrite inject_Z_plus. change (inject_Z 1) with 1. lra. }
  rewrite <- Zlt_Qlt in H1, H2. lia.
Qed.

(** The source's branches are the interpolation between the breakpoints. *)
Lemma cq_of_piecewise_linear q :
  1 <= q <= 100 →
  ∃ y, piecewise_linear avif_breakpoints q = Some y ∧ y == cq_of q.
Proof.
  intros [Hlo Hhi]. unfold cq_of. simpl.
  qcases; simpl; qbool; try lra; eexists; (split; [reflexivity | qdiv; lra]).
Qed.

#[export] Instance mapQualityToAvifCq_proper : Proper (Qeq ==> eq) mapQualityToAvifCq.
Proof.
  intros a b Hab. rewrite !mapQualityToAvifCq_unfold.
  assert (clamp_quality a == clamp_quality b) as Hc.
  { unfold clamp_quality, Math_min, Math_max. qcases; qbool; lra. }
  now rewrite Hc.
Qed.

Lemma clamp_quality_idem quality :
  clamp_quality (clamp_quality quality) == clamp_quality quality.
Proof. apply clamp_quality_in_range, clamp_quality_bounds. Qed.

Lemma mapQualityToAvifCq_clamp quality :
  mapQualityToAvifCq quality = mapQualityToAvifCq (clamp_quality quality).
Proof.
  rewrite (mapQualityToAvifCq_unfold (clamp_quality quality)).
  now rewrite clamp_quality_idem.
Qed.

Lemma clamp_quality_inject_Z (z : Z) :
  clamp_quality (inject_Z z) == inject_Z (Z.min 100 (Z.max 1 z)).
Proof.
  destruct (Z_lt_le_dec z 1) as [Hlt | Hge].
  - rewrite Z.max_l, Z.min_r by lia.
    apply clamp_quality_low. change 1 with (inject_Z 1).
    rewrite <- Zle_Qle. lia.
  - destruct (Z_lt_le_dec 100 z) as [Hgt | Hle].
    + rewrite Z.max_r, Z.min_l by lia.
      apply clamp_quality_high. change 100 with (inject_Z 100).
      rewrite <- Zle_Qle. lia.
    + rewrite Z.max_r, Z.min_r by lia.
      apply clamp_quality_in_range.
      change 1 with (inject_Z 1). change 100 with (inject_Z 100).
      rewrite <- !Zle_Qle. lia.
Qed.

Example avif_cq_at_breakpoints :
  map mapQualityToAvifCq [100; 75; 50; 25; 1] = [10; 30; 40; 50; 60]%Z.
Proof. reflexivity. Qed.

(** The two qualities whose exact [cq] is a tie: both round up. *)
Example avif_cq_at_ties :
  cq_of 7 == 115 # 2 ∧ mapQualityToAvifCq 7 = 58%Z
  ∧ cq_of 19 == 105 # 2 ∧ mapQualityToAvifCq 19 = 53%Z.
Proof. repeat split. Qed.

(** C3.  On the qualities 1..100 the AVIF mapping does not increase when
    the quality increases; its value is the rounding, to a nearest integer,
    of the straight-line interpolation between the breakpoints
    (1,60), (25,50), (50,40), (75,30), (100,10); and it lies in the native
    cqLevel range 0..63. *)
Theorem mapQualityToAvifCq_monotone_piecewise_in_range (q q' : Q) :
  1 <= q → q <= q' → q' <= 100 →
  (mapQualityToAvifCq q' <= mapQualityToAvifCq q)%Z
  ∧ (∃ y, piecewise_linear avif_breakpoints q = Some y
          ∧ mapQualityToAvifCq q = Math_round y
          ∧ y - (1 # 2) < inject_Z (mapQualityToAvifCq q) <= y + (1 # 2))
  ∧ (0 <= mapQualityToAvifCq q <= 63)%Z.
Proof.
  intros Hlo Hle Hhi.
  assert (1 <= q <= 100) as Hq by (split; lra).
  assert (1 <= q' <= 100) as Hq' by (split; lra).
  pose proof (clamp_quality_in_range q Hq) as Hcq.
  pose proof (clamp_quality_in_range q' Hq') as Hcq'.
  pose proof (cq_of_range q Hq) as [Hr1 Hr2].
  assert (10 <= Math_round (cq_of q) <= 60)%Z as Hround.
  { split.
    - rewrite <- (Math_round_Z 10). now apply Math_round_mono.
    - rewrite <- (Math_round_Z 60). now apply Math_round_mono. }
  assert (mapQualityToAvifCq q = Math_round (cq_of q)) as Heq.
  { rewrite mapQualityToAvifCq_unfold, Hcq. lia. }
  split; [| split].
  - rewrite !mapQualityToAvifCq_unfold, Hcq, Hcq'.
    assert (Math_round (cq_of q') <= Math_round (cq_of q))%Z.
    { apply Math_round_mono, cq_of_antitone; lra. }
    lia.
  - destruct (cq_of_piecewise_linear q Hq) as (y & Hy & Hyq).
    exists y. split; [exact Hy |].
    rewrite Heq, Hyq. split; [reflexivity |].
    apply Math_round_nearest.
  - rewrite Heq. lia.
Qed.

Lemma mapQualityToAvifCq_monotone_piecewise_in_range_witness :
  (mapQualityToAvifCq 80 <= mapQualityToAvifCq 7)%Z
  ∧ (∃ y, piecewise_linear avif_breakpoints 7 = Some y
          ∧ mapQualityToAvifCq 7 = Math_round y
          ∧ y - (1 # 2) < inject_Z (mapQualityToAvifCq 7) <= y + (1 # 2))
  ∧ (0 <= mapQualityToAvifCq 7 <= 63)%Z.
Proof.
  apply (mapQualityToAvifCq_monotone_piecewise_in_range 7 80); lra.
Defined.

(** C10.  The AVIF mapping is defined on every integer and only looks at
    the quality clamped into 1..100: anything below 1 maps like 1 (cq 60),
    anything above 100 maps like 100 (cq 10). *)
Theorem mapQualityToAvifCq_total_on_integers (z : Z) :
  mapQualityToAvifCq (inject_Z z)
  = mapQualityToAvifCq (inject_Z (Z.min 100 (Z.max 1 z)))
  ∧ ((z < 1)%Z → mapQualityToAvifCq (inject_Z z) = 60%Z)
  ∧ ((100 < z)%Z → mapQualityToAvifCq (inject_Z z) = 10%Z).
Proof.
  assert (mapQualityToAvifCq (inject_Z z)
          = mapQualityToAvifCq (inject_Z (Z.min 100 (Z.max 1 z)))) as Hclamp.
  { rewrite mapQualityToAvifCq_clamp. now rewrite clamp_quality_inject_Z. }
  split; [exact Hclamp | split].
  - intros Hlt.
    rewrite Hclamp, Z.max_l, Z.min_r by lia. reflexivity.
  - intros Hgt.
    rewrite Hclamp, Z.max_r, Z.min_l by lia. reflexivity.
Qed.

End QualitySpec.

(** ** Format catalog and native options *)

Module CatalogSpec.
Import Encoders QualitySpec.

(** The catalog entries carrying a given id. *)
Definition entries_for (support : SquooshSupport) (i : EncoderId) : list EncoderOption :=
  filter (λ o, id o = i) (getMenuOptions support).

Lemma getMenuOptions_ids support :
  map id (getMenuOptions support)
  = [avif; browser_gif; browser_jpeg; browser_png; jxl; mozjpeg;
     oxipng; qoi; webp; wp2; original].
Proof. reflexivity. Qed.

Lemma getMenuOptions_ids_NoDup support : NoDup (map id (getMenuOptions support)).
Proof.
  rewrite getMenuOptions_ids.
  apply (bool_decide_unpack _). vm_compute. exact I.
Qed.

(** C5.  Whatever the capability set, the catalog has exactly one mozjpeg
    entry; its strategy is [squoosh] when the mozjpeg codec is usable and
    [sharp] otherwise, never [unsupported]; and the labels of the two cases
    differ, the fallback one saying it is not the true MozJPEG. *)
Theorem mozjpeg_entry_squoosh_or_sharp (support : SquooshSupport) :
  ∃ e, entries_for support mozjpeg = [e]
    ∧ encoderType e = (if s_mozjpeg support then squoosh else sharp)
    ∧ encoderType e ≠ unsupported
    ∧ label e = (if s_mozjpeg support then "MozJPEG"
                 else "JPEG fallback (not true MozJPEG)")
    ∧ isFallback e = Some (negb (s_mozjpeg support))
    ∧ ∀ support' e',
        entries_for support' mozjpeg = [e'] →
        s_mozjpeg support' ≠ s_mozjpeg support →
        label e' ≠ label e.
Proof.
  destruct support as [moz w a o j w2].
  eexists. split; [reflexivity |]. cbn [encoderType label isFallback s_mozjpeg].
  split; [reflexivity |].
  split; [destruct moz; discriminate |].
  split; [reflexivity |].
  split; [reflexivity |].
  intros [moz' w' a' o' j' w2'] e' He' Hne.
  injection He' as <-. cbn [label s_mozjpeg] in *.
  destruct moz, moz'; try congruence; discriminate.
Qed.

(** The formats whose native parameter is the quality itself. *)
Definition direct_scale_formats : list EncoderId := [mozjpeg; webp; jxl; wp2].

(** C8 as worded: the value handed to the codec is the quality, and it lies
    in 1..100. *)
Definition passes_clamped (i : EncoderId) (quality : Q) : Prop :=
  ∃ v, getSquooshEncodeOptions i quality = [("quality", v)]
       ∧ v = quality ∧ (1 <= v <= 100)%Q.

(** C8, counterexample.  A quality of 150 reaches the mozjpeg codec as 150:
    nothing clamps it. *)
Lemma direct_scale_not_clamped :
  In mozjpeg direct_scale_formats
  ∧ getSquooshEncodeOptions mozjpeg 150 = [("quality", 150%Q)]
  ∧ ¬ passes_clamped mozjpeg 150.
Proof.
  split; [now left |]. split; [reflexivity |].
  intros (v & Hv & _ & _ & Hhi).
  injection Hv as <-. revert Hhi. apply Qlt_not_le. reflexivity.
Qed.

(** C8, amended.  For mozjpeg, webp, jxl and wp2 the quality is handed to the
    codec unchanged, whatever its value; no clamp is applied, so the value
    is within 1..100 exactly when the input is, and there it agrees with the
    clamp. *)
Theorem direct_scale_identity (i : EncoderId) (quality : Q) :
  In i direct_scale_formats →
  getSquooshEncodeOptions i quality = [("quality", quality)]
  ∧ ((1 <= quality <= 100)%Q ↔ passes_clamped i quality)
  ∧ ((1 <= quality <= 100)%Q → (clamp_quality quality == quality)%Q).
Proof.
  intros Hin.
  assert (getSquooshEncodeOptions i quality = [("quality", quality)]) as Hopt.
  { simpl in Hin. destruct Hin as [<- | [<- | [<- | [<- | []]]]]; reflexivity. }
  split; [exact Hopt | split].
  - split.
    + intros Hr. exists quality. now rewrite Hopt.
    + intros (v & _ & -> & Hr). exact Hr.
  - apply clamp_quality_in_range.
Qed.

Lemma direct_scale_identity_witness :
  getSquooshEncodeOptions webp 82 = [("quality", 82%Q)]
  ∧ ((1 <= 82 <= 100)%Q ↔ passes_clamped webp 82)
  ∧ ((1 <= 82 <= 100)%Q → (clamp_quality 82 == 82)%Q).
Proof.
  apply (direct_scale_identity webp 82). simpl. tauto.
Defined.

End CatalogSpec.

(** ** Runs of the machine *)

Module MachineFacts.
Import Js World.

(** The jobs marked in a list of events: (input file, encoder id). *)
Definition jobs_of (evs : list Event) : list (string * string) :=
  omap (λ e, match e with EvJob f i => Some (f, i) | _ => None end) evs.

(** The events a run added. *)
Definition new_events (before after : Machine) : list Event :=
  drop (length (events before)) (events after).

Lemma bind_unfold {A B} (c : M A) (k : A → M B) m :
  (c ≫= k) m = match c m with
               | (Ok a, m') => k a m'
               | (Throw e, m') => (Throw e, m')
               end.
Proof. reflexivity. Qed.

Lemma jobs_of_app evs1 evs2 : jobs_of (evs1 ++ evs2) = jobs_of evs1 ++ jobs_of evs2.
Proof. unfold jobs_of. apply omap_app. Qed.

(** A computation that only adds events, none of them a job mark. *)
Definition silent {A} (c : M A) : Prop :=
  ∀ m, ∃ evs, events (c m).2 = events m ++ evs ∧ jobs_of evs = [].

Lemma silent_ret {A} (a : A) : silent (mret a : M A).
Proof. intros m. exists []. split; [symmetry; apply app_nil_r | reflexivity]. Qed.

Lemma silent_throw {A} msg : silent (throw msg : M A).
Proof. intros m. exists []. split; [symmetry; apply app_nil_r | reflexivity]. Qed.

Lemma silent_bind {A B} (c : M A) (k : A → M B) :
  silent c → (∀ a, silent (k a)) → silent (c ≫= k).
Proof.
  intros Hc Hk m. rewrite bind_unfold.
  destruct (Hc m) as (evs1 & He1 & Hj1).
  destruct (c m) as [[a | e] m1]; simpl in He1.
  - destruct (Hk a m1) as (evs2 & He2 & Hj2).
    exists (evs1 ++ evs2). split.
    + rewrite He2, He1. symmetry. apply app_assoc.
    + rewrite jobs_of_app, Hj1, Hj2. reflexivity.
  - exists evs1. split; assumption.
Qed.

Lemma silent_try_catch {A} (c : M A) (h : string → M A) :
  silent c → (∀ e, silent (h e)) → silent (try_catch c h).
Proof.
  intros Hc Hh m. unfold try_catch.
  destruct (Hc m) as (evs1 & He1 & Hj1).
  destruct (c m) as [[a | e] m1]; simpl in He1.
  - exists evs1. split; assumption.
  - destruct (Hh e m1) as (evs2 & He2 & Hj2).
    exists (evs1 ++ evs2). split.
    + rewrite He2, He1. symmetry. apply app_assoc.
    + rewrite jobs_of_app, Hj1, Hj2. reflexivity.
Qed.

Lemma silent_attempt {A} (c : M A) : silent c → silent (attempt c).
Proof.
  intros Hc m. unfold attempt.
  destruct (Hc m) as (evs1 & He1 & Hj1).
  destruct (c m) as [r m1]. exists evs1. split; assumption.
Qed.

Lemma silent_emit e :
  (∀ f i, e ≠ EvJob f i) → silent (emit e).
Proof.
  intros Hne m. exists [e]. split; [reflexivity |].
  destruct e; try reflexivity. now destruct (Hne inputFile encoderId).
Qed.

Lemma silent_get_disk : silent get_disk.
Proof. intros m. exists []. split; [symmetry; apply app_nil_r | reflexivity]. Qed.

Lemma silent_set_disk d : silent (set_disk d).
Proof. intros m. exists []. split; [symmetry; apply app_nil_r | reflexivity]. Qed.

Lemma silent_next_tick : silent next_tick.
Proof. intros m. exists []. split; [symmetry; apply app_nil_r | reflexivity]. Qed.

Lemma silent_set_disks ds : silent (set_disks ds).
Proof.
  induction ds as [| d ds IH]; simpl.
  - apply silent_ret.
  - apply silent_bind; [apply silent_set_disk | intros _; exact IH].
Qed.

Create HintDb silent discriminated.
#[export] Hint Resolve silent_ret silent_throw silent_get_disk silent_set_disk
  silent_next_tick silent_set_disks silent_attempt : silent.

(* Breaks a computation down to its primitive steps. *)
Ltac silent_step :=
  match goal with
  | |- silent (mbind _ _) => apply silent_bind; [| intros ?]
  | |- silent (try_catch _ _) => apply silent_try_catch; [| intros ?]
  | |- silent (attempt _) => apply silent_attempt
  | |- silent (emit _) => apply silent_emit; intros ? ?; discriminate
  | |- silent (match ?x with _ => _ end) => destruct x
  | |- silent (if ?b then _ else _) => destruct b
  | |- silent (let '(_, _) := ?x in _) => destruct x
  | |- silent _ => solve [eauto with silent]
  end.
Ltac solve_silent := repeat silent_step.

Lemma silent_write_bytes p data : silent (write_bytes p data).
Proof. unfold write_bytes. solve_silent. Qed.

Lemma silent_fs_mkdir_recursive dir : silent (fs_mkdir_recursive dir).
Proof. unfold fs_mkdir_recursive. solve_silent. Qed.

Lemma silent_fs_writeFile p data : silent (fs_writeFile p data).
Proof. unfold fs_writeFile. solve_silent. apply silent_write_bytes. Qed.

Lemma silent_fs_readFile p : silent (fs_readFile p).
Proof. unfold fs_readFile. solve_silent. Qed.

Lemma silent_fs_copyFile src dst : silent (fs_copyFile src dst).
Proof. unfold fs_copyFile. solve_silent. apply silent_write_bytes. Qed.

Lemma silent_fs_rename src dst : silent (fs_rename src dst).
Proof. unfold fs_rename. solve_silent. Qed.

Lemma silent_import_squoosh env : silent (import_squoosh env).
Proof. unfold import_squoosh. solve_silent. Qed.

Lemma silent_new_ImagePool env n : silent (new_ImagePool env n).
Proof. unfold new_ImagePool. solve_silent. Qed.

Lemma silent_pool_encode env codec options input :
  silent (pool_encode env codec options input).
Proof. unfold pool_encode. solve_silent. Qed.

Lemma silent_pool_close : silent pool_close.
Proof. unfold pool_close. solve_silent. Qed.

Lemma silent_sharp_toFile env call input output :
  silent (sharp_toFile env call input output).
Proof. unfold sharp_toFile. solve_silent. apply silent_write_bytes. Qed.

#[export] Hint Resolve silent_write_bytes silent_fs_mkdir_recursive
  silent_fs_writeFile silent_fs_readFile silent_fs_copyFile silent_fs_rename
  silent_import_squoosh silent_new_ImagePool silent_pool_encode
  silent_pool_close silent_sharp_toFile : silent.

End MachineFacts.

(** ** Batch runner *)

Module ProcessSpec.
Import Js World Encoders Fs Process MachineFacts.

Lemma silent_ensureDir dir : silent (ensureDir dir).
Proof. unfold ensureDir. solve_silent. Qed.

Lemma silent_getTempPath env target : silent (getTempPath env target).
Proof. unfold getTempPath. solve_silent. Qed.

#[export] Hint Resolve silent_ensureDir silent_getTempPath : silent.

Lemma silent_writeFileAtomic env target data : silent (writeFileAtomic env target data).
Proof. unfold writeFileAtomic. solve_silent. Qed.

Lemma silent_copyFileAtomic env src target : silent (copyFileAtomic env src target).
Proof. unfold copyFileAtomic. solve_silent. Qed.

#[export] Hint Resolve silent_writeFileAtomic silent_copyFileAtomic : silent.

Lemma silent_encodeWithSharp env encoder input output q :
  silent (encodeWithSharp env encoder input output q).
Proof. unfold encodeWithSharp. solve_silent. Qed.

Lemma silent_encodeWithSquoosh env encoder buffer output q :
  silent (encodeWithSquoosh env encoder buffer output q).
Proof. unfold encodeWithSquoosh. solve_silent. Qed.

#[export] Hint Resolve silent_encodeWithSharp silent_encodeWithSquoosh : silent.

(** A computation that always returns, adding no job mark. *)
Definition returns_quietly {A} (c : M A) : Prop :=
  ∀ m, ∃ a m' evs,
    c m = (Ok a, m') ∧ events m' = events m ++ evs ∧ jobs_of evs = [].

Lemma returns_quietly_ret {A} (a : A) : returns_quietly (mret a : M A).
Proof.
  intros m. exists a, m, []. repeat split. symmetry. apply app_nil_r.
Qed.

Lemma returns_quietly_attempt {A} (c : M A) :
  silent c → returns_quietly (attempt c).
Proof.
  intros Hc m. destruct (Hc m) as (evs & He & Hj). unfold attempt.
  destruct (c m) as [r m']. exists r, m', evs. repeat split; assumption.
Qed.

Lemma returns_quietly_bind {A B} (c : M A) (k : A → M B) :
  returns_quietly c → (∀ a, returns_quietly (k a)) → returns_quietly (c ≫= k).
Proof.
  intros Hc Hk m. rewrite bind_unfold.
  destruct (Hc m) as (a & m1 & evs1 & -> & He1 & Hj1).
  destruct (Hk a m1) as (b & m2 & evs2 & -> & He2 & Hj2).
  exists b, m2, (evs1 ++ evs2). repeat split.
  - rewrite He2, He1. symmetry. apply app_assoc.
  - rewrite jobs_of_app, Hj1, Hj2. reflexivity.
Qed.

Lemma dispatch_returns_quietly env params pool f e ib :
  returns_quietly (dispatch env params pool f e ib).
Proof.
  unfold dispatch. destruct (encoderType e).
  - destruct pool; simpl; [| apply returns_quietly_ret].
    apply returns_quietly_bind.
    + apply returns_quietly_attempt. destruct ib; auto with silent.
    + intros [buffer | msg]; [| apply returns_quietly_ret].
      apply returns_quietly_bind;
        [apply returns_quietly_attempt; auto with silent |].
      intros r. apply returns_quietly_ret.
  - apply returns_quietly_bind;
      [apply returns_quietly_attempt; auto with silent |].
    intros r. apply returns_quietly_ret.
  - apply returns_quietly_bind;
      [apply returns_quietly_attempt; auto with silent |].
    intros r. apply returns_quietly_ret.
  - apply returns_quietly_ret.
Qed.

Definition job_mark (inputFile : string) (encoder : EncoderOption) : string * string :=
  (inputFile, id_string (id encoder)).

(** One job: it returns, marks exactly itself, and touches no counter but
    its own encoder's. *)
Lemma encodeOne_run env params pool f e ib t m :
  ∃ ib' t' m' evs,
    encodeOne env params pool f e (ib, t) m = (Ok (ib', t'), m')
    ∧ events m' = events m ++ evs
    ∧ jobs_of evs = [job_mark f e]
    ∧ completed t' = completed t
    ∧ ∀ j, j ≠ id e → outputs t' j = outputs t j.
Proof.
  unfold encodeOne. rewrite bind_unfold. simpl.
  set (m1 := {| disk := disk m; observed := observed m;
                events := events m ++ [EvJob f (id_string (id e))];
                ticks := ticks m |}).
  rewrite bind_unfold.
  destruct (dispatch_returns_quietly env params pool f e ib m1)
    as ([ib' outcome] & m2 & evs & -> & He & Hj).
  exists ib'.
  destruct outcome as [[] | message]; simpl.
  - exists (count_output (id e) t), m2, (EvJob f (id_string (id e)) :: evs).
    repeat split.
    + rewrite He. simpl. now rewrite <- app_assoc.
    + simpl. fold (jobs_of evs). now rewrite Hj.
    + intros j Hne. simpl. now destruct (decide (j = id e)).
  - eexists _, m2, (EvJob f (id_string (id e)) :: evs).
    repeat split.
    + rewrite He. simpl. now rewrite <- app_assoc.
    + simpl. fold (jobs_of evs). now rewrite Hj.
Qed.

Lemma encodeAll_run env params pool f active : ∀ ib t m,
  ∃ ib' t' m' evs,
    encodeAll env params pool f active (ib, t) m = (Ok (ib', t'), m')
    ∧ events m' = events m ++ evs
    ∧ jobs_of evs = map (job_mark f) active
    ∧ completed t' = completed t
    ∧ ∀ j, j ∉ map id active → outputs t' j = outputs t j.
Proof.
  induction active as [| e rest IH]; intros ib t m.
  - exists ib, t, m, []. repeat split. symmetry. apply app_nil_r.
  - cbn [encodeAll]. rewrite bind_unfold.
    destruct (encodeOne_run env params pool f e ib t m)
      as (ib1 & t1 & m1 & evs1 & -> & He1 & Hj1 & Hc1 & Ho1).
    destruct (IH ib1 t1 m1)
      as (ib2 & t2 & m2 & evs2 & -> & He2 & Hj2 & Hc2 & Ho2).
    exists ib2, t2, m2, (evs1 ++ evs2). repeat split.
    + rewrite He2, He1. symmetry. apply app_assoc.
    + rewrite jobs_of_app, Hj1, Hj2. reflexivity.
    + congruence.
    + intros j Hj. cbn [map] in Hj.
      rewrite not_elem_of_cons in Hj. destruct Hj as [Hne Hj].
      rewrite Ho2 by exact Hj. now apply Ho1.
Qed.

Definition jobs_for (files : list string) (active : list EncoderOption)
  : list (string * string) :=
  flat_map (λ f, map (job_mark f) active) files.

Lemma runTasks_run env params pool active files : ∀ t m,
  ∃ t' m' evs,
    runTasks env params pool active files t m = (Ok t', m')
    ∧ events m' = events m ++ evs
    ∧ jobs_of evs = jobs_for files active
    ∧ completed t' = (completed t + length files)%nat
    ∧ ∀ j, j ∉ map id active → outputs t' j = outputs t j.
Proof.
  induction files as [| f rest IH]; intros t m.
  - exists t, m, []. repeat split; [symmetry; apply app_nil_r | simpl; lia].
  - cbn [runTasks]. rewrite bind_unfold. unfold task at 1. rewrite bind_unfold.
    destruct (encodeAll_run env params pool f active None t m)
      as (ib1 & t1 & m1 & evs1 & -> & He1 & Hj1 & Hc1 & Ho1).
    cbn [snd]. unfold mret, M_ret.
    destruct (IH (file_done t1) m1) as (t2 & m2 & evs2 & -> & He2 & Hj2 & Hc2 & Ho2).
    exists t2, m2, (evs1 ++ evs2). repeat split.
    + rewrite He2, He1. symmetry. apply app_assoc.
    + rewrite jobs_of_app, Hj1, Hj2. reflexivity.
    + rewrite Hc2. simpl. lia.

    + intros j Hj. rewrite Ho2 by exact Hj. simpl. now apply Ho1.
Qed.

(** The concurrency handed to [pLimit] and to the pool. *)
Definition effective_concurrency (env : Env) (params : Params) : Z :=
  match concurrency params with
  | Some c => c
  | None => defaultConcurrency env
  end.

(** Would [@squoosh/lib] load and its pool start, for this batch? *)
Definition pool_constructs (env : Env) (params : Params) : bool :=
  import_ok env && pool_ctor_ok env (effective_concurrency env params).

Definition selected_active (params : Params) : list EncoderOption :=
  filter (λ enc, encoderType enc ≠ Encoders.unsupported) (encoders params).

Definition selected_unsupported (params : Params) : list EncoderOption :=
  filter (λ enc, encoderType enc = Encoders.unsupported) (encoders params).

(** The encoders that run once the pool question is settled. *)
Definition final_active (env : Env) (params : Params) : list EncoderOption :=
  if pool_constructs env params then selected_active params
  else filter (λ enc, encoderType enc ≠ squoosh) (selected_active params).

Definition final_unsupported (env : Env) (params : Params) : list Skipped :=
  map (skip_all params) (selected_unsupported params)
  ++ (if pool_constructs env params then []
      else map (skip_all params)
             (filter (λ enc, encoderType enc = squoosh) (selected_active params))).

Lemma defaultConcurrency_range env : (2 ≤ defaultConcurrency env ≤ 8)%Z.
Proof. unfold defaultConcurrency. case_bool_decide; lia. Qed.

Lemma filter_no_squoosh (l : list EncoderOption) :
  existsb (is_type squoosh) l = false →
  filter (λ enc, encoderType enc ≠ squoosh) l = l
  ∧ filter (λ enc, encoderType enc = squoosh) l = [].
Proof.
  induction l as [| e l IH]; [now split |].
  cbn [existsb]. intros [He Hl]%orb_false_elim.
  apply bool_decide_eq_false in He.
  destruct (IH Hl) as [IH1 IH2]. split.
  - rewrite filter_cons_True by exact He. now rewrite IH1.
  - rewrite filter_cons_False by (intros ?; contradiction). exact IH2.
Qed.

Lemma openPool_run env params m :
  ∃ pool m' evs,
    openPool env params (effective_concurrency env params)
      (selected_active params)
      (map (skip_all params) (selected_unsupported params)) m
    = (Ok (pool, final_active env params, final_unsupported env params), m')
    ∧ events m' = events m ++ evs
    ∧ jobs_of evs = [].
Proof.
  unfold openPool, final_active, final_unsupported, pool_constructs.
  destruct (existsb (is_type squoosh) (selected_active params)) eqn:Hneeds.
  - unfold try_catch, import_squoosh. rewrite !bind_unfold. simpl.
    destruct (import_ok env); simpl.
    + unfold new_ImagePool. rewrite !bind_unfold. simpl.
      destruct (pool_ctor_ok env (effective_concurrency env params)); simpl.
      * eexists true, _, [EvImportSquoosh; EvNewImagePool _].
        rewrite app_nil_r. split; [reflexivity |]. split; [| reflexivity].
        simpl. now rewrite <- app_assoc.
      * eexists false, _, [EvImportSquoosh; EvNewImagePool _].
        split; [reflexivity |]. split; [| reflexivity].
        simpl. now rewrite <- app_assoc.
    + eexists false, _, [EvImportSquoosh].
      split; [reflexivity |]. split; reflexivity.
  - destruct (filter_no_squoosh _ Hneeds) as [-> ->].
    exists false, m, []. simpl.
    replace (if import_ok env && pool_ctor_ok env (effective_concurrency env params)
             then selected_active params else selected_active params)
      with (selected_active params) by (now destruct (_ && _)).
    replace (if import_ok env && pool_ctor_ok env (effective_concurrency env params)
             then @nil Skipped else [])
      with (@nil Skipped) by (now destruct (_ && _)).
    rewrite !app_nil_r.
    split; [reflexivity |]. split; reflexivity.
Qed.

(** What a batch does, in one statement: with a concurrency [pLimit]
    accepts it returns a summary; it ran exactly the jobs
    (input file x encoder still active), in that order; and the skipped list
    and the counters of the encoders that did not run are as computed
    before the first job. *)
Lemma processImages_run env params m :
  (1 ≤ effective_concurrency env params)%Z →
  ∃ s m' evs,
    processImages env params m = (Ok s, m')
    ∧ events m' = events m ++ evs
    ∧ jobs_of evs = jobs_for (inputFiles params) (final_active env params)
    ∧ totalInputs s = length (inputFiles params)
    ∧ unsupported s = final_unsupported env params
    ∧ ∀ j, j ∉ map id (final_active env params) → outputsByEncoder s j = 0%nat.
Proof.
  intros Hc. unfold processImages.
  fold (effective_concurrency env params).
  fold (selected_active params). fold (selected_unsupported params).
  rewrite bind_unfold. unfold Date_now at 1. rewrite bind_unfold. simpl.
  set (m1 := {| disk := disk m; observed := observed m; events := events m;
                ticks := S (ticks m) |}).
  rewrite bind_unfold. unfold pLimit.
  rewrite bool_decide_eq_true_2 by exact Hc. simpl.
  rewrite bind_unfold.
  destruct (openPool_run env params m1) as (pool & m2 & evs1 & -> & He1 & Hj1).
  rewrite bind_unfold.
  destruct (runTasks_run env params pool (final_active env params)
              (inputFiles params)
              {| outputs := λ _, 0%nat; failed := []; completed := 0 |} m2)
    as (t & m3 & evs2 & -> & He2 & Hj2 & _ & Ho2).
  rewrite bind_unfold.
  assert (∃ m4 evs3, (if pool then pool_close else mret tt) m3 = (Ok tt, m4)
                     ∧ events m4 = events m3 ++ evs3 ∧ jobs_of evs3 = [])
    as (m4 & evs3 & -> & He3 & Hj3).
  { destruct pool.
    - eexists _, [EvClosePool]. repeat split.
    - exists m3, []. repeat split. symmetry. apply app_nil_r. }
  rewrite bind_unfold. unfold Date_now. rewrite bind_unfold. simpl.
  eexists _, _, (evs1 ++ evs2 ++ evs3). split; [reflexivity |].
  cbn [events totalInputs unsupported outputsByEncoder].
  repeat split.
  - rewrite He3, He2, He1. simpl. now rewrite <- !app_assoc.
  - rewrite !jobs_of_app, Hj1, Hj2, Hj3. simpl. apply app_nil_r.
  - intros j Hj. now rewrite Ho2.
Qed.

#[export] Instance id_string_inj : Inj (=) (=) id_string.
Proof. intros [] [] H; try reflexivity; discriminate H. Qed.

Lemma new_events_app m m' evs :
  events m' = events m ++ evs → new_events m m' = evs.
Proof. intros H. unfold new_events. rewrite H. apply drop_app_length. Qed.

Lemma elem_of_jobs_for f i files active :
  (f, i) ∈ jobs_for files active →
  f ∈ files ∧ ∃ e, e ∈ active ∧ i = id_string (id e).
Proof.
  unfold jobs_for. rewrite list_elem_of_In, in_flat_map.
  intros (f' & Hf' & Hin).
  apply list_elem_of_In in Hf'. apply list_elem_of_In in Hin.
  apply list_elem_of_fmap in Hin as (e & Heq & He).
  injection Heq as -> ->. split; [exact Hf' | now exists e].
Qed.

Lemma final_active_subset env params e :
  e ∈ final_active env params →
  e ∈ encoders params ∧ encoderType e ≠ Encoders.unsupported
  ∧ (pool_constructs env params = false → encoderType e ≠ squoosh).
Proof.
  unfold final_active, selected_active.
  destruct (pool_constructs env params).
  - rewrite list_elem_of_filter. intros [Ht He]. now repeat split.
  - rewrite !list_elem_of_filter. intros (Hs & Ht & He). now repeat split.
Qed.

(** In a selection that names each format once, an encoder is known by its
    id. *)
Lemma selected_by_id (l : list EncoderOption) e e' :
  NoDup (map id l) → e ∈ l → e' ∈ l → id e = id e' → e = e'.
Proof.
  induction l as [| x l IH]; [intros _ He; inversion He |].
  cbn [map]. rewrite NoDup_cons. intros [Hx Hl] He He' Hid.
  apply elem_of_cons in He as [-> | He];
    apply elem_of_cons in He' as [-> | He'].
  - reflexivity.
  - destruct Hx. rewrite Hid. apply list_elem_of_fmap. now exists e'.
  - destruct Hx. rewrite <- Hid. apply list_elem_of_fmap. now exists e.
  - now apply IH.
Qed.

(** The entries of a skipped list made from [l] that carry [enc]'s id. *)
Lemma skipped_entries_for params (l : list EncoderOption) enc :
  (∀ e, e ∈ l → id e = id enc → e = enc) →
  filter (λ u, u_id u = id enc) (map (skip_all params) l)
  = map (skip_all params) (filter (λ e, e = enc) l).
Proof.
  intros Huniq. induction l as [| x l IH]; [reflexivity |].
  cbn [map]. rewrite !filter_cons. cbn [skip_all u_id].
  rewrite IH by (intros e He; apply Huniq; now right).
  destruct (decide (id x = id enc)) as [Hid | Hid];
    destruct (decide (x = enc)) as [Hx | Hx]; try reflexivity.
  - destruct Hx. apply Huniq; [now left | exact Hid].
  - destruct Hid. now rewrite Hx.
Qed.

Lemma filter_eq_absent (l : list EncoderOption) enc :
  enc ∉ l → filter (λ e, e = enc) l = [].
Proof.
  induction l as [| x l IH]; [reflexivity |].
  rewrite not_elem_of_cons. intros [Hne Hl].
  rewrite filter_cons_False by (intros ->; now destruct Hne).
  now apply IH.
Qed.

Lemma filter_eq_singleton (l : list EncoderOption) enc :
  NoDup (map id l) → enc ∈ l → filter (λ e, e = enc) l = [enc].
Proof.
  induction l as [| x l IH]; [intros _ He; inversion He |].
  cbn [map]. rewrite NoDup_cons. intros [Hx Hl] He.
  rewrite filter_cons.
  destruct (decide (x = enc)) as [-> | Hne].
  - f_equal. apply filter_eq_absent. intros He'.
    apply Hx, list_elem_of_fmap. now exists enc.
  - apply IH; [exact Hl |]. apply elem_of_cons in He as [-> | He]; [| exact He].
    now destruct Hne.
Qed.

Lemma selectedEncoders_ids_NoDup support selection :
  NoDup (map id (Cli.selectedEncoders (getMenuOptions support) selection)).
Proof.
  unfold Cli.selectedEncoders.
  pose proof (CatalogSpec.getMenuOptions_ids_NoDup support) as Hnd.
  induction (getMenuOptions support) as [| o l IH]; [constructor |].
  cbn [map] in Hnd. apply NoDup_cons in Hnd as [Ho Hl].
  rewrite filter_cons.
  destruct (decide (id o ∈ selection)) as [Hsel | Hsel]; [| now apply IH].
  cbn [map]. apply NoDup_cons. split; [| now apply IH].
  intros Hin. apply Ho.
  apply list_elem_of_fmap in Hin as (e & -> & He).
  apply list_elem_of_filter in He as [_ He].
  apply list_elem_of_fmap. now exists e.
Qed.

(** C7.  In a batch of N input files, a selected encoder whose strategy is
    [unsupported] has exactly one entry in the summary's skipped list, with
    skipped = N; no job is run for it; and its counter in
    [outputsByEncoder] is 0.  (A selection names each format once, as
    [selectedEncoders] makes it; the concurrency is one [pLimit] accepts.) *)
Theorem unsupported_selection_fully_skipped env params m enc :
  (1 ≤ effective_concurrency env params)%Z →
  NoDup (map id (encoders params)) →
  enc ∈ encoders params →
  encoderType enc = Encoders.unsupported →
  ∃ s m',
    processImages env params m = (Ok s, m')
    ∧ filter (λ u, u_id u = id enc) (unsupported s)
      = [{| u_id := id enc; u_label := label enc;
            skipped := length (inputFiles params) |}]
    ∧ (∀ f, (f, id_string (id enc)) ∉ jobs_of (new_events m m'))
    ∧ outputsByEncoder s (id enc) = 0%nat.
Proof.
  intros Hc Hnd Hin Htype.
  destruct (processImages_run env params m Hc)
    as (s & m' & evs & Hrun & Hev & Hjobs & _ & Hunsup & Hout).
  assert (∀ e, e ∈ final_active env params → id e ≠ id enc) as Hactive.
  { intros e He Hid. apply final_active_subset in He as (He & Ht & _).
    apply Ht. now rewrite (selected_by_id _ e enc Hnd He Hin Hid). }
  exists s, m'. split; [exact Hrun |]. split; [| split].
  - assert (∀ l : list EncoderOption, (∀ e, e ∈ l → e ∈ encoders params) →
              filter (λ u, u_id u = id enc) (map (skip_all params) l)
              = map (skip_all params) (filter (λ e, e = enc) l)) as Hentries.
    { intros l Hl. apply skipped_entries_for. intros e He Hid.
      exact (selected_by_id _ e enc Hnd (Hl e He) Hin Hid). }
    rewrite Hunsup. unfold final_unsupported.
    rewrite filter_app, Hentries
      by (intros e He; now apply list_elem_of_filter in He as [_ He]).
    unfold selected_unsupported.
    rewrite (list_filter_filter_l (λ e, e = enc)) by (now intros ? ->).
    rewrite filter_eq_singleton by assumption.
    destruct (pool_constructs env params); [reflexivity |].
    rewrite Hentries.
    + rewrite filter_eq_absent; [reflexivity |].
      rewrite list_elem_of_filter. intros [Hs _]. congruence.
    + intros e He. apply list_elem_of_filter in He as [_ He].
      unfold selected_active in He.
      now apply list_elem_of_filter in He as [_ He].
  - intros f Hf. rewrite (new_events_app _ _ _ Hev), Hjobs in Hf.
    apply elem_of_jobs_for in Hf as (_ & e & He & Hid).
    apply (Hactive e He). now apply (inj id_string).
  - apply Hout. intros Hmem.
    apply list_elem_of_fmap in Hmem as (e & Hid & He).
    now apply (Hactive e He).
Qed.

Lemma unsupported_selection_fully_skipped_witness :
  ∃ s m',
    processImages Samples.sample_env Samples.sample_params Samples.sample_machine
    = (Ok s, m')
    ∧ filter (λ u, u_id u = qoi) (unsupported s)
      = [{| u_id := qoi; u_label := "QOI"; skipped := 3 |}]
    ∧ (∀ f, (f, "qoi") ∉ jobs_of (new_events Samples.sample_machine m'))
    ∧ outputsByEncoder s qoi = 0%nat.
Proof.
  apply (unsupported_selection_fully_skipped
           Samples.sample_env Samples.sample_params Samples.sample_machine
           Samples.qoi_option).
  - vm_compute. discriminate.
  - apply selectedEncoders_ids_NoDup.
  - apply list_elem_of_In. vm_compute. tauto.
  - reflexivity.
Defined.

(** C4.  When the codec pool cannot be constructed for the batch (the
    library does not load, or [new ImagePool] throws), the run still returns
    a summary: every selected [squoosh] encoder is taken out of the active
    set and listed as skipped with skipped = N, and the jobs that run are
    exactly those of the remaining encoders, for every input file. *)
Theorem pool_failure_downgrades_squoosh env params m :
  (1 ≤ effective_concurrency env params)%Z →
  pool_constructs env params = false →
  ∃ s m',
    processImages env params m = (Ok s, m')
    ∧ totalInputs s = length (inputFiles params)
    ∧ jobs_of (new_events m m')
      = jobs_for (inputFiles params)
          (filter (λ e, encoderType e ≠ squoosh) (selected_active params))
    ∧ ∀ enc, enc ∈ encoders params → encoderType enc = squoosh →
        {| u_id := id enc; u_label := label enc;
           skipped := length (inputFiles params) |} ∈ unsupported s
        ∧ (enc ∉ final_active env params)
        ∧ (NoDup (map id (encoders params)) →
           ((∀ f, (f, id_string (id enc)) ∉ jobs_of (new_events m m'))
            ∧ outputsByEncoder s (id enc) = 0%nat)).
Proof.
  intros Hc Hfail.
  destruct (processImages_run env params m Hc)
    as (s & m' & evs & Hrun & Hev & Hjobs & Htotal & Hunsup & Hout).
  exists s, m'. split; [exact Hrun |]. split; [exact Htotal |].
  rewrite (new_events_app _ _ _ Hev), Hjobs.
  unfold final_active at 1. rewrite Hfail. split; [reflexivity |].
  intros enc Hin Htype.
  assert (enc ∉ final_active env params) as Hgone.
  { intros He. apply final_active_subset in He as (_ & _ & Hs).
    exact (Hs Hfail Htype). }
  split; [| split; [exact Hgone |]].
  - rewrite Hunsup. unfold final_unsupported. rewrite Hfail.
    apply elem_of_app. right.
    apply (list_elem_of_fmap_2 (skip_all params)).
    apply list_elem_of_filter. split; [exact Htype |].
    unfold selected_active. apply list_elem_of_filter. split; [congruence | exact Hin].
  - intros Hnd.
    assert (∀ e, e ∈ final_active env params → id e ≠ id enc) as Hactive.
    { intros e He Hid. apply Hgone.
      pose proof He as (He' & _)%final_active_subset.
      now rewrite <- (selected_by_id _ e enc Hnd He' Hin Hid). }
    split.
    + intros f Hf. apply elem_of_jobs_for in Hf as (_ & e & He & Hid).
      apply (Hactive e He). symmetry. now apply (inj id_string).
    + apply Hout. intros Hmem.
      apply list_elem_of_fmap in Hmem as (e & Hid & He).
      now apply (Hactive e He).
Qed.

Lemma pool_failure_downgrades_squoosh_witness :
  ∃ s m',
    processImages Samples.sample_env_no_pool Samples.sample_params
      Samples.sample_machine = (Ok s, m')
    ∧ totalInputs s = length (inputFiles Samples.sample_params)
    ∧ jobs_of (new_events Samples.sample_machine m')
      = jobs_for (inputFiles Samples.sample_params)
          (filter (λ e, encoderType e ≠ squoosh)
             (selected_active Samples.sample_params))
    ∧ ∀ enc, enc ∈ encoders Samples.sample_params → encoderType enc = squoosh →
        {| u_id := id enc; u_label := label enc;
           skipped := length (inputFiles Samples.sample_params) |} ∈ unsupported s
        ∧ (enc ∉ final_active Samples.sample_env_no_pool Samples.sample_params)
        ∧ (NoDup (map id (encoders Samples.sample_params)) →
           ((∀ f, (f, id_string (id enc))
                  ∉ jobs_of (new_events Samples.sample_machine m'))
            ∧ outputsByEncoder s (id enc) = 0%nat)).
Proof.
  apply (pool_failure_downgrades_squoosh
           Samples.sample_env_no_pool Samples.sample_params Samples.sample_machine).
  - vm_compute. discriminate.
  - reflexivity.
Defined.

(** The end-to-end example of the design notes: three inputs, WebP through
    the codec pool, the original copy and QOI selected, the pool failing to
    start.  WebP and QOI are skipped three times each and the three copies
    are written. *)
Example batch_without_pool :
  let r := processImages Samples.sample_env_no_pool Samples.sample_params
             Samples.sample_machine in
  (match r.1 with
   | Ok s => Some (unsupported s, map (outputsByEncoder s) [webp; qoi; original],
                   failures s)
   | Throw _ => None
   end,
   jobs_of (events r.2),
   map (λ p, files (disk r.2) !! p)
     ["/in-squoosh/a-squoosh.png"; "/in-squoosh/sub/b-squoosh.png";
      "/in-squoosh/sub/c-squoosh.jpg"])
  = (Some ([{| u_id := qoi; u_label := "QOI"; skipped := 3 |};
            {| u_id := webp; u_label := "WebP"; skipped := 3 |}],
           [0; 0; 3]%nat, []),
     [("/in/a.png", "original"); ("/in/sub/b.png", "original");
      ("/in/sub/c.jpg", "original")],
     [Some [Byte.x01; Byte.x02]; Some [Byte.x03]; Some [Byte.x04]]).
Proof. vm_compute. reflexivity. Qed.

End ProcessSpec.

(** ** Capability detection *)

Module DetectSpec.
Import Js World Encoders MachineFacts.

(** The outcome of probing one codec: usable when the encode of the test
    image returned and left a non-empty binary. *)
Definition probe_ok (env : Env) (codec : string) (options : list (string * Q)) : bool :=
  match squoosh_encode env codec options TINY_PNG with
  | Ok encoded => has_bytes encoded
  | Throw _ => false
  end.

Definition add_events (m : Machine) (evs : list Event) : Machine :=
  {| disk := disk m; observed := observed m;
     events := events m ++ evs; ticks := ticks m |}.

Lemma add_events_app m evs1 evs2 :
  add_events (add_events m evs1) evs2 = add_events m (evs1 ++ evs2).
Proof. unfold add_events. simpl. now rewrite <- app_assoc. Qed.

(** A probe never throws, whatever the codec does. *)
Lemma trySquooshEncode_run env codec options m :
  trySquooshEncode env codec options m
  = (Ok (probe_ok env codec options),
     add_events m [EvSquooshEncode codec options TINY_PNG]).
Proof.
  unfold trySquooshEncode, try_catch, pool_encode, probe_ok.
  rewrite !bind_unfold. simpl.
  destruct (squoosh_encode env codec options TINY_PNG); reflexivity.
Qed.

(** The six probes, in the order of the source. *)
Definition probes : list (string * list (string * Q)) :=
  [("mozjpeg", [("quality", 75%Q)]); ("webp", [("quality", 75%Q)]);
   ("avif", [("cqLevel", 30%Q)]); ("oxipng", [("level", 2%Q)]);
   ("jxl", [("quality", 75%Q)]); ("wp2", [("quality", 75%Q)])].

Definition probed_support (env : Env) : SquooshSupport :=
  {| s_mozjpeg := probe_ok env "mozjpeg" [("quality", 75%Q)];
     s_webp := probe_ok env "webp" [("quality", 75%Q)];
     s_avif := probe_ok env "avif" [("cqLevel", 30%Q)];
     s_oxipng := probe_ok env "oxipng" [("level", 2%Q)];
     s_jxl := probe_ok env "jxl" [("quality", 75%Q)];
     s_wp2 := probe_ok env "wp2" [("quality", 75%Q)] |}.

(** Node 20 and later: nothing is loaded or probed. *)
Lemma detect_recent_node env m :
  (20 ≤ node_major env)%nat →
  detectSquooshSupport env m = (Ok no_support, m).
Proof.
  intros Hv. unfold detectSquooshSupport.
  now rewrite bool_decide_eq_true_2.
Qed.

(** The library does not load: every codec is unusable and none was probed. *)
Lemma detect_import_fails env m :
  (node_major env < 20)%nat → import_ok env = false →
  detectSquooshSupport env m = (Ok no_support, add_events m [EvImportSquoosh]).
Proof.
  intros Hv Himp. unfold detectSquooshSupport.
  rewrite bool_decide_eq_false_2 by lia.
  rewrite bind_unfold. unfold attempt, import_squoosh.
  rewrite bind_unfold. simpl. now rewrite Himp.
Qed.

(** The library loads and the pool starts: each codec is probed on its own,
    a failed probe marks that codec alone, and no exception escapes. *)
Lemma detect_probes_each env m :
  (node_major env < 20)%nat → import_ok env = true → pool_ctor_ok env 1 = true →
  detectSquooshSupport env m
  = (Ok (probed_support env),
     add_events m
       ([EvImportSquoosh; EvNewImagePool 1]
        ++ map (λ p, EvSquooshEncode p.1 p.2 TINY_PNG) probes
        ++ [EvClosePool])).
Proof.
  intros Hv Himp Hctor. unfold detectSquooshSupport.
  rewrite bool_decide_eq_false_2 by lia.
  rewrite bind_unfold. unfold attempt, import_squoosh at 1.
  rewrite bind_unfold. simpl. rewrite Himp. simpl.
  rewrite bind_unfold. unfold new_ImagePool. rewrite bind_unfold. simpl.
  rewrite Hctor. simpl.
  repeat (rewrite bind_unfold, trySquooshEncode_run).
  rewrite bind_unfold. simpl.
  unfold add_events. simpl. rewrite <- !app_assoc. reflexivity.
Qed.

(** A codec is reported usable only after a real encode of the test image
    that returned a non-empty binary. *)
Lemma detect_usable_only_if_encoded env m s m' :
  detectSquooshSupport env m = (Ok s, m') →
  ∀ codec options usable,
    (codec, options, usable)
    ∈ [("mozjpeg", [("quality", 75%Q)], s_mozjpeg s);
       ("webp", [("quality", 75%Q)], s_webp s);
       ("avif", [("cqLevel", 30%Q)], s_avif s);
       ("oxipng", [("level", 2%Q)], s_oxipng s);
       ("jxl", [("quality", 75%Q)], s_jxl s);
       ("wp2", [("quality", 75%Q)], s_wp2 s)] →
    usable = true →
    EvSquooshEncode codec options TINY_PNG ∈ new_events m m'
    ∧ ∃ binary, squoosh_encode env codec options TINY_PNG = Ok (Some (Some binary))
                ∧ length binary ≠ 0%nat.
Proof.
  intros Hrun codec options usable Hin Hus.
  destruct (decide (20 ≤ node_major env)%nat) as [Hv | Hv].
  { rewrite detect_recent_node in Hrun by exact Hv.
    injection Hrun as <- <-.
    repeat (apply elem_of_cons in Hin as [Heq | Hin];
            [injection Heq as -> -> ->; discriminate Hus |]).
    inversion Hin. }
  destruct (import_ok env) eqn:Himp.
  2: { rewrite detect_import_fails in Hrun by (lia || assumption).
       injection Hrun as <- <-.
       repeat (apply elem_of_cons in Hin as [Heq | Hin];
               [injection Heq as -> -> ->; discriminate Hus |]).
       inversion Hin. }
  destruct (pool_ctor_ok env 1) eqn:Hctor.
  2: { unfold detectSquooshSupport in Hrun.
       rewrite bool_decide_eq_false_2 in Hrun by lia.
       rewrite bind_unfold in Hrun. unfold attempt, import_squoosh in Hrun.
       rewrite bind_unfold in Hrun. simpl in Hrun. rewrite Himp in Hrun.
       simpl in Hrun. rewrite bind_unfold in Hrun.
       unfold new_ImagePool in Hrun. rewrite bind_unfold in Hrun.
       simpl in Hrun. rewrite Hctor in Hrun. discriminate Hrun. }
  rewrite detect_probes_each in Hrun by (lia || assumption).
  injection Hrun as <- <-.
  assert (probe_ok env codec options = true
          ∧ EvSquooshEncode codec options TINY_PNG
            ∈ map (λ p, EvSquooshEncode p.1 p.2 TINY_PNG) probes) as [Hp Hev].
  { repeat (apply elem_of_cons in Hin as [Heq | Hin];
            [injection Heq as -> -> ->;
             split; [exact Hus | apply list_elem_of_In; simpl; tauto] |]).
    inversion Hin. }
  split.
  - unfold new_events, add_events. cbn [events]. rewrite drop_app_length.
    apply list_elem_of_In in Hev. apply list_elem_of_In.
    simpl in Hev |- *. tauto.
  - unfold probe_ok in Hp.
    destruct (squoosh_encode env codec options TINY_PNG) as [[[binary |] |] | msg];
      try discriminate Hp.
    exists binary. split; [reflexivity |].
    simpl in Hp. apply negb_true_iff, bool_decide_eq_false in Hp. exact Hp.
Qed.

(** The library loads but the pool does not start: the constructor's
    exception is the outcome of the whole detection. *)
Lemma detect_pool_ctor_throws env m :
  (node_major env < 20)%nat → import_ok env = true → pool_ctor_ok env 1 = false →
  detectSquooshSupport env m
  = (Throw "ImagePool failed to start",
     add_events m [EvImportSquoosh; EvNewImagePool 1]).
Proof.
  intros Hv Himp Hctor. unfold detectSquooshSupport.
  rewrite bool_decide_eq_false_2 by lia.
  rewrite bind_unfold. unfold attempt, import_squoosh.
  rewrite bind_unfold. simpl. rewrite Himp. simpl.
  rewrite bind_unfold. unfold new_ImagePool. rewrite bind_unfold. simpl.
  rewrite Hctor. unfold add_events. simpl.
  now rewrite <- app_assoc.
Qed.

(** C6, where the code departs from it.  On a Node before 20 where the
    library loads but [new ImagePool(1)] throws, the exception leaves
    [detectSquooshSupport] and no codec was probed: the constructor call
    stands outside every [try], unlike the one in [processImages]. *)
Theorem detect_throws_when_pool_does_not_start env m :
  (node_major env < 20)%nat → import_ok env = true → pool_ctor_ok env 1 = false →
  returns (detectSquooshSupport env m).1 = false
  ∧ new_events m (detectSquooshSupport env m).2
    = [EvImportSquoosh; EvNewImagePool 1].
Proof.
  intros Hv Himp Hctor.
  rewrite (detect_pool_ctor_throws env m Hv Himp Hctor).
  split; [reflexivity |].
  unfold new_events, add_events. cbn [snd events]. apply drop_app_length.
Qed.

Lemma detect_throws_when_pool_does_not_start_witness :
  returns (detectSquooshSupport Samples.sample_env_no_pool
             Samples.sample_machine).1 = false
  ∧ new_events Samples.sample_machine
      (detectSquooshSupport Samples.sample_env_no_pool Samples.sample_machine).2
    = [EvImportSquoosh; EvNewImagePool 1].
Proof.
  apply detect_throws_when_pool_does_not_start;
    [vm_compute; lia | reflexivity | reflexivity].
Defined.

(** No exception escapes exactly when the pool starts, or is never asked
    for. *)
Lemma detect_returns_iff env m :
  returns (detectSquooshSupport env m).1 = true
  ↔ ((20 ≤ node_major env)%nat ∨ import_ok env = false ∨ pool_ctor_ok env 1 = true).
Proof.
  destruct (decide (20 ≤ node_major env)%nat) as [Hv | Hv].
  { rewrite detect_recent_node by exact Hv. simpl. tauto. }
  destruct (import_ok env) eqn:Himp.
  2: { rewrite detect_import_fails by (lia || assumption). simpl. tauto. }
  destruct (pool_ctor_ok env 1) eqn:Hctor.
  - rewrite detect_probes_each by (lia || assumption). simpl. tauto.
  - rewrite detect_pool_ctor_throws by (lia || assumption).
    simpl. split; [discriminate |]. intros [? | [? | ?]]; [lia | discriminate..].
Qed.

End DetectSpec.

(** ** Saved configuration *)

Module CliSpec.
Import Js World Encoders Cli MachineFacts.

Section Loading.

Variable JSON_parse : Buffer → Result Json.

Definition read_event (m : Machine) (configPath : string) : Machine :=
  DetectSpec.add_events m [EvReadFile configPath].

Lemma fs_readFile_run p m :
  fs_readFile p m
  = (match files (disk m) !! p with
     | Some data => Ok data
     | None => Throw "ENOENT"
     end, read_event m p).
Proof.
  unfold fs_readFile. rewrite bind_unfold. unfold emit.
  rewrite bind_unfold. unfold get_disk. cbn [disk].
  destruct (files (disk m) !! p); reflexivity.
Qed.

(** A record that cannot be read is treated as absent. *)
Lemma loadSavedConfig_unreadable configPath m :
  files (disk m) !! configPath = None →
  loadSavedConfig JSON_parse configPath m = (Ok JNull, read_event m configPath).
Proof.
  intros Hnone. unfold loadSavedConfig, try_catch.
  rewrite bind_unfold, fs_readFile_run, Hnone. reflexivity.
Qed.

(** So is a record that is not JSON. *)
Lemma loadSavedConfig_malformed configPath m raw msg :
  files (disk m) !! configPath = Some raw →
  JSON_parse raw = Throw msg →
  loadSavedConfig JSON_parse configPath m = (Ok JNull, read_event m configPath).
Proof.
  intros Hraw Hparse. unfold loadSavedConfig, try_catch.
  rewrite bind_unfold, fs_readFile_run, Hraw, Hparse. reflexivity.
Qed.

(** Any text that parses is returned as parsed, whatever its shape. *)
Lemma loadSavedConfig_parsed configPath m raw value :
  files (disk m) !! configPath = Some raw →
  JSON_parse raw = Ok value →
  loadSavedConfig JSON_parse configPath m = (Ok value, read_event m configPath).
Proof.
  intros Hraw Hparse. unfold loadSavedConfig, try_catch.
  rewrite bind_unfold, fs_readFile_run, Hraw, Hparse. reflexivity.
Qed.

(** An absent configuration leaves the selection empty and the quality
    unset, so that [main] goes on to prompt. *)
Lemma reuseSaved_absent yes menuOptions :
  reuseSaved yes JNull menuOptions = Ok ([], None).
Proof. now destruct yes. Qed.

(** Does the record hold an array under [selectedIds]? *)
Definition selectedIds_is_array (value : Json) : bool :=
  match property value "selectedIds" with
  | Some (JArr _) => true
  | _ => false
  end.

Lemma filter_selectedIds_throws value menuOptions :
  selectedIds_is_array value = false →
  ∃ msg, filter_selectedIds value menuOptions = Throw msg.
Proof.
  unfold selectedIds_is_array, filter_selectedIds.
  destruct (property value "selectedIds") as [[] |]; intros H;
    try discriminate H; eexists; reflexivity.
Qed.

(** With a well-shaped record nothing throws. *)
Lemma reuseSaved_well_shaped yes value menuOptions :
  selectedIds_is_array value = true →
  ∃ selection, reuseSaved yes value menuOptions
               = Ok (selection, if yes && truthy value
                                then property value "quality" else None).
Proof.
  unfold selectedIds_is_array, reuseSaved, filter_selectedIds.
  intros Harr. destruct yes; [| now exists []].
  destruct (truthy value); [| now exists []].
  destruct (property value "selectedIds") as [[] |]; try discriminate Harr.
  eexists. reflexivity.
Qed.

(** C9, where the code departs from it.  A saved record that parses as
    JSON but does not hold an array under [selectedIds] (the text [{}],
    say) is not treated as absent: [loadSavedConfig] returns it as parsed,
    and under [--yes] reading its [selectedIds.filter] throws, which ends
    the run. *)
Theorem schema_mismatch_is_loaded_and_throws configPath menuOptions m raw value :
  files (disk m) !! configPath = Some raw →
  JSON_parse raw = Ok value →
  truthy value = true →
  selectedIds_is_array value = false →
  (loadSavedConfig JSON_parse configPath m).1 = Ok value
  ∧ value ≠ JNull
  ∧ ∃ msg, (loadAndReuse JSON_parse true configPath menuOptions m).1 = Throw msg.
Proof.
  intros Hraw Hparse Htruthy Hshape.
  pose proof (loadSavedConfig_parsed configPath m raw value Hraw Hparse) as Hload.
  split; [now rewrite Hload |]. split.
  - intros ->. discriminate Htruthy.
  - destruct (filter_selectedIds_throws value menuOptions Hshape) as [msg Hmsg].
    exists msg. unfold loadAndReuse. rewrite bind_unfold, Hload.
    unfold reuseSaved. rewrite Htruthy, Hmsg. reflexivity.
Qed.

End Loading.

Lemma schema_mismatch_is_loaded_and_throws_witness :
  (loadSavedConfig Samples.parse_empty_object Samples.sample_config_path
     Samples.sample_machine_saved).1 = Ok (JObj [])
  ∧ JObj [] ≠ JNull
  ∧ ∃ msg, (loadAndReuse Samples.parse_empty_object true
              Samples.sample_config_path (getMenuOptions Samples.full_support)
              Samples.sample_machine_saved).1 = Throw msg.
Proof.
  apply (schema_mismatch_is_loaded_and_throws Samples.parse_empty_object
           Samples.sample_config_path (getMenuOptions Samples.full_support)
           Samples.sample_machine_saved [Byte.x7b; Byte.x7d] (JObj []));
    reflexivity.
Defined.

(** The run on the text [{}], spelled out. *)
Example empty_object_config_ends_the_run :
  (loadAndReuse Samples.parse_empty_object true Samples.sample_config_path
     (getMenuOptions Samples.full_support) Samples.sample_machine_saved).1
  = Throw "Cannot read properties of undefined (reading 'filter')".
Proof. vm_compute. reflexivity. Qed.

End CliSpec.

(** ** Paths *)

Module PathSpec.
Import PathChars.

(** Text without a separator: one segment. *)
Definition no_sep (s : list ascii) : Prop := sep ∉ s.

Lemma chars_str l : Path.chars (Path.str l) = l.
Proof. apply String.list_ascii_of_string_of_list_ascii. Qed.

Lemma str_chars s : Path.str (Path.chars s) = s.
Proof. apply String.string_of_list_ascii_of_string. Qed.

Lemma chars_app a b : Path.chars (a +:+ b) = Path.chars a ++ Path.chars b.
Proof.
  induction a as [| c a IH]; [reflexivity |].
  change (Path.chars (String c a +:+ b)) with (c :: Path.chars (a +:+ b)).
  now rewrite IH.
Qed.

Lemma chars_inj a b : Path.chars a = Path.chars b → a = b.
Proof. intros H. rewrite <- (str_chars a), <- (str_chars b). now rewrite H. Qed.

Lemma no_sep_nil : no_sep [].
Proof. unfold no_sep. apply not_elem_of_nil. Qed.

Lemma no_sep_cons c s : no_sep (c :: s) ↔ c ≠ sep ∧ no_sep s.
Proof. unfold no_sep. rewrite not_elem_of_cons. intuition congruence. Qed.

Lemma no_sep_app a b : no_sep (a ++ b) ↔ no_sep a ∧ no_sep b.
Proof. unfold no_sep. rewrite elem_of_app. tauto. Qed.

Lemma no_sep_take k s : no_sep s → no_sep (take k s).
Proof.
  unfold no_sep. intros Hs Hin. apply Hs.
  apply (subseteq_take k s). exact Hin.
Qed.

(** *** [dirname] *)

Lemma has_name_no_sep_cons c s : c ≠ sep → has_name (c :: s) = true.
Proof. intros Hc. simpl. now rewrite bool_decide_eq_false_2. Qed.



Lemma dir_end_no_sep s : no_sep s → dir_end s = None.
Proof.
  induction s as [| c s IH]; [reflexivity |].
  rewrite no_sep_cons. intros [Hc Hs]. cbn [dir_end].
  rewrite (IH Hs). now rewrite bool_decide_eq_false_2.
Qed.








(** *** Segments *)

Lemma segments_nonempty p : segments p ≠ [].
Proof.
  destruct p as [| c r]; [discriminate |]. cbn [segments].
  destruct (decide (c = sep)); [discriminate |].
  destruct (segments r); discriminate.
Qed.

Lemma segments_no_sep p : Forall no_sep (segments p).
Proof.
  induction p as [| c r IH]; [repeat constructor; apply no_sep_nil |].
  cbn [segments]. destruct (decide (c = sep)) as [Hc | Hc].
  - constructor; [apply no_sep_nil | exact IH].
  - destruct (segments r) as [| s ss].
    + repeat constructor. apply no_sep_cons. split; [exact Hc | apply no_sep_nil].
    + apply Forall_cons in IH as [Hs Hss]. constructor; [| exact Hss].
      apply no_sep_cons. now split.
Qed.

Lemma segments_of_name s : no_sep s → segments s = [s].
Proof.
  induction s as [| c s IH]; [reflexivity |].
  rewrite no_sep_cons. intros [Hc Hs]. cbn [segments].
  rewrite decide_False by exact Hc. now rewrite (IH Hs).
Qed.

Lemma segments_app_sep a b : segments (a ++ sep :: b) = segments a ++ segments b.
Proof.
  induction a as [| c a IH].
  - cbn [app segments]. now rewrite decide_True.
  - cbn [app segments]. rewrite IH.
    destruct (decide (c = sep)); [reflexivity |].
    pose proof (segments_nonempty a) as Hne.
    destruct (segments a) as [| s ss]; [now destruct Hne | reflexivity].
Qed.

Lemma unsegments_cons s rest :
  rest ≠ [] → unsegments (s :: rest) = s ++ sep :: unsegments rest.
Proof. intros Hne. destruct rest; [now destruct Hne | reflexivity]. Qed.

Lemma unsegments_app a b :
  a ≠ [] → b ≠ [] → unsegments (a ++ b) = unsegments a ++ sep :: unsegments b.
Proof.
  intros Ha Hb. induction a as [| s a IH]; [now destruct Ha |].
  destruct a as [| s' a].
  - cbn [app]. now rewrite unsegments_cons.
  - change ((s :: s' :: a) ++ b) with (s :: (s' :: a) ++ b).
    rewrite unsegments_cons by discriminate.
    rewrite IH by discriminate.
    rewrite (unsegments_cons s (s' :: a)) by discriminate.
    now rewrite <- app_assoc.
Qed.

(** Joining undoes splitting. *)
Lemma unsegments_segments_id p : unsegments (segments p) = p.
Proof.
  induction p as [| c r IH]; [reflexivity |].
  cbn [segments]. pose proof (segments_nonempty r) as Hne.
  destruct (decide (c = sep)) as [-> | Hc].
  - rewrite unsegments_cons by exact Hne. now rewrite IH.
  - destruct (segments r) as [| s ss]; [now destruct Hne |].
    destruct ss as [| s' ss].
    + cbn [unsegments] in *. now rewrite IH.
    + rewrite unsegments_cons in IH by discriminate.
      rewrite unsegments_cons by discriminate. cbn [app]. now rewrite IH.
Qed.

(** Splitting undoes joining, for segments that hold no separator. *)
Lemma segments_unsegments segs :
  segs ≠ [] → Forall no_sep segs → segments (unsegments segs) = segs.
Proof.
  induction segs as [| s rest IH]; [intros Hne; now destruct Hne |].
  intros _ [Hs Hrest]%Forall_cons. destruct rest as [| s' rest].
  - now apply segments_of_name.
  - rewrite unsegments_cons by discriminate.
    rewrite segments_app_sep, (segments_of_name s Hs).
    now rewrite IH.
Qed.

Lemma unsegments_inj a b :
  a ≠ [] → b ≠ [] → Forall no_sep a → Forall no_sep b →
  unsegments a = unsegments b → a = b.
Proof.
  intros Ha Hb Hsa Hsb Heq.
  rewrite <- (segments_unsegments a Ha Hsa), <- (segments_unsegments b Hb Hsb).
  now rewrite Heq.
Qed.

(** *** Normalizing *)

(** A segment that normalizing keeps as it is. *)
Definition clean (seg : list ascii) : Prop :=
  seg ≠ [] ∧ seg ≠ [dot] ∧ seg ≠ dotdot ∧ no_sep seg.

Lemma clean_no_sep seg : clean seg → no_sep seg.
Proof. now intros (_ & _ & _ & H). Qed.

Lemma Forall_clean_no_sep segs : Forall clean segs → Forall no_sep segs.
Proof.
  intros H. eapply Forall_impl; [exact H | apply clean_no_sep].
Qed.

Lemma normalize_step_clean allow res seg :
  clean seg → normalize_step allow res seg = seg :: res.
Proof.
  intros (H1 & H2 & H3 & _). unfold normalize_step.
  now rewrite !decide_False.
Qed.

Lemma fold_normalize_clean allow segs : Forall clean segs → ∀ res,
  fold_left (normalize_step allow) segs res = rev segs ++ res.
Proof.
  induction 1 as [| seg segs Hseg _ IH]; intros res; [reflexivity |].
  cbn [fold_left rev]. rewrite (normalize_step_clean allow res seg Hseg), IH.
  now rewrite <- app_assoc.
Qed.

Lemma normalize_segments_app allow before after :
  normalize_segments allow (before ++ after)
  = rev (fold_left (normalize_step allow) after
           (rev (normalize_segments allow before))).
Proof.
  unfold normalize_segments. now rewrite fold_left_app, rev_involutive.
Qed.

(** Clean segments after a path are kept, whatever came before. *)
Lemma normalize_segments_app_clean allow before after :
  Forall clean after →
  normalize_segments allow (before ++ after)
  = normalize_segments allow before ++ after.
Proof.
  intros Hclean. rewrite normalize_segments_app.
  rewrite (fold_normalize_clean allow after Hclean).
  now rewrite rev_app_distr, !rev_involutive.
Qed.

(** A "." between them changes nothing. *)
Lemma normalize_segments_app_dot allow before after :
  normalize_segments allow (before ++ [dot] :: after)
  = normalize_segments allow (before ++ after).
Proof.
  unfold normalize_segments. rewrite !fold_left_app. reflexivity.
Qed.

Lemma normalize_step_no_sep allow res seg :
  Forall no_sep res → no_sep seg → Forall no_sep (normalize_step allow res seg).
Proof.
  intros Hres Hseg. unfold normalize_step.
  repeat case_decide; try assumption.
  - destruct res as [| top below].
    + destruct allow; repeat constructor; subst; assumption.
    + case_decide.
      * destruct allow; [constructor; subst; assumption | assumption].
      * now apply Forall_cons in Hres as [_ ?].
  - now constructor.
Qed.

Lemma fold_normalize_no_sep allow segs :
  Forall no_sep segs → ∀ res, Forall no_sep res →
  Forall no_sep (fold_left (normalize_step allow) segs res).
Proof.
  induction 1 as [| seg segs Hseg _ IH]; intros res Hres; [exact Hres |].
  cbn [fold_left]. apply IH. now apply normalize_step_no_sep.
Qed.

Lemma normalize_segments_no_sep allow segs :
  Forall no_sep segs → Forall no_sep (normalize_segments allow segs).
Proof.
  intros Hsegs. unfold normalize_segments.
  apply Forall_rev, fold_normalize_no_sep; [exact Hsegs | constructor].
Qed.

Lemma normalize_step_keeps_clean res seg :
  Forall clean res → no_sep seg → Forall clean (normalize_step false res seg).
Proof.
  intros Hres Hseg. unfold normalize_step.
  repeat case_decide; try assumption.
  - destruct res as [| top below]; [constructor |].
    case_decide; [assumption |]. now apply Forall_cons in Hres as [_ ?].
  - constructor; [| assumption]. now repeat split.
Qed.

Lemma fold_normalize_keeps_clean segs :
  Forall no_sep segs → ∀ res, Forall clean res →
  Forall clean (fold_left (normalize_step false) segs res).
Proof.
  induction 1 as [| seg segs Hseg _ IH]; intros res Hres; [exact Hres |].
  cbn [fold_left]. apply IH. now apply normalize_step_keeps_clean.
Qed.

(** Below the root, normalizing leaves clean segments only. *)
Lemma normalize_segments_clean segs :
  Forall no_sep segs → Forall clean (normalize_segments false segs).
Proof.
  intros Hsegs. unfold normalize_segments.
  apply Forall_rev, fold_normalize_keeps_clean; [exact Hsegs | constructor].
Qed.

(** *** [resolve] and [relative] *)

Lemma unsegments_clean_head segs :
  Forall clean segs → segs ≠ [] →
  ∃ c r, unsegments segs = c :: r ∧ c ≠ sep.
Proof.
  intros Hclean Hne. destruct segs as [| s rest]; [now destruct Hne |].
  apply Forall_cons in Hclean as [(Hs & _ & _ & Hsep) _].
  destruct s as [| c s]; [now destruct Hs |].
  apply no_sep_cons in Hsep as [Hc _].
  destruct rest; cbn [unsegments app]; eauto.
Qed.

(** With an absolute working directory, resolving gives "/" followed by
    clean segments. *)
Lemma resolve_shape cwd p :
  isAbsolute cwd = true →
  ∃ segs, Forall clean segs ∧ resolve cwd p = sep :: unsegments segs.
Proof.
  intros Hcwd. unfold resolve.
  destruct (isAbsolute p) eqn:Hp.
  - eexists. split; [| reflexivity].
    apply normalize_segments_clean, segments_no_sep.
  - destruct cwd as [| c cwd]; [discriminate Hcwd |].
    rewrite Hcwd. eexists. split; [| reflexivity].
    apply normalize_segments_clean, segments_no_sep.
Qed.

Lemma resolved_segments_shape segs :
  Forall clean segs → resolved_segments (sep :: unsegments segs) = segs.
Proof.
  intros Hclean. unfold resolved_segments. cbn [drop]. rewrite drop_0.
  destruct segs as [| s rest]; [reflexivity |].
  destruct (unsegments_clean_head (s :: rest) Hclean) as (c & r & Heq & _);
    [discriminate |].
  rewrite Heq, <- Heq.
  apply segments_unsegments; [discriminate | now apply Forall_clean_no_sep].
Qed.

Lemma strip_common_suffix from to :
  ∃ common, to = common ++ (strip_common from to).2.
Proof.
  revert to. induction from as [| f from IH]; intros to; [now exists [] |].
  destruct to as [| t to]; [now exists [] |].
  cbn [strip_common]. destruct (decide (f = t)) as [-> | Hne]; [| now exists []].
  destruct (IH to) as [common Hcommon].
  exists (t :: common). cbn [app]. now rewrite <- Hcommon.
Qed.

(** A relative path is some ".." followed by clean segments. *)
Lemma relative_shape cwd from to :
  isAbsolute cwd = true →
  ∃ (up : nat) down,
    Forall clean down
    ∧ relative cwd from to = unsegments (replicate up dotdot ++ down).
Proof.
  intros Hcwd. unfold relative.
  destruct (decide (from = to)); [now exists 0%nat, [] |].
  destruct (decide (resolve cwd from = resolve cwd to)); [now exists 0%nat, [] |].
  destruct (resolve_shape cwd from Hcwd) as (F & HF & ->).
  destruct (resolve_shape cwd to Hcwd) as (T & HT & ->).
  rewrite !resolved_segments_shape by assumption.
  destruct (strip_common_suffix F T) as [common Hcommon].
  destruct (strip_common F T) as [up down] eqn:Hstrip. cbn [snd] in Hcommon.
  exists (length up), down. split.
  - rewrite Hcommon in HT. now apply Forall_app in HT as [_ ?].
  - f_equal. f_equal. clear. induction up as [| u up IH]; [reflexivity |].
    cbn [map length replicate]. now rewrite IH.
Qed.

(** Not starting with "..": the path does not leave the directory it is
    relative to. *)
Definition stays_inside (rel : list ascii) : Prop :=
  ∀ rest, rel ≠ dot :: dot :: rest.

Lemma relative_inside cwd from to :
  isAbsolute cwd = true →
  stays_inside (relative cwd from to) →
  ∃ down, Forall clean down ∧ relative cwd from to = unsegments down.
Proof.
  intros Hcwd Hin.
  destruct (relative_shape cwd from to Hcwd) as (up & down & Hdown & Heq).
  destruct up as [| up]; [now exists down |].
  exfalso. rewrite Heq in Hin. cbn [replicate app] in Hin.
  destruct (replicate up dotdot ++ down) as [| s rest] eqn:Hrest.
  - now apply (Hin []).
  - rewrite unsegments_cons in Hin by discriminate.
    now apply (Hin (sep :: unsegments (s :: rest))).
Qed.

(** *** [dirname] of joined segments *)

Lemma dir_end_last_sep r s :
  no_sep s → s ≠ [] → dir_end (r ++ sep :: s) = Some (length r).
Proof.
  intros Hs Hne. induction r as [| c r IH].
  - cbn [app dir_end length]. rewrite (dir_end_no_sep s Hs).
    rewrite bool_decide_eq_true_2 by reflexivity.
    destruct s as [| x s]; [now destruct Hne |].
    apply no_sep_cons in Hs as [Hx _].
    now rewrite (has_name_no_sep_cons x s Hx).
  - cbn [app dir_end length]. now rewrite IH.
Qed.

Lemma dirname_of_name s : no_sep s → dirname s = [dot].
Proof.
  intros Hs. destruct s as [| c r]; [reflexivity |].
  apply no_sep_cons in Hs as [Hc Hr]. cbn [dirname].
  rewrite (dir_end_no_sep r Hr). now rewrite bool_decide_eq_false_2.
Qed.

Lemma dirname_append_segment c r s :
  c ≠ sep → no_sep s → s ≠ [] →
  dirname ((c :: r) ++ sep :: s) = c :: r.
Proof.
  intros Hc Hs Hne. cbn [app dirname].
  rewrite (dir_end_last_sep r s Hs Hne).
  rewrite (bool_decide_eq_false_2 (c = sep)) by exact Hc. cbn [andb].
  change (c :: r ++ sep :: s) with ((c :: r) ++ sep :: s).
  now rewrite take_app_length'.
Qed.

(** The directory part of clean segments: all but the last, or "." when
    there is at most one. *)
Definition parent_segments (segs : list (list ascii)) : list (list ascii) :=
  removelast segs.

Lemma dirname_unsegments segs :
  Forall clean segs →
  dirname (unsegments segs)
  = match parent_segments segs with
    | [] => [dot]
    | parent => unsegments parent
    end.
Proof.
  intros Hclean. unfold parent_segments.
  destruct (decide (segs = [])) as [-> | Hne]; [reflexivity |].
  destruct (exists_last Hne) as (init & s & ->).
  rewrite removelast_last.
  apply Forall_app in Hclean as [Hinit Hs].
  apply Forall_cons in Hs as [(Hs1 & _ & _ & Hs4) _].
  destruct init as [| i init].
  - cbn [app unsegments]. now apply dirname_of_name.
  - rewrite unsegments_app by discriminate. change (unsegments [s]) with s.
    destruct (unsegments_clean_head (i :: init) Hinit) as (c & r & Heq & Hc);
      [discriminate |].
    rewrite Heq. rewrite dirname_append_segment by assumption.
    now rewrite <- Heq.
Qed.

Lemma parent_segments_clean segs :
  Forall clean segs → Forall clean (parent_segments segs).
Proof.
  intros Hclean. unfold parent_segments.
  destruct (decide (segs = [])) as [-> | Hne]; [constructor |].
  destruct (exists_last Hne) as (init & s & ->).
  rewrite removelast_last. now apply Forall_app in Hclean as [? _].
Qed.

(** *** [join] *)

Lemma endsWithSep_app_name a s :
  no_sep s → s ≠ [] → endsWithSep (a ++ s) = false.
Proof.
  intros Hs Hne. unfold endsWithSep.
  destruct (exists_last Hne) as (s' & x & ->).
  rewrite app_assoc, last_snoc.
  apply no_sep_app in Hs as [_ Hx]. apply no_sep_cons in Hx as [Hx _].
  now apply bool_decide_eq_false_2.
Qed.

Lemma unsegments_snoc segs s :
  unsegments (segs ++ [s])
  = match segs with [] => s | _ => unsegments segs ++ sep :: s end.
Proof.
  destruct segs as [| x segs]; [reflexivity |].
  now rewrite unsegments_app by discriminate.
Qed.

Lemma unsegments_snoc_name segs s :
  no_sep s → s ≠ [] →
  unsegments (segs ++ [s]) ≠ [] ∧ endsWithSep (unsegments (segs ++ [s])) = false.
Proof.
  intros Hs Hne. rewrite unsegments_snoc. destruct segs as [| x segs].
  - split; [exact Hne | now apply (endsWithSep_app_name [])].
  - split; [now destruct (unsegments (x :: segs)) |].
    change (sep :: s) with ([sep] ++ s). rewrite app_assoc.
    now apply endsWithSep_app_name.
Qed.

(** [normalize] on a path that does not end in a separator and does not
    normalize to nothing. *)
Lemma normalize_shape path :
  path ≠ [] → endsWithSep path = false →
  normalizeString path (negb (isAbsolute path)) ≠ [] →
  normalize path
  = (if isAbsolute path then [sep] else [])
    ++ normalizeString path (negb (isAbsolute path)).
Proof.
  intros Hne Hend Hnorm. unfold normalize.
  destruct path as [| c path]; [now destruct Hne |].
  rewrite Hend.
  destruct (normalizeString (c :: path) (negb (isAbsolute (c :: path))))
    as [| x rest]; [now destruct Hnorm |].
  now destruct (isAbsolute (c :: path)).
Qed.

(** The segments an output root contributes to a join: none when it is
    empty, since [join] skips empty arguments. *)
Definition root_segments (root : list ascii) : list (list ascii) :=
  match root with
  | [] => []
  | _ :: _ => segments root
  end.

(** The text of a directory given by clean segments, "." when there is
    none. *)
Definition dir_text (parent : list (list ascii)) : list ascii :=
  match parent with
  | [] => [dot]
  | _ :: _ => unsegments parent
  end.

Lemma dir_text_head parent :
  Forall clean parent → ∃ c r, dir_text parent = c :: r ∧ c ≠ sep.
Proof.
  intros Hclean. destruct parent as [| s rest].
  - exists dot, []. split; [reflexivity | discriminate].
  - apply unsegments_clean_head; [exact Hclean | discriminate].
Qed.

Lemma normalize_segments_dir_text allow before parent after :
  Forall clean parent → Forall clean after →
  normalize_segments allow (before ++ segments (dir_text parent) ++ after)
  = normalize_segments allow before ++ parent ++ after.
Proof.
  intros Hparent Hafter. destruct parent as [| s rest].
  - cbn [dir_text app]. rewrite (segments_of_name [dot]).
    + cbn [app]. rewrite normalize_segments_app_dot.
      now apply normalize_segments_app_clean.
    + apply no_sep_cons. split; [discriminate | apply no_sep_nil].
  - cbn [dir_text].
    rewrite segments_unsegments
      by (discriminate || now apply Forall_clean_no_sep).
    apply normalize_segments_app_clean. now apply Forall_app.
Qed.

Lemma normalize_joined root parent name joined :
  Forall clean parent → clean name →
  joined = unsegments (root_segments root ++ segments (dir_text parent) ++ [name]) →
  isAbsolute joined = isAbsolute root →
  segments joined = root_segments root ++ segments (dir_text parent) ++ [name] →
  normalize joined
  = (if isAbsolute root then [sep] else [])
    ++ unsegments
         (normalize_segments (negb (isAbsolute root)) (root_segments root)
          ++ parent ++ [name]).
Proof.
  intros Hparent Hname Hjoined Habs Hsegs.
  pose proof Hname as (Hname1 & _ & _ & Hname4).
  assert (joined ≠ [] ∧ endsWithSep joined = false) as [Hne Hend].
  { rewrite Hjoined, app_assoc. now apply unsegments_snoc_name. }
  assert (normalizeString joined (negb (isAbsolute joined))
          = unsegments
              (normalize_segments (negb (isAbsolute root)) (root_segments root)
               ++ parent ++ [name])) as Hnorm.
  { unfold normalizeString. rewrite Hsegs, Habs.
    rewrite normalize_segments_dir_text; [reflexivity | exact Hparent |].
    constructor; [exact Hname | constructor]. }
  rewrite normalize_shape; [now rewrite Hnorm, Habs | exact Hne | exact Hend |].
  rewrite Hnorm, !app_assoc. now apply unsegments_snoc_name.
Qed.

(** Joining an output root, a clean directory and a clean file name. *)
Lemma join_shape root parent name :
  Forall clean parent → clean name →
  join [root; dir_text parent; name]
  = (if isAbsolute root then [sep] else [])
    ++ unsegments
         (normalize_segments (negb (isAbsolute root)) (root_segments root)
          ++ parent ++ [name]).
Proof.
  intros Hparent Hname.
  pose proof Hname as (Hname1 & _ & _ & Hname4).
  destruct (dir_text_head parent Hparent) as (c & r & Hdir & Hc).
  assert (segments (dir_text parent ++ sep :: name)
          = segments (dir_text parent) ++ [name]) as Hdn.
  { now rewrite segments_app_sep, (segments_of_name name). }
  unfold join. rewrite !filter_cons, filter_nil.
  rewrite (decide_True (P := name ≠ [])) by exact Hname1.
  rewrite (decide_True (P := dir_text parent ≠ [])) by (rewrite Hdir; discriminate).
  destruct root as [| x root].
  - rewrite decide_False by (intros H; now apply H).
    apply normalize_joined; try assumption.
    + cbn [root_segments app]. rewrite unsegments_cons by discriminate.
      change (unsegments [name]) with name.
      rewrite <- Hdn. symmetry. apply unsegments_segments_id.
    + rewrite unsegments_cons by discriminate.
      rewrite Hdir. cbn [app isAbsolute]. now apply bool_decide_eq_false_2.
  - rewrite decide_True by discriminate.
    assert (segments ((x :: root) ++ sep :: dir_text parent ++ sep :: name)
            = segments (x :: root) ++ segments (dir_text parent) ++ [name]) as Hall.
    { now rewrite segments_app_sep, Hdn. }
    apply normalize_joined; try assumption.
    + cbn [root_segments]. rewrite !unsegments_cons by discriminate.
      change (unsegments [name]) with name.
      rewrite <- Hall. symmetry. apply unsegments_segments_id.
    + reflexivity.
Qed.

End PathSpec.

(** ** Atomic writer *)

Module FsSpec.
Import Js World Fs MachineFacts.

(** The machine after a step: a new disk, more observed states, more
    events, later ticks. *)
Definition advance (m : Machine) (d : Disk) (obs : list Disk) (evs : list Event)
    (k : nat) : Machine :=
  {| disk := d; observed := observed m ++ obs;
     events := events m ++ evs; ticks := k + ticks m |}.

Lemma advance_advance m d1 o1 e1 k1 d2 o2 e2 k2 :
  advance (advance m d1 o1 e1 k1) d2 o2 e2 k2
  = advance m d2 (o1 ++ o2) (e1 ++ e2) (k2 + k1).
Proof.
  unfold advance. cbn [disk observed events ticks].
  now rewrite <- !app_assoc, Nat.add_assoc.
Qed.

Lemma disk_advance m d obs evs k : disk (advance m d obs evs k) = d.
Proof. reflexivity. Qed.

Lemma advance_id m : advance m (disk m) [] [] 0 = m.
Proof. destruct m. unfold advance. simpl. now rewrite !app_nil_r. Qed.

(** The disks a run let others observe. *)
Definition new_observed (before after : Machine) : list Disk :=
  drop (length (observed before)) (observed after).

Lemma new_observed_advance m d obs evs k :
  new_observed m (advance m d obs evs k) = obs.
Proof. unfold new_observed, advance. simpl. apply drop_app_length. Qed.

Lemma new_events_advance m d obs evs k :
  new_events m (advance m d obs evs k) = evs.
Proof. unfold new_events, advance. simpl. apply drop_app_length. Qed.

Lemma emit_run e m : emit e m = (Ok tt, advance m (disk m) [] [e] 0).
Proof. unfold emit, advance. simpl. now rewrite app_nil_r. Qed.

Lemma set_disk_run d m : set_disk d m = (Ok tt, advance m d [d] [] 0).
Proof. unfold set_disk, advance. simpl. now rewrite app_nil_r. Qed.

Lemma last_cons_default {A} (l : list A) : ∀ a x,
  List.last (a :: l) x = List.last l a.
Proof.
  induction l as [| b l IH]; intros a x; [reflexivity |].
  change (List.last (a :: b :: l) x) with (List.last (b :: l) x).
  rewrite IH. symmetry. apply IH.
Qed.

Lemma set_disks_run ds : ∀ m,
  set_disks ds m = (Ok tt, advance m (List.last ds (disk m)) ds [] 0).
Proof.
  induction ds as [| d ds IH]; intros m.
  - simpl. now rewrite advance_id.
  - cbn [set_disks]. rewrite bind_unfold, set_disk_run, IH, advance_advance.
    cbn [app Nat.add]. f_equal. f_equal.
    symmetry. apply last_cons_default.
Qed.

Lemma write_stages_last p data d :
  List.last (write_stages p data d) d = put_file p data d.
Proof.
  unfold write_stages. rewrite seq_S, map_app. cbn [map].
  rewrite last_last. cbn [Nat.add]. now rewrite firstn_all.
Qed.

(** The file being written never holds anything but a prefix of [data];
    the other paths keep their content. *)
Lemma write_stages_elsewhere p data d q d' :
  q ≠ p → d' ∈ write_stages p data d → files d' !! q = files d !! q.
Proof.
  intros Hne. unfold write_stages. intros Hin.
  apply list_elem_of_fmap in Hin as (k & -> & _).
  unfold put_file. cbn [files]. now apply lookup_insert_ne.
Qed.

Lemma mkdir_run dir m :
  fs_mkdir_recursive dir m
  = match files (disk m) !! dir with
    | Some _ => (Throw "EEXIST", advance m (disk m) [] [EvMkdir dir] 0)
    | None =>
        let d := {| files := files (disk m); dirs := {[dir]} ∪ dirs (disk m) |} in
        (Ok tt, advance m d [d] [EvMkdir dir] 0)
    end.
Proof.
  unfold fs_mkdir_recursive. rewrite bind_unfold, emit_run, bind_unfold.
  unfold get_disk. cbn [disk advance].
  destruct (files (disk m) !! dir); [reflexivity |].
  fold (advance m (disk m) [] [EvMkdir dir] 0).
  rewrite set_disk_run, advance_advance. reflexivity.
Qed.

Lemma write_bytes_run p data m :
  write_bytes p data m
  = if bool_decide (p ∈ dirs (disk m)) then (Throw "EISDIR", m)
    else if bool_decide (Path.dirname p ∈ dirs (disk m))
    then (Ok tt, advance m (put_file p data (disk m))
                   (write_stages p data (disk m)) [] 0)
    else (Throw "ENOENT", m).
Proof.
  unfold write_bytes. rewrite bind_unfold. unfold get_disk.
  repeat case_bool_decide; try reflexivity.
  now rewrite set_disks_run, write_stages_last.
Qed.

Lemma getTempPath_run env target m :
  getTempPath env target m
  = (Ok (target +:+ ".tmp-" +:+ decimal (pid env) +:+ "-"
         +:+ decimal (now env (ticks m)) +:+ "-"
         +:+ hex (random_digits env (ticks m))),
     advance m (disk m) [] [] 1).
Proof.
  unfold getTempPath. rewrite bind_unfold. unfold next_tick, advance.
  simpl. now rewrite !app_nil_r.
Qed.

Lemma fs_writeFile_run p data m :
  fs_writeFile p data m
  = let m1 := advance m (disk m) [] [EvWriteFile p data] 0 in
    if bool_decide (p ∈ dirs (disk m)) then (Throw "EISDIR", m1)
    else if bool_decide (Path.dirname p ∈ dirs (disk m))
    then (Ok tt, advance m (put_file p data (disk m))
                   (write_stages p data (disk m)) [EvWriteFile p data] 0)
    else (Throw "ENOENT", m1).
Proof.
  unfold fs_writeFile. rewrite bind_unfold, emit_run, write_bytes_run.
  cbn [disk advance]. fold (advance m (disk m) [] [EvWriteFile p data] 0).
  repeat case_bool_decide; try reflexivity.
  cbv zeta. now rewrite advance_advance.
Qed.

Lemma fs_copyFile_run src dst m :
  fs_copyFile src dst m
  = let m1 := advance m (disk m) [] [EvCopyFile src dst] 0 in
    match files (disk m) !! src with
    | None => (Throw "ENOENT", m1)
    | Some data =>
        if bool_decide (dst ∈ dirs (disk m)) then (Throw "EISDIR", m1)
        else if bool_decide (Path.dirname dst ∈ dirs (disk m))
        then (Ok tt, advance m (put_file dst data (disk m))
                       (write_stages dst data (disk m)) [EvCopyFile src dst] 0)
        else (Throw "ENOENT", m1)
    end.
Proof.
  unfold fs_copyFile. rewrite bind_unfold, emit_run, bind_unfold.
  unfold get_disk. cbn [disk advance].
  fold (advance m (disk m) [] [EvCopyFile src dst] 0).
  destruct (files (disk m) !! src) as [data |]; [| reflexivity].
  rewrite write_bytes_run. cbn [disk advance].
  fold (advance m (disk m) [] [EvCopyFile src dst] 0).
  repeat case_bool_decide; try reflexivity.
  cbv zeta. now rewrite advance_advance.
Qed.

Lemma fs_rename_run src dst m :
  fs_rename src dst m
  = let m1 := advance m (disk m) [] [EvRename src dst] 0 in
    match files (disk m) !! src with
    | None => (Throw "ENOENT", m1)
    | Some data =>
        if bool_decide (dst ∈ dirs (disk m)) then (Throw "EISDIR", m1)
        else if bool_decide (Path.dirname dst ∈ dirs (disk m))
        then let d := {| files := <[dst := data]> (delete src (files (disk m)));
                         dirs := dirs (disk m) |} in
             (Ok tt, advance m d [d] [EvRename src dst] 0)
        else (Throw "ENOENT", m1)
    end.
Proof.
  unfold fs_rename. rewrite bind_unfold, emit_run, bind_unfold.
  unfold get_disk. cbn [disk advance].
  fold (advance m (disk m) [] [EvRename src dst] 0).
  destruct (files (disk m) !! src) as [data |]; [| reflexivity].
  repeat case_bool_decide; try reflexivity.
  cbv zeta. now rewrite set_disk_run, advance_advance.
Qed.

(** *** Temporary names *)

Import PathSpec.

(** The stamp [`${process.pid}-${Date.now()}-${random}`] taken at tick [t]. *)
Definition stamp (env : Env) (t : nat) : string :=
  decimal (pid env) +:+ "-" +:+ decimal (now env t) +:+ "-"
  +:+ hex (random_digits env t).

Definition temp_path (env : Env) (target : string) (t : nat) : string :=
  target +:+ ".tmp-" +:+ stamp env t.







(** What follows the target in a temporary name: ".tmp-" and the stamp. *)
Definition temp_suffix (env : Env) (t : nat) : string := ".tmp-" +:+ stamp env t.

Lemma temp_path_suffix env target t :
  temp_path env target t = target +:+ temp_suffix env t.
Proof. reflexivity. Qed.


Lemma temp_suffix_nonempty env t : Path.chars (temp_suffix env t) ≠ [].
Proof. unfold temp_suffix. rewrite chars_app. discriminate. Qed.

Lemma temp_path_fresh env target t : temp_path env target t ≠ target.
Proof.
  rewrite temp_path_suffix. intros Heq.
  apply (f_equal Path.chars) in Heq. rewrite chars_app in Heq.
  apply (f_equal length) in Heq. rewrite length_app in Heq.
  pose proof (temp_suffix_nonempty env t) as Hne.
  destruct (Path.chars (temp_suffix env t)); [now destruct Hne | simpl in Heq; lia].
Qed.


(** *** The write-then-rename discipline *)

(** What it means for a run from [m] with outcome [out] to have put
    [content] at [target] atomically, [put] being its call that fills the
    temporary file [temp]:
    - its calls are, in order and without a gap, the creation of the
      target's directory, [put], and the rename of [temp] onto [target];
    - in every state of the disk it let others see, [target] either holds
      what it held before the run or holds the whole [content];
    - when it returns, all three calls were made, the directory exists,
      [target] holds [content] and [temp] is gone. *)
Definition written_atomically (target temp : string) (content : option Buffer)
    (put : Event) (m : Machine) (out : Result unit * Machine) : Prop :=
  let calls := [EvMkdir (Path.dirname target); put; EvRename temp target] in
  (∃ n, new_events m out.2 = take n calls)
  ∧ (∀ d, d ∈ new_observed m out.2 →
       files d !! target = files (disk m) !! target
       ∨ (is_Some content ∧ files d !! target = content))
  ∧ (out.1 = Ok tt →
       new_events m out.2 = calls
       ∧ Path.dirname target ∈ dirs (disk out.2)
       ∧ is_Some content
       ∧ files (disk out.2) !! target = content
       ∧ files (disk out.2) !! temp = None).

(** A call that fills the temporary file with [content], or throws before
    touching the disk. *)
Definition fills (content : option Buffer) (put : string → Event)
    (c : string → M unit) (m : Machine) : Prop :=
  ∀ temp m1, files (disk m1) = files (disk m) →
    (∃ e, c temp m1 = (Throw e, advance m1 (disk m1) [] [put temp] 0))
    ∨ (∃ data, content = Some data
         ∧ c temp m1 = (Ok tt, advance m1 (put_file temp data (disk m1))
                                 (write_stages temp data (disk m1)) [put temp] 0)).

Lemma atomic_sequence env target content put c m :
  fills content put c m →
  written_atomically target (temp_path env target (ticks m)) content
    (put (temp_path env target (ticks m))) m
    ((ensureDir (Path.dirname target) ≫= λ _,
      tempPath ← getTempPath env target;
      c tempPath ≫= λ _, fs_rename tempPath target) m).
Proof.
  intros Hfills. unfold written_atomically.
  set (temp := temp_path env target (ticks m)).
  assert (temp ≠ target) as Hfresh by apply temp_path_fresh.
  unfold ensureDir. rewrite bind_unfold, mkdir_run.
  destruct (files (disk m) !! Path.dirname target) as [existing |] eqn:Hdir.
  { (* the directory's name is taken by a file *)
    cbn [fst snd]. rewrite new_events_advance, new_observed_advance.
    split; [now exists 1%nat |]. split; [intros d Hd; inversion Hd |].
    discriminate. }
  cbv beta iota zeta.
  set (d1 := {| files := files (disk m);
                dirs := {[Path.dirname target]} ∪ dirs (disk m) |}).
  rewrite bind_unfold, getTempPath_run, advance_advance.
  cbn [app Nat.add disk advance ticks].
  fold (advance m d1 [d1] [EvMkdir (Path.dirname target)] 1).
  change (target +:+ ".tmp-" +:+ decimal (pid env) +:+ "-"
          +:+ decimal (now env (ticks m)) +:+ "-"
          +:+ hex (random_digits env (ticks m))) with temp.
  rewrite bind_unfold.
  destruct (Hfills temp (advance m d1 [d1] [EvMkdir (Path.dirname target)] 1)
              eq_refl) as [(e & ->) | (data & -> & ->)].
  { (* filling the temporary file fails *)
    rewrite advance_advance. cbn [fst snd app].
    rewrite new_events_advance, new_observed_advance.
    split; [now exists 2%nat |]. split; [| discriminate].
    intros d Hd. apply list_elem_of_singleton in Hd as ->. now left. }
  rewrite advance_advance. cbn [app Nat.add].
  rewrite fs_rename_run, !disk_advance. cbn [put_file files dirs].
  rewrite lookup_insert_eq. cbv zeta.
  assert (∀ d, d ∈ d1 :: write_stages temp data d1 →
               files d !! target = files (disk m) !! target) as Hstages.
  { intros d Hd. apply elem_of_cons in Hd as [-> | Hd]; [reflexivity |].
    now rewrite (write_stages_elsewhere temp data d1 target d). }
  repeat case_bool_decide; cbn [fst snd];
    rewrite !advance_advance; cbn [app Nat.add];
    rewrite new_events_advance, new_observed_advance, ?disk_advance.
  - (* the target's name is taken by a directory *)
    rewrite app_nil_r.
    split; [now exists 3%nat |]. split; [| discriminate].
    intros d Hd. left. now apply Hstages.
  - (* the rename goes through *)
    cbn [files dirs].
    split; [now exists 3%nat |]. split.
    + intros d Hd. rewrite app_comm_cons in Hd.
      apply elem_of_app in Hd as [Hd | Hd]; [left; now apply Hstages |].
      apply list_elem_of_singleton in Hd as ->. right. cbn [files].
      split; [now eexists | apply lookup_insert_eq].
    + intros _. split; [reflexivity |].
      split; [apply elem_of_union_l, elem_of_singleton; reflexivity |].
      split; [now eexists |].
      split; [apply lookup_insert_eq |].
      rewrite lookup_insert_ne by (intros Heq; now apply Hfresh).
      apply lookup_delete_eq.
  - (* the target's directory is missing after all *)
    rewrite app_nil_r.
    split; [now exists 3%nat |]. split; [| discriminate].
    intros d Hd. left. now apply Hstages.
Qed.

Lemma fs_writeFile_fills data m :
  fills (Some data) (λ temp, EvWriteFile temp data)
    (λ temp, fs_writeFile temp data) m.
Proof.
  intros temp m1 _. rewrite fs_writeFile_run. cbv zeta.
  repeat case_bool_decide; [left | right | left]; eauto.
Qed.

Lemma fs_copyFile_fills source m :
  fills (files (disk m) !! source) (EvCopyFile source) (fs_copyFile source) m.
Proof.
  intros temp m1 Hfiles. rewrite fs_copyFile_run, Hfiles. cbv zeta.
  destruct (files (disk m) !! source) as [data |]; [| left; eauto].
  repeat case_bool_decide; [left | right | left]; eauto.
Qed.

(** Is the event a call that writes into the file at [p] itself? *)
Definition writes_into (p : string) (ev : Event) : bool :=
  match ev with
  | EvWriteFile q _ => bool_decide (q = p)
  | EvCopyFile _ q => bool_decide (q = p)
  | EvSharpToFile _ q => bool_decide (q = p)
  | _ => false
  end.

Lemma written_atomically_never_direct target temp content put m out :
  written_atomically target temp content put m out →
  writes_into target put = false →
  Forall (λ ev, writes_into target ev = false) (new_events m out.2).
Proof.
  intros ([n Hn] & _) Hput. rewrite Hn. apply Forall_take.
  repeat constructor. exact Hput.
Qed.



(** A run on the sample disk: the states another process could see. *)
Example writeFileAtomic_sample :
  let out := writeFileAtomic Samples.sample_env "/out/a-squoosh.webp"
               [Byte.x0a; Byte.x0b] Samples.sample_machine in
  let temp := "/out/a-squoosh.webp.tmp-4242-1700000000000-a3f00" in
  (out.1, events out.2,
   map (λ d, (files d !! "/out/a-squoosh.webp", files d !! temp)) (observed out.2))
  = (Ok tt,
     [EvMkdir "/out"; EvWriteFile temp [Byte.x0a; Byte.x0b];
      EvRename temp "/out/a-squoosh.webp"],
     [(None, None); (None, Some []); (None, Some [Byte.x0a]);
      (None, Some [Byte.x0a; Byte.x0b]); (Some [Byte.x0a; Byte.x0b], None)]).
Proof. vm_compute. reflexivity. Qed.

(** A target written with a trailing separator is not a file name: the
    temporary name then falls inside it, and the write fails. *)
Example writeFileAtomic_directory_like_target :
  let out := writeFileAtomic Samples.sample_env "out/" [Byte.x0a]
               Samples.sample_machine in
  (out.1, events out.2)
  = (Throw "ENOENT",
     [EvMkdir "."; EvWriteFile "out/.tmp-4242-1700000000000-a3f00" [Byte.x0a]]).
Proof. vm_compute. reflexivity. Qed.

End FsSpec.

(** ** Output path resolver *)

Module OutputPathSpec.
Import World Fs PathSpec.

Lemma basename_no_sep p : no_sep (PathChars.basename p).
Proof.
  unfold PathChars.basename.
  destruct (last (filter (λ s, s ≠ []) (PathChars.segments p))) as [b |] eqn:Hlast;
    [| apply no_sep_nil].
  cbn [default]. apply last_Some_elem_of in Hlast.
  apply list_elem_of_filter in Hlast as [_ Hin].
  pose proof (segments_no_sep p) as Hall.
  rewrite Forall_forall in Hall. apply Hall. exact Hin.
Qed.

Lemma parse_name_no_sep p : no_sep (PathChars.parse_name p).
Proof.
  unfold PathChars.parse_name.
  destruct (PathChars.ext_start (PathChars.basename p));
    [apply no_sep_take |]; apply basename_no_sep.
Qed.

(** The marker between base name and extension. *)
Definition marker : list ascii := Path.chars "-squoosh.".

(** A generated file name is one clean segment. *)
Lemma fileName_clean name ext :
  no_sep name → no_sep ext → clean (name ++ marker ++ ext).
Proof.
  intros Hname Hext.
  assert ("-"%char ∈ name ++ marker ++ ext) as Hdash.
  { apply elem_of_app. right. apply elem_of_app. left.
    apply list_elem_of_In. simpl. tauto. }
  repeat split.
  - intros Heq. rewrite Heq in Hdash. inversion Hdash.
  - intros Heq. rewrite Heq in Hdash.
    apply list_elem_of_singleton in Hdash. discriminate Hdash.
  - intros Heq. rewrite Heq in Hdash.
    apply list_elem_of_In in Hdash. simpl in Hdash.
    destruct Hdash as [H | [H | []]]; discriminate H.
  - rewrite !no_sep_app. repeat split; try assumption.
    unfold no_sep. apply (bool_decide_unpack _). vm_compute. exact I.
Qed.

(** [buildOutputPath] in batch mode, on characters. *)
Lemma buildOutputPath_chars env inputFile inputRoot outputRoot outputExt :
  Path.chars (buildOutputPath env inputFile inputRoot outputRoot true outputExt)
  = PathChars.join
      [Path.chars outputRoot;
       PathChars.dirname
         (PathChars.relative (Path.chars (cwd env)) (Path.chars inputRoot)
            (Path.chars inputFile));
       PathChars.parse_name (Path.chars inputFile) ++ marker ++ Path.chars outputExt].
Proof.
  unfold buildOutputPath, Path.join, Path.dirname, Path.relative, Path.parse_name.
  cbn [negb map]. now rewrite !chars_str, !chars_app, !chars_str.
Qed.

(** The input file lies under the input root: its path relative to the
    root does not start with "..". *)
Definition inside_root (env : Env) (inputRoot inputFile : string) : Prop :=
  startsWith (Path.relative (cwd env) inputRoot inputFile) ".." = false.

Lemma inside_root_stays_inside env inputRoot inputFile :
  inside_root env inputRoot inputFile →
  stays_inside (PathChars.relative (Path.chars (cwd env)) (Path.chars inputRoot)
                  (Path.chars inputFile)).
Proof.
  unfold inside_root, Path.relative.
  generalize (PathChars.relative (Path.chars (cwd env)) (Path.chars inputRoot)
                (Path.chars inputFile)).
  intros rel Hstart rest ->. cbn in Hstart.
  rewrite !bool_decide_eq_true_2 in Hstart by reflexivity. discriminate Hstart.
Qed.

(** The directory, relative to the root, of an input under the root: clean
    segments, written out as [dir_text]. *)
Lemma relative_dir_shape env inputRoot inputFile :
  PathChars.isAbsolute (Path.chars (cwd env)) = true →
  inside_root env inputRoot inputFile →
  ∃ parent, Forall clean parent
    ∧ PathChars.dirname
        (PathChars.relative (Path.chars (cwd env)) (Path.chars inputRoot)
           (Path.chars inputFile))
      = dir_text parent.
Proof.
  intros Hcwd Hin. apply inside_root_stays_inside in Hin.
  destruct (relative_inside _ _ _ Hcwd Hin) as (down & Hdown & ->).
  exists (parent_segments down). split; [now apply parent_segments_clean |].
  rewrite (dirname_unsegments down Hdown). unfold dir_text.
  now destruct (parent_segments down).
Qed.

(** In batch mode the output path names a file: it does not end in a
    separator, so the temporary file of an atomic write is its sibling. *)
Lemma buildOutputPath_names_a_file env inputFile inputRoot outputRoot outputExt :
  PathChars.isAbsolute (Path.chars (cwd env)) = true →
  no_sep (Path.chars outputExt) →
  inside_root env inputRoot inputFile →
  PathChars.endsWithSep
    (Path.chars (buildOutputPath env inputFile inputRoot outputRoot true outputExt))
  = false.
Proof.
  intros Hcwd Hext Hin. rewrite buildOutputPath_chars.
  destruct (relative_dir_shape env inputRoot inputFile Hcwd Hin) as (p & Hp & ->).
  pose proof (fileName_clean _ _ (parse_name_no_sep (Path.chars inputFile)) Hext)
    as Hname.
  generalize dependent (PathChars.parse_name (Path.chars inputFile)
                        ++ marker ++ Path.chars outputExt).
  intros name Hname.
  rewrite (join_shape _ p _ Hp Hname), app_assoc, unsegments_snoc.
  destruct Hname as (Hne & _ & _ & Hsep).
  destruct (_ ++ p) as [| x segs].
  - now apply endsWithSep_app_name.
  - change (PathChars.sep :: name) with ([PathChars.sep] ++ name).
    rewrite !app_assoc. now apply endsWithSep_app_name.
Qed.

Lemma dir_text_inj parent1 parent2 :
  Forall clean parent1 → Forall clean parent2 →
  parent1 = parent2 ↔ dir_text parent1 = dir_text parent2.
Proof.
  intros H1 H2. split; [now intros -> |].
  destruct parent1 as [| s1 r1], parent2 as [| s2 r2]; cbn [dir_text].
  - reflexivity.
  - intros Heq. exfalso.
    assert (PathChars.segments [PathChars.dot] = s2 :: r2) as Hsegs.
    { rewrite Heq. apply segments_unsegments;
        [discriminate | now apply Forall_clean_no_sep]. }
    cbn in Hsegs. injection Hsegs as <- <-.
    apply Forall_cons in H2 as [(_ & Hdot & _) _]. now apply Hdot.
  - intros Heq. exfalso.
    assert (PathChars.segments [PathChars.dot] = s1 :: r1) as Hsegs.
    { rewrite <- Heq. apply segments_unsegments;
        [discriminate | now apply Forall_clean_no_sep]. }
    cbn in Hsegs. injection Hsegs as <- <-.
    apply Forall_cons in H1 as [(_ & Hdot & _) _]. now apply Hdot.
  - apply unsegments_inj;
      [discriminate | discriminate | now apply Forall_clean_no_sep..].
Qed.

(** Two inputs under the root share an output path exactly when they share
    the directory relative to the root and the base name without
    extension. *)
Lemma buildOutputPath_collision_iff env inputRoot outputRoot outputExt f1 f2 :
  PathChars.isAbsolute (Path.chars (cwd env)) = true →
  no_sep (Path.chars outputExt) →
  inside_root env inputRoot f1 →
  inside_root env inputRoot f2 →
  buildOutputPath env f1 inputRoot outputRoot true outputExt
  = buildOutputPath env f2 inputRoot outputRoot true outputExt
  ↔ Path.dirname (Path.relative (cwd env) inputRoot f1)
    = Path.dirname (Path.relative (cwd env) inputRoot f2)
    ∧ Path.parse_name f1 = Path.parse_name f2.
Proof.
  intros Hcwd Hext Hin1 Hin2. split.
  2: { intros [Hdir Hname]. unfold buildOutputPath. cbn [negb].
       now rewrite Hdir, Hname. }
  intros Heq. apply (f_equal Path.chars) in Heq.
  rewrite !buildOutputPath_chars in Heq.
  destruct (relative_dir_shape env inputRoot f1 Hcwd Hin1) as (p1 & Hp1 & Hd1).
  destruct (relative_dir_shape env inputRoot f2 Hcwd Hin2) as (p2 & Hp2 & Hd2).
  pose proof (fileName_clean _ _ (parse_name_no_sep (Path.chars f1)) Hext) as Hn1.
  pose proof (fileName_clean _ _ (parse_name_no_sep (Path.chars f2)) Hext) as Hn2.
  rewrite Hd1, Hd2 in Heq.
  rewrite (join_shape _ p1 _ Hp1 Hn1), (join_shape _ p2 _ Hp2 Hn2) in Heq.
  apply app_inv_head in Heq.
  set (before := PathChars.normalize_segments
                   (negb (PathChars.isAbsolute (Path.chars outputRoot)))
                   (root_segments (Path.chars outputRoot))) in Heq.
  assert (Forall no_sep before) as Hbefore.
  { apply normalize_segments_no_sep. unfold root_segments.
    destruct (Path.chars outputRoot); [constructor | apply segments_no_sep]. }
  apply unsegments_inj in Heq.
  - apply app_inv_head in Heq. apply app_inj_tail in Heq as [Hparents Hnames].
    apply app_inv_tail in Hnames.
    split.
    + unfold Path.dirname, Path.relative. rewrite !chars_str.
      now rewrite Hd1, Hd2, Hparents.
    + unfold Path.parse_name. now rewrite Hnames.
  - now destruct before, p1.
  - now destruct before, p2.
  - repeat (apply Forall_app; split); try assumption;
      [now apply Forall_clean_no_sep |].
    constructor; [now apply clean_no_sep | constructor].
  - repeat (apply Forall_app; split); try assumption;
      [now apply Forall_clean_no_sep |].
    constructor; [now apply clean_no_sep | constructor].
Qed.

(** C2, counterexample.  Two distinct inputs of one batch, in the same
    folder and with the same base name, get the same WebP output path. *)
Lemma same_base_name_collides :
  "/in/a/photo.png" ≠ "/in/a/photo.jpg"
  ∧ inside_root Samples.sample_env "/in" "/in/a/photo.png"
  ∧ inside_root Samples.sample_env "/in" "/in/a/photo.jpg"
  ∧ buildOutputPath Samples.sample_env "/in/a/photo.png" "/in" "/out" true "webp"
    = "/out/a/photo-squoosh.webp"
  ∧ buildOutputPath Samples.sample_env "/in/a/photo.jpg" "/in" "/out" true "webp"
    = "/out/a/photo-squoosh.webp".
Proof.
  split; [discriminate |]. repeat split; vm_compute; reflexivity.
Qed.

(** C2, amended.  In batch mode, for a fixed output extension without
    separator, two inputs under the input root that differ in their
    directory relative to the root or in their base name without extension
    get distinct output paths.  (Inputs that agree on both, such as
    a/photo.png and a/photo.jpg, get the same one.) *)
Theorem buildOutputPath_injective_on_dir_and_name
    env inputRoot outputRoot outputExt f1 f2 :
  PathChars.isAbsolute (Path.chars (cwd env)) = true →
  no_sep (Path.chars outputExt) →
  inside_root env inputRoot f1 →
  inside_root env inputRoot f2 →
  (Path.dirname (Path.relative (cwd env) inputRoot f1), Path.parse_name f1)
  ≠ (Path.dirname (Path.relative (cwd env) inputRoot f2), Path.parse_name f2) →
  buildOutputPath env f1 inputRoot outputRoot true outputExt
  ≠ buildOutputPath env f2 inputRoot outputRoot true outputExt.
Proof.
  intros Hcwd Hext Hin1 Hin2 Hdiff Heq. apply Hdiff.
  apply (buildOutputPath_collision_iff env inputRoot outputRoot outputExt f1 f2
           Hcwd Hext Hin1 Hin2) in Heq as [-> ->].
  reflexivity.
Qed.

Lemma buildOutputPath_injective_on_dir_and_name_witness :
  buildOutputPath Samples.sample_env "/in/a/photo.png" "/in" "/out" true "webp"
  ≠ buildOutputPath Samples.sample_env "/in/b/photo.png" "/in" "/out" true "webp".
Proof.
  apply (buildOutputPath_injective_on_dir_and_name Samples.sample_env
           "/in" "/out" "webp" "/in/a/photo.png" "/in/b/photo.png").
  - reflexivity.
  - unfold no_sep. apply (bool_decide_unpack _). vm_compute. exact I.
  - vm_compute. reflexivity.
  - vm_compute. reflexivity.
  - vm_compute. discriminate.
Defined.

End OutputPathSpec.

(** ** From detection to the catalog *)

Module StrategySpec.
Import Js World Encoders MachineFacts QualitySpec DetectSpec.

(** The capability flag behind a format; the formats the codec pool never
    serves have none. *)
Definition support_flag (support : SquooshSupport) (i : EncoderId) : bool :=
  match i with
  | mozjpeg => s_mozjpeg support
  | webp => s_webp support
  | avif => s_avif support
  | oxipng => s_oxipng support
  | jxl => s_jxl support
  | wp2 => s_wp2 support
  | _ => false
  end.

(** The formats [sharp] encodes when the codec pool cannot. *)
Definition has_sharp_fallback (i : EncoderId) : bool :=
  match i with
  | avif | mozjpeg | webp => true
  | _ => false
  end.

(** The probe detection makes for a format, if any: codec and options. *)
Definition probe_for (i : EncoderId) : option (string * list (string * Q)) :=
  match i with
  | mozjpeg => Some ("mozjpeg", [("quality", 75%Q)])
  | webp => Some ("webp", [("quality", 75%Q)])
  | avif => Some ("avif", [("cqLevel", 30%Q)])
  | oxipng => Some ("oxipng", [("level", 2%Q)])
  | jxl => Some ("jxl", [("quality", 75%Q)])
  | wp2 => Some ("wp2", [("quality", 75%Q)])
  | _ => None
  end.

Ltac split_flags :=
  repeat match goal with
         | |- context [if ?b then _ else _] => destruct b
         end.

(** X1.  Whatever the capability set, every catalog entry is consistent
    with it: its strategy is [squoosh] exactly when the flag of its format
    is set, and then its codec is named by its id; it carries a sharp
    format exactly when its strategy is [sharp]; a format with a sharp
    fallback is never [unsupported]; and [copy] is the strategy of
    "original" alone. *)
Theorem catalog_strategy_follows_support (support : SquooshSupport) :
  Forall (λ e,
      (encoderType e = squoosh ↔ support_flag support (id e) = true)
      ∧ squooshCodec e
        = (if support_flag support (id e) then Some (id_string (id e)) else None)
      ∧ (is_Some (sharpFormat e) ↔ encoderType e = sharp)
      ∧ (has_sharp_fallback (id e) = true → encoderType e ≠ unsupported)
      ∧ (encoderType e = copy ↔ id e = original))
    (getMenuOptions support).
Proof.
  unfold getMenuOptions.
  repeat (apply Forall_cons; split); [.. | constructor];
    cbn [id encoderType squooshCodec sharpFormat support_flag id_string
         has_sharp_fallback];
    split_flags;
    repeat split;
    try reflexivity;
    try (intros H; discriminate H);
    try (intros [x Hx]; discriminate Hx);
    try (intros _; now eexists);
    intros _ H; discriminate H.
Qed.

(** Each flag of a returned capability set, read through [support_flag]. *)
Lemma flag_cases (s : SquooshSupport) (i : EncoderId) :
  support_flag s i = true →
  ∃ codec options,
    probe_for i = Some (codec, options) ∧ codec = id_string i
    ∧ (codec, options, true)
      ∈ [("mozjpeg", [("quality", 75%Q)], s_mozjpeg s);
         ("webp", [("quality", 75%Q)], s_webp s);
         ("avif", [("cqLevel", 30%Q)], s_avif s);
         ("oxipng", [("level", 2%Q)], s_oxipng s);
         ("jxl", [("quality", 75%Q)], s_jxl s);
         ("wp2", [("quality", 75%Q)], s_wp2 s)].
Proof.
  destruct i; cbn [support_flag]; try discriminate; intros ->;
    eexists _, _; (split; [reflexivity |]); (split; [reflexivity |]);
    apply list_elem_of_In; simpl; tauto.
Qed.

Lemma squoosh_entry_flag (support : SquooshSupport) :
  Forall (λ e, encoderType e = squoosh → support_flag support (id e) = true)
    (getMenuOptions support).
Proof.
  unfold getMenuOptions.
  repeat (apply Forall_cons; split); [.. | constructor];
    cbn [id encoderType support_flag]; split_flags;
    intros H; (reflexivity || discriminate H).
Qed.

(** X2.  End to end: in the catalog built from what detection returned, an
    entry has the strategy [squoosh] only if, during that detection, its
    codec was handed the test image and gave back a non-empty binary. *)
Theorem squoosh_strategy_only_after_real_encode env m s m' :
  detectSquooshSupport env m = (Ok s, m') →
  Forall (λ e,
      encoderType e = squoosh →
      ∃ options binary,
        probe_for (id e) = Some (id_string (id e), options)
        ∧ EvSquooshEncode (id_string (id e)) options TINY_PNG ∈ new_events m m'
        ∧ squoosh_encode env (id_string (id e)) options TINY_PNG
          = Ok (Some (Some binary))
        ∧ length binary ≠ 0%nat)
    (getMenuOptions s).
Proof.
  intros Hrun.
  eapply Forall_impl; [apply squoosh_entry_flag |].
  intros e Hflag Htype. cbv beta in Hflag.
  destruct (flag_cases s (id e) (Hflag Htype)) as (codec & options & Hp & -> & Hin).
  destruct (detect_usable_only_if_encoded env m s m' Hrun _ _ _ Hin eq_refl)
    as (Hev & binary & Henc & Hlen).
  now exists options, binary.
Qed.

Lemma squoosh_strategy_only_after_real_encode_witness :
  Forall (λ e,
      encoderType e = squoosh →
      ∃ options binary,
        probe_for (id e) = Some (id_string (id e), options)
        ∧ EvSquooshEncode (id_string (id e)) options TINY_PNG
          ∈ new_events Hosts.blank_machine
              (detectSquooshSupport Samples.sample_env Hosts.blank_machine).2
        ∧ squoosh_encode Samples.sample_env (id_string (id e)) options TINY_PNG
          = Ok (Some (Some binary))
        ∧ length binary ≠ 0%nat)
    (getMenuOptions Samples.full_support).
Proof.
  apply (squoosh_strategy_only_after_real_encode Samples.sample_env
           Hosts.blank_machine Samples.full_support).
  vm_compute. reflexivity.
Defined.

(** X3.  Sharp-only mode.  On Node 20 or later, or when [@squoosh/lib] does
    not load, detection returns with every codec unusable, having started
    no pool and probed nothing; the catalog built from it has no [squoosh]
    entry, and AVIF, MozJPEG and WebP are served by [sharp]. *)
Theorem sharp_only_mode env m :
  (20 ≤ node_major env)%nat ∨ import_ok env = false →
  ∃ m',
    detectSquooshSupport env m = (Ok no_support, m')
    ∧ disk m' = disk m
    ∧ new_events m m'
      = (if bool_decide (20 ≤ node_major env)%nat then [] else [EvImportSquoosh])
    ∧ Forall (λ e,
          encoderType e ≠ squoosh
          ∧ (has_sharp_fallback (id e) = true
             → encoderType e = sharp ∧ is_Some (sharpFormat e)))
        (getMenuOptions no_support).
Proof.
  intros Hmode.
  assert (Forall (λ e,
              encoderType e ≠ squoosh
              ∧ (has_sharp_fallback (id e) = true
                 → encoderType e = sharp ∧ is_Some (sharpFormat e)))
            (getMenuOptions no_support)) as Hmenu.
  { unfold getMenuOptions, no_support.
    repeat (apply Forall_cons; split); [.. | constructor];
      cbn [id encoderType sharpFormat has_sharp_fallback s_avif s_mozjpeg s_webp
           s_jxl s_oxipng s_wp2];
      (split; [discriminate |]); intros H;
      (discriminate H || (split; [reflexivity | now eexists])). }
  destruct (decide (20 ≤ node_major env)%nat) as [Hv | Hv].
  - exists m. rewrite detect_recent_node by exact Hv.
    rewrite bool_decide_eq_true_2 by exact Hv.
    repeat split; [| exact Hmenu].
    unfold new_events. apply drop_all.
  - destruct Hmode as [Hv' | Himp]; [now destruct Hv |].
    exists (add_events m [EvImportSquoosh]).
    rewrite detect_import_fails by (lia || assumption).
    rewrite bool_decide_eq_false_2 by exact Hv.
    repeat split; [| exact Hmenu].
    unfold new_events, add_events. cbn [events]. apply drop_app_length.
Qed.

Lemma sharp_only_mode_witness :
  ∃ m',
    detectSquooshSupport Hosts.node20_env Hosts.blank_machine = (Ok no_support, m')
    ∧ disk m' = disk Hosts.blank_machine
    ∧ new_events Hosts.blank_machine m' = []
    ∧ Forall (λ e,
          encoderType e ≠ squoosh
          ∧ (has_sharp_fallback (id e) = true
             → encoderType e = sharp ∧ is_Some (sharpFormat e)))
        (getMenuOptions no_support).
Proof.
  apply (sharp_only_mode Hosts.node20_env Hosts.blank_machine).
  left. vm_compute. lia.
Defined.

(** X4.  On a Node before 20 where the library loads and the pool starts,
    detection never throws, whatever the codecs do: each of the six codecs
    is probed once, in a fixed order, with the test image; the flag of a
    format is the outcome of its own probe and of no other; and the pool is
    closed once, after the last probe. *)
Theorem each_codec_probed_on_its_own env m :
  (node_major env < 20)%nat → import_ok env = true → pool_ctor_ok env 1 = true →
  ∃ s m',
    detectSquooshSupport env m = (Ok s, m')
    ∧ (∀ i, support_flag s i
            = match probe_for i with
              | Some (codec, options) => probe_ok env codec options
              | None => false
              end)
    ∧ new_events m m'
      = [EvImportSquoosh; EvNewImagePool 1]
        ++ omap (λ i, (λ p, EvSquooshEncode p.1 p.2 TINY_PNG) <$> probe_for i)
             [mozjpeg; webp; avif; oxipng; jxl; wp2]
        ++ [EvClosePool].
Proof.
  intros Hv Himp Hctor.
  eexists _, _. split; [apply detect_probes_each; assumption |].
  split.
  - intros []; reflexivity.
  - unfold new_events, add_events. cbn [events]. now rewrite drop_app_length.
Qed.

Lemma each_codec_probed_on_its_own_witness :
  ∃ s m',
    detectSquooshSupport Samples.sample_env Hosts.blank_machine = (Ok s, m')
    ∧ (∀ i, support_flag s i
            = match probe_for i with
              | Some (codec, options) => probe_ok Samples.sample_env codec options
              | None => false
              end)
    ∧ new_events Hosts.blank_machine m'
      = [EvImportSquoosh; EvNewImagePool 1]
        ++ omap (λ i, (λ p, EvSquooshEncode p.1 p.2 TINY_PNG) <$> probe_for i)
             [mozjpeg; webp; avif; oxipng; jxl; wp2]
        ++ [EvClosePool].
Proof.
  apply (each_codec_probed_on_its_own Samples.sample_env Hosts.blank_machine).
  - vm_compute. lia.
  - reflexivity.
  - reflexivity.
Defined.


End StrategySpec.

(** ** Where outputs go *)

Module LayoutSpec.
Import World Fs Discover PathSpec OutputPathSpec.
Import PathChars.

(** *** Segments that survive normalization *)

(** A segment with a name in it: not empty, no separator.  ".." is one. *)
Definition solid (seg : list ascii) : Prop := seg ≠ [] ∧ no_sep seg.

Lemma clean_solid seg : clean seg → solid seg.
Proof. now intros (H1 & _ & _ & H4). Qed.

Lemma Forall_clean_solid segs : Forall clean segs → Forall solid segs.
Proof. intros H. eapply Forall_impl; [exact H | apply clean_solid]. Qed.

Lemma solid_dotdot : solid dotdot.
Proof.
  split; [discriminate |].
  unfold no_sep. apply (bool_decide_unpack _). vm_compute. exact I.
Qed.

Lemma normalize_step_solid allow res seg :
  Forall solid res → no_sep seg → Forall solid (normalize_step allow res seg).
Proof.
  intros Hres Hseg. unfold normalize_step.
  repeat case_decide; try assumption.
  - destruct res as [| top below].
    + destruct allow; repeat constructor; apply solid_dotdot.
    + case_decide.
      * destruct allow; [constructor; [apply solid_dotdot | assumption] | assumption].
      * now apply Forall_cons in Hres as [_ ?].
  - constructor; [now split | assumption].
Qed.

Lemma fold_normalize_solid allow segs :
  Forall no_sep segs → ∀ res, Forall solid res →
  Forall solid (fold_left (normalize_step allow) segs res).
Proof.
  induction 1 as [| seg segs Hseg _ IH]; intros res Hres; [exact Hres |].
  cbn [fold_left]. apply IH. now apply normalize_step_solid.
Qed.

Lemma normalize_segments_solid allow segs :
  Forall no_sep segs → Forall solid (normalize_segments allow segs).
Proof.
  intros Hsegs. unfold normalize_segments.
  apply Forall_rev, fold_normalize_solid; [exact Hsegs | constructor].
Qed.

Lemma Forall_solid_no_sep segs : Forall solid segs → Forall no_sep segs.
Proof. intros H. eapply Forall_impl; [exact H | now intros ? []]. Qed.

Lemma unsegments_solid_head segs :
  Forall solid segs → segs ≠ [] →
  ∃ c r, unsegments segs = c :: r ∧ c ≠ sep.
Proof.
  intros Hsolid Hne. destruct segs as [| s rest]; [now destruct Hne |].
  apply Forall_cons in Hsolid as [[Hs Hsep] _].
  destruct s as [| c s]; [now destruct Hs |].
  apply no_sep_cons in Hsep as [Hc _].
  destruct rest; cbn [unsegments app]; eauto.
Qed.

Lemma root_segments_no_sep root : Forall no_sep (root_segments root).
Proof. destruct root; [constructor | apply segments_no_sep]. Qed.

(** *** [dirname] and [basename] of a path written from its segments *)

Lemma dirname_snoc segs name :
  Forall solid segs → solid name →
  dirname (unsegments (segs ++ [name]))
  = match segs with [] => [dot] | _ => unsegments segs end.
Proof.
  intros Hsegs [Hne Hsep]. rewrite unsegments_snoc.
  destruct segs as [| s rest]; [now apply dirname_of_name |].
  destruct (unsegments_solid_head (s :: rest) Hsegs) as (c & r & Heq & Hc);
    [discriminate |].
  rewrite Heq. now apply dirname_append_segment.
Qed.

Lemma dirname_rooted_snoc segs name :
  Forall solid segs → solid name →
  dirname (sep :: unsegments (segs ++ [name])) = sep :: unsegments segs.
Proof.
  intros Hsegs [Hne Hsep]. rewrite unsegments_snoc.
  destruct segs as [| s rest].
  - cbn [dirname unsegments]. rewrite (dir_end_no_sep name Hsep).
    now rewrite bool_decide_eq_true_2.
  - destruct (unsegments_solid_head (s :: rest) Hsegs) as (c & r & Heq & Hc);
      [discriminate |].
    rewrite Heq. cbn [dirname].
    rewrite (dir_end_last_sep (c :: r) name Hsep Hne).
    rewrite bool_decide_eq_true_2 by reflexivity.
    cbn [length andb]. rewrite bool_decide_eq_false_2 by lia.
    change (sep :: (c :: r) ++ sep :: name) with ((sep :: c :: r) ++ sep :: name).
    now rewrite take_app_length'.
Qed.

Lemma segments_rooted p : segments (sep :: p) = [] :: segments p.
Proof. cbn [segments]. now rewrite decide_True. Qed.

Lemma basename_snoc prefix segs name :
  prefix = [] ∨ prefix = [sep] →
  Forall no_sep segs → solid name →
  basename (prefix ++ unsegments (segs ++ [name])) = name.
Proof.
  intros Hprefix Hsegs [Hne Hsep].
  assert (segments (unsegments (segs ++ [name])) = segs ++ [name]) as Hsplit.
  { apply segments_unsegments; [now destruct segs |].
    apply Forall_app. split; [exact Hsegs | now repeat constructor]. }
  unfold basename.
  assert (∀ front, last (filter (λ s, s ≠ []) (front ++ segs ++ [name])) = Some name)
    as Hlast.
  { intros front. rewrite !filter_app, filter_cons, filter_nil.
    rewrite decide_True by exact Hne. now rewrite !app_assoc, last_snoc. }
  destruct Hprefix as [-> | ->]; cbn [app].
  - rewrite Hsplit. specialize (Hlast []). cbn [app] in Hlast. now rewrite Hlast.
  - rewrite segments_rooted, Hsplit. specialize (Hlast [[]]).
    cbn [app] in Hlast. now rewrite Hlast.
Qed.

(** *** [join] with the file name last *)

(** The segments the arguments before the last contribute. *)
Definition front_segments (args : list (list ascii)) : list (list ascii) :=
  match filter (λ arg, arg ≠ []) args with
  | [] => []
  | front => segments (unsegments front)
  end.

Definition joined (args : list (list ascii)) : list ascii :=
  unsegments (filter (λ arg, arg ≠ []) args).

Lemma clean_head name : clean name → ∃ c r, name = c :: r ∧ c ≠ sep.
Proof.
  intros (Hne & _ & _ & Hsep). destruct name as [| c r]; [now destruct Hne |].
  apply no_sep_cons in Hsep as [Hc _]. eauto.
Qed.

Lemma join_snoc_name args name :
  clean name →
  join (args ++ [name])
  = (if isAbsolute (joined (args ++ [name])) then [sep] else [])
    ++ unsegments
         (normalize_segments (negb (isAbsolute (joined (args ++ [name]))))
            (front_segments args)
          ++ [name]).
Proof.
  intros Hname. pose proof Hname as (Hne & _ & _ & Hsep).
  unfold join, joined, front_segments.
  rewrite filter_app, filter_cons, filter_nil, decide_True by exact Hne.
  generalize (filter (λ arg, arg ≠ []) args). intros front.
  assert (segments (unsegments (front ++ [name]))
          = match front with [] => [] | _ => segments (unsegments front) end
            ++ [name]) as Hsegs.
  { rewrite unsegments_snoc. destruct front as [| a front'].
    - now apply segments_of_name.
    - now rewrite segments_app_sep, (segments_of_name name). }
  destruct (unsegments_snoc_name front name Hsep Hne) as [Hjne Hend].
  destruct (front ++ [name]) as [| a rest] eqn:Hfront;
    [now destruct front |].
  rewrite <- Hfront in *. clear Hfront a rest.
  assert (∀ allow,
            normalizeString (unsegments (front ++ [name])) allow
            = unsegments
                (normalize_segments allow
                   match front with [] => [] | _ => segments (unsegments front) end
                 ++ [name])) as Hnorm.
  { intros allow. unfold normalizeString. rewrite Hsegs.
    rewrite normalize_segments_app_clean; [reflexivity |].
    constructor; [exact Hname | constructor]. }
  rewrite normalize_shape;
    [rewrite Hnorm; now destruct front | exact Hjne | exact Hend |].
  rewrite Hnorm. now apply unsegments_snoc_name.
Qed.

(** Joining an output root and a clean file name. *)
Lemma join2_shape root name :
  clean name →
  join [root; name]
  = (if isAbsolute root then [sep] else [])
    ++ unsegments
         (normalize_segments (negb (isAbsolute root)) (root_segments root)
          ++ [name]).
Proof.
  intros Hname. change [root; name] with ([root] ++ [name]).
  rewrite (join_snoc_name [root] name Hname).
  destruct (clean_head name Hname) as (c & r & -> & Hc).
  unfold joined, front_segments.
  rewrite filter_app, !filter_cons, !filter_nil.
  rewrite (decide_True (P := c :: r ≠ [])) by discriminate.
  destruct root as [| x root].
  - rewrite decide_False by (intros H; now apply H).
    cbn [app unsegments isAbsolute root_segments].
    now rewrite bool_decide_eq_false_2.
  - rewrite decide_True by discriminate. reflexivity.
Qed.

(** A resolved path, as a root: its segments normalize to themselves. *)
Lemma normalize_resolved_root segs :
  Forall clean segs →
  normalize_segments false (root_segments (sep :: unsegments segs)) = segs.
Proof.
  intros Hclean. cbn [root_segments]. rewrite segments_rooted.
  destruct segs as [| s rest]; [reflexivity |].
  rewrite segments_unsegments
    by (discriminate || now apply Forall_clean_no_sep).
  change ([] :: s :: rest) with ([[]] ++ s :: rest).
  now rewrite normalize_segments_app_clean.
Qed.

Lemma join_resolved segs name :
  Forall clean segs → clean name →
  join [sep :: unsegments segs; name] = sep :: unsegments (segs ++ [name]).
Proof.
  intros Hsegs Hname. rewrite join2_shape by exact Hname.
  cbn [isAbsolute negb]. rewrite bool_decide_eq_true_2 by reflexivity.
  now rewrite normalize_resolved_root.
Qed.

(** *** Joining a root and a directory *)

Lemma endsWithSep_app a b : b ≠ [] → endsWithSep (a ++ b) = endsWithSep b.
Proof.
  intros Hb. unfold endsWithSep. rewrite last_app.
  destruct (last b) eqn:Hl; [reflexivity |].
  apply last_None in Hl. contradiction.
Qed.

Lemma dir_text_shape p :
  Forall clean p →
  dir_text p ≠ [] ∧ endsWithSep (dir_text p) = false ∧ isAbsolute (dir_text p) = false.
Proof.
  intros Hp. destruct (dir_text_head p Hp) as (c & r & Heq & Hc).
  split; [rewrite Heq; discriminate |]. split.
  - destruct (decide (p = [])) as [-> | Hne]; [reflexivity |].
    destruct (exists_last Hne) as (init & s & ->).
    apply Forall_app in Hp as [_ Hs]. apply Forall_cons in Hs as [(Hs1 & _ & _ & Hs4) _].
    replace (dir_text (init ++ [s])) with (unsegments (init ++ [s]))
      by (now destruct init).
    now apply unsegments_snoc_name.
  - rewrite Heq. cbn [isAbsolute]. now apply bool_decide_eq_false_2.
Qed.

Lemma join_dir_shape root p :
  Forall clean p →
  join [root; dir_text p]
  = match normalize_segments (negb (isAbsolute root)) (root_segments root) ++ p with
    | [] => if isAbsolute root then [sep] else [dot]
    | segs => (if isAbsolute root then [sep] else []) ++ unsegments segs
    end.
Proof.
  intros Hp. destruct (dir_text_shape p Hp) as (Hne & Hend & Habs).
  assert (Forall solid
            (normalize_segments (negb (isAbsolute root)) (root_segments root) ++ p))
    as Hsolid.
  { apply Forall_app. split; [| now apply Forall_clean_solid].
    apply normalize_segments_solid, root_segments_no_sep. }
  assert (∀ J, J ≠ [] → isAbsolute J = isAbsolute root → endsWithSep J = false →
               segments J = root_segments root ++ segments (dir_text p) →
               normalize J
               = match normalize_segments (negb (isAbsolute root)) (root_segments root)
                       ++ p with
                 | [] => if isAbsolute root then [sep] else [dot]
                 | segs => (if isAbsolute root then [sep] else []) ++ unsegments segs
                 end) as Hcore.
  { intros J HJ HabsJ HendJ HsegJ. unfold normalize.
    destruct J as [| a J]; [now destruct HJ |].
    rewrite HendJ, HabsJ. unfold normalizeString. rewrite HsegJ.
    pose proof (normalize_segments_dir_text (negb (isAbsolute root))
                  (root_segments root) p [] Hp (Forall_nil_2 _)) as Hnorm.
    rewrite !app_nil_r in Hnorm. rewrite Hnorm.
    destruct (normalize_segments (negb (isAbsolute root)) (root_segments root) ++ p)
      as [| s segs] eqn:Hsegs.
    - cbn [unsegments]. now destruct (isAbsolute root).
    - destruct (unsegments_solid_head (s :: segs) Hsolid) as (c & r & -> & _);
        [discriminate |].
      now destruct (isAbsolute root). }
  unfold join. rewrite !filter_cons, filter_nil.
  rewrite (decide_True (P := dir_text p ≠ [])) by exact Hne.
  destruct root as [| x root].
  - rewrite decide_False by (intros H; now apply H).
    cbn [unsegments].
    destruct (dir_text p) as [| d ds] eqn:Hd; [now destruct Hne |].
    rewrite <- Hd in *. apply Hcore; try assumption. reflexivity.
  - rewrite decide_True by discriminate.
    rewrite unsegments_cons by discriminate. change (unsegments [dir_text p]) with (dir_text p).
    apply Hcore.
    + discriminate.
    + reflexivity.
    + change (sep :: dir_text p) with ([sep] ++ dir_text p).
      rewrite app_assoc, endsWithSep_app by exact Hne. exact Hend.
    + now rewrite segments_app_sep.
Qed.

(** *** Extensions *)

Lemma last_dot_None r : last_dot r = None → dot ∉ r.
Proof.
  induction r as [| c r IH]; [intros _; apply not_elem_of_nil |].
  cbn [last_dot]. destruct (last_dot r); [discriminate |].
  case_bool_decide; [discriminate |]. intros _.
  apply not_elem_of_cons. split; [congruence | now apply IH].
Qed.

Lemma last_dot_spec base : ∀ k,
  last_dot base = Some k → ∃ r, drop k base = dot :: r ∧ dot ∉ r.
Proof.
  induction base as [| c base IH]; intros k; [discriminate |].
  cbn [last_dot]. destruct (last_dot base) as [j |] eqn:Hbase.
  - intros [= <-]. cbn [drop]. now apply IH.
  - case_bool_decide as Hc; [| discriminate]. intros [= <-]. subst c.
    exists base. split; [reflexivity | now apply last_dot_None].
Qed.

Lemma ext_start_last_dot base k : ext_start base = Some k → last_dot base = Some k.
Proof.
  unfold ext_start. destruct (last_dot base) as [[| j] |]; try discriminate.
  now case_decide.
Qed.

Lemma no_sep_drop k s : no_sep s → no_sep (drop k s).
Proof.
  unfold no_sep. intros Hs Hin. apply Hs.
  rewrite <- (take_drop k s). apply elem_of_app. now right.
Qed.

(** An extension is empty, or a dot followed by characters that are
    neither dots nor separators. *)
Lemma extname_shape p :
  extname p = [] ∨ ∃ r, extname p = dot :: r ∧ (dot ∉ r) ∧ no_sep r.
Proof.
  unfold extname. pose proof (basename_no_sep p) as Hbase.
  destruct (ext_start (basename p)) as [k |] eqn:Hk; [| now left].
  right. apply ext_start_last_dot, last_dot_spec in Hk as (r & Hr & Hdot).
  exists r. split; [exact Hr |]. split; [exact Hdot |].
  apply (no_sep_drop k) in Hbase. rewrite Hr in Hbase.
  now apply no_sep_cons in Hbase as [_ ?].
Qed.

Lemma name_ext p : parse_name p ++ extname p = basename p.
Proof.
  unfold parse_name, extname.
  destruct (ext_start (basename p)); [apply take_drop | apply app_nil_r].
Qed.




Lemma toLowerCase_str l : toLowerCase (Path.str l) = Path.str (map lower_char l).
Proof.
  induction l as [| c l IH]; [reflexivity |].
  cbn [Path.str String.string_of_list_ascii toLowerCase map].
  f_equal. exact IH.
Qed.



(** X7.  A path is accepted as an input image exactly when the extension
    its "original" copy would keep, the lower-cased extension without its
    dot, is one of jpg, jpeg, png, webp, avif and gif. *)
Theorem supported_input_iff_original_extension (filePath : string) :
  isSupportedImagePath filePath = true
  ↔ getOriginalExtension filePath ∈ ["jpg"; "jpeg"; "png"; "webp"; "avif"; "gif"].
Proof.
  unfold isSupportedImagePath, getOriginalExtension, Path.extname.
  rewrite bool_decide_eq_true, toLowerCase_str.
  unfold SUPPORTED_INPUT_EXTS.
  destruct (extname_shape (Path.chars filePath)) as [-> | (r & -> & _)].
  - cbn [map Path.str String.string_of_list_ascii startsWith slice1].
    rewrite !elem_of_cons, !elem_of_nil.
    split; intros H; repeat (destruct H as [H | H]; [discriminate H |]);
      destruct H.
  - cbn [map Path.str String.string_of_list_ascii startsWith slice1].
    rewrite bool_decide_eq_true_2 by reflexivity. cbn [andb].
    change (lower_char dot) with "."%char.
    generalize (Path.str (map lower_char r)). intros t.
    rewrite !elem_of_cons, !elem_of_nil.
    split; intros H;
      repeat (destruct H as [H | H];
              [first [injection H as -> | subst t]; auto 10 |]);
      destruct H.
Qed.

(** *** The name and the directory of an output *)

Lemma front_segments_no_sep args : Forall no_sep (front_segments args).
Proof.
  unfold front_segments.
  destruct (filter (λ arg, arg ≠ []) args); [constructor | apply segments_no_sep].
Qed.

Lemma basename_join_snoc args name :
  clean name → basename (join (args ++ [name])) = name.
Proof.
  intros Hname. rewrite (join_snoc_name args name Hname).
  apply basename_snoc.
  - destruct (isAbsolute _); auto.
  - apply normalize_segments_no_sep, front_segments_no_sep.
  - now apply clean_solid.
Qed.

Lemma fileName_chars inputFile outputExt :
  Path.chars (Path.parse_name inputFile +:+ "-squoosh." +:+ outputExt)
  = parse_name (Path.chars inputFile) ++ marker ++ Path.chars outputExt.
Proof. unfold Path.parse_name. now rewrite !chars_app, chars_str. Qed.

(** [buildOutputPath] for a single input file, on characters. *)
Lemma buildOutputPath_file_chars env inputFile inputRoot outputRoot outputExt :
  Path.chars (buildOutputPath env inputFile inputRoot outputRoot false outputExt)
  = join [Path.chars outputRoot;
          parse_name (Path.chars inputFile) ++ marker ++ Path.chars outputExt].
Proof.
  unfold buildOutputPath, Path.join. cbn [negb map].
  now rewrite chars_str, fileName_chars.
Qed.

Lemma buildOutputPath_basename env inputFile inputRoot outputRoot isDirectory outputExt :
  no_sep (Path.chars outputExt) →
  basename (Path.chars (buildOutputPath env inputFile inputRoot outputRoot
                          isDirectory outputExt))
  = parse_name (Path.chars inputFile) ++ marker ++ Path.chars outputExt.
Proof.
  intros Hext.
  pose proof (fileName_clean _ _ (parse_name_no_sep (Path.chars inputFile)) Hext)
    as Hname.
  destruct isDirectory.
  - rewrite buildOutputPath_chars.
    match goal with
    | |- basename (join [?a; ?b; ?c]) = _ =>
        change [a; b; c] with ([a; b] ++ [c])
    end.
    now apply basename_join_snoc.
  - rewrite buildOutputPath_file_chars.
    match goal with
    | |- basename (join [?a; ?c]) = _ => change [a; c] with ([a] ++ [c])
    end.
    now apply basename_join_snoc.
Qed.

(** A generated file name is never the base name of its input. *)
Lemma fileName_not_basename p ext :
  parse_name p ++ marker ++ ext ≠ basename p.
Proof.
  rewrite <- (name_ext p). intros Heq. apply app_inv_head in Heq.
  destruct (extname_shape p) as [Hnone | (r & Hdot & _)]; rewrite ?Hnone, ?Hdot in Heq;
    discriminate Heq.
Qed.

(** X8.  In both modes and whatever the roots, the output file is named
    "<base name of the input without extension>-squoosh.<extension>"; that
    name is never the input's own, so an output path is never the path of
    its input. *)
Theorem output_named_after_input env inputFile inputRoot outputRoot isDirectory outputExt :
  no_sep (Path.chars outputExt) →
  Path.basename
    (buildOutputPath env inputFile inputRoot outputRoot isDirectory outputExt)
  = Path.parse_name inputFile +:+ "-squoosh." +:+ outputExt
  ∧ Path.basename
      (buildOutputPath env inputFile inputRoot outputRoot isDirectory outputExt)
    ≠ Path.basename inputFile
  ∧ buildOutputPath env inputFile inputRoot outputRoot isDirectory outputExt
    ≠ inputFile.
Proof.
  intros Hext.
  pose proof (buildOutputPath_basename env inputFile inputRoot outputRoot
                isDirectory outputExt Hext) as Hbase.
  assert (Path.basename
            (buildOutputPath env inputFile inputRoot outputRoot isDirectory outputExt)
          ≠ Path.basename inputFile) as Hdiff.
  { unfold Path.basename. rewrite Hbase. intros Heq.
    apply (f_equal Path.chars) in Heq. rewrite !chars_str in Heq.
    now apply fileName_not_basename in Heq. }
  split; [| split; [exact Hdiff |]].
  - apply chars_inj. unfold Path.basename at 1.
    now rewrite chars_str, Hbase, fileName_chars.
  - intros Heq. apply Hdiff. now rewrite Heq.
Qed.

Lemma output_named_after_input_witness :
  Path.basename
    (buildOutputPath Samples.sample_env "/in/sub/b.png" "/in" "/in-squoosh" true "webp")
  = Path.parse_name "/in/sub/b.png" +:+ "-squoosh." +:+ "webp"
  ∧ Path.basename
      (buildOutputPath Samples.sample_env "/in/sub/b.png" "/in" "/in-squoosh" true "webp")
    ≠ Path.basename "/in/sub/b.png"
  ∧ buildOutputPath Samples.sample_env "/in/sub/b.png" "/in" "/in-squoosh" true "webp"
    ≠ "/in/sub/b.png".
Proof.
  apply (output_named_after_input Samples.sample_env "/in/sub/b.png" "/in"
           "/in-squoosh" true "webp").
  unfold no_sep. apply (bool_decide_unpack _). vm_compute. exact I.
Defined.

(** X9.  In batch mode the output lands in the directory that mirrors the
    input's: the directory of the output path is the output root joined
    with the directory of the input relative to the input root. *)
Theorem output_mirrors_input_tree env inputFile inputRoot outputRoot outputExt :
  isAbsolute (Path.chars (cwd env)) = true →
  no_sep (Path.chars outputExt) →
  inside_root env inputRoot inputFile →
  Path.dirname (buildOutputPath env inputFile inputRoot outputRoot true outputExt)
  = Path.join [outputRoot; Path.dirname (Path.relative (cwd env) inputRoot inputFile)].
Proof.
  intros Hcwd Hext Hin. apply chars_inj.
  unfold Path.dirname at 1. rewrite chars_str, buildOutputPath_chars.
  unfold Path.join, Path.dirname, Path.relative. cbn [map]. rewrite !chars_str.
  destruct (relative_dir_shape env inputRoot inputFile Hcwd Hin) as (p & Hp & ->).
  pose proof (fileName_clean _ _ (parse_name_no_sep (Path.chars inputFile)) Hext)
    as Hname.
  rewrite (join_shape _ p _ Hp Hname), (join_dir_shape _ p Hp), app_assoc.
  assert (Forall solid
            (normalize_segments (negb (isAbsolute (Path.chars outputRoot)))
               (root_segments (Path.chars outputRoot)) ++ p)) as Hsolid.
  { apply Forall_app. split; [| now apply Forall_clean_solid].
    apply normalize_segments_solid, root_segments_no_sep. }
  apply clean_solid in Hname.
  destruct (isAbsolute (Path.chars outputRoot)); cbn [app].
  - rewrite dirname_rooted_snoc by assumption.
    now destruct (normalize_segments _ _ ++ p).
  - rewrite dirname_snoc by assumption.
    now destruct (normalize_segments _ _ ++ p).
Qed.

Lemma output_mirrors_input_tree_witness :
  Path.dirname
    (buildOutputPath Samples.sample_env "/in/sub/b.png" "/in" "/in-squoosh" true "webp")
  = Path.join [ "/in-squoosh";
                Path.dirname (Path.relative (cwd Samples.sample_env) "/in" "/in/sub/b.png")].
Proof.
  apply (output_mirrors_input_tree Samples.sample_env "/in/sub/b.png" "/in"
           "/in-squoosh" "webp").
  - reflexivity.
  - unfold no_sep. apply (bool_decide_unpack _). vm_compute. exact I.
  - vm_compute. reflexivity.
Defined.

(** *** The output root *)

Lemma basename_resolved segs :
  Forall clean segs → basename (sep :: unsegments segs) = List.last segs [].
Proof.
  intros Hsegs. destruct (decide (segs = [])) as [-> | Hne]; [reflexivity |].
  destruct (exists_last Hne) as (init & s & ->).
  apply Forall_app in Hsegs as [Hinit Hs]. apply Forall_cons in Hs as [Hs _].
  rewrite last_last.
  apply (basename_snoc [sep]); [now right | now apply Forall_clean_no_sep |].
  now apply clean_solid.
Qed.

Lemma dirname_resolved segs :
  Forall clean segs →
  dirname (sep :: unsegments segs) = sep :: unsegments (removelast segs).
Proof.
  intros Hsegs. destruct (decide (segs = [])) as [-> | Hne]; [reflexivity |].
  destruct (exists_last Hne) as (init & s & ->).
  apply Forall_app in Hsegs as [Hinit Hs]. apply Forall_cons in Hs as [Hs _].
  rewrite removelast_last.
  apply dirname_rooted_snoc; [now apply Forall_clean_solid | now apply clean_solid].
Qed.

(** A segment with a dash in it is neither "." nor "..". *)
Lemma clean_with_dash a b : no_sep a → no_sep b → clean (a ++ "-"%char :: b).
Proof.
  intros Ha Hb.
  assert ("-"%char ∈ a ++ "-"%char :: b) as Hdash.
  { apply elem_of_app. right. now left. }
  repeat split.
  - intros Heq. rewrite Heq in Hdash. inversion Hdash.
  - intros Heq. rewrite Heq in Hdash.
    apply list_elem_of_singleton in Hdash. discriminate Hdash.
  - intros Heq. rewrite Heq in Hdash.
    apply list_elem_of_In in Hdash. simpl in Hdash.
    destruct Hdash as [H | [H | []]]; discriminate H.
  - apply no_sep_app. split; [exact Ha |].
    apply no_sep_cons. split; [discriminate | exact Hb].
Qed.

Definition suffix : list ascii := Path.chars "-squoosh".
Definition config_name : list ascii := Path.chars ".squoosh-last.json".

Lemma clean_suffixed s : no_sep s → clean (s ++ suffix).
Proof.
  intros Hs. apply (clean_with_dash s (Path.chars "squoosh") Hs).
  unfold no_sep. apply (bool_decide_unpack _). vm_compute. exact I.
Qed.

Lemma clean_config_name : clean config_name.
Proof.
  apply (clean_with_dash (Path.chars ".squoosh") (Path.chars "last.json"));
    unfold no_sep; apply (bool_decide_unpack _); vm_compute; exact I.
Qed.

(** The configuration file of a resolved output root sits directly in it. *)
Lemma config_in_root segs :
  Forall clean segs →
  dirname (join [sep :: unsegments segs; config_name]) = sep :: unsegments segs
  ∧ basename (join [sep :: unsegments segs; config_name]) = config_name.
Proof.
  intros Hsegs. rewrite (join_resolved segs _ Hsegs clean_config_name). split.
  - apply dirname_rooted_snoc;
      [now apply Forall_clean_solid | apply clean_solid, clean_config_name].
  - apply (basename_snoc [sep]);
      [now right | now apply Forall_clean_no_sep
       | apply clean_solid, clean_config_name].
Qed.

(** The output root [getOutputRoot] picks for a resolved input path: again
    "/" followed by clean segments. *)
Lemma outputRoot_shape env segs isDirectory outDir :
  isAbsolute (Path.chars (cwd env)) = true →
  Forall clean segs →
  ∃ root,
    Forall clean root
    ∧ Path.chars (getOutputRoot env (Path.str (sep :: unsegments segs))
                    isDirectory outDir).1
      = sep :: unsegments root
    ∧ (isDirectory = true → (outDir = None ∨ outDir = Some "") →
       sep :: unsegments root = (sep :: unsegments segs) ++ suffix)
    ∧ (isDirectory = false → (outDir = None ∨ outDir = Some "") →
       root = removelast segs).
Proof.
  intros Hcwd Hsegs.
  assert (∀ d, ∃ root, Forall clean root
               ∧ Path.chars (Path.resolve (cwd env) d) = sep :: unsegments root)
    as Hresolve.
  { intros d. unfold Path.resolve. rewrite chars_str.
    destruct (resolve_shape (Path.chars (cwd env)) (Path.chars d) Hcwd)
      as (root & Hroot & ->).
    now exists root. }
  assert (∃ root, Forall clean root
            ∧ Path.chars
                (Path.join [Path.dirname (Path.str (sep :: unsegments segs));
                            Path.basename (Path.str (sep :: unsegments segs))
                            +:+ "-squoosh"])
              = sep :: unsegments root
            ∧ sep :: unsegments root = (sep :: unsegments segs) ++ suffix)
    as Hdefault.
  { unfold Path.join, Path.dirname, Path.basename. cbn [map].
    rewrite !chars_app, !chars_str.
    rewrite (dirname_resolved segs Hsegs), (basename_resolved segs Hsegs).
    fold suffix.
    assert (clean (List.last segs [] ++ suffix)) as Hname.
    { apply clean_suffixed.
      destruct (decide (segs = [])) as [-> | Hne]; [apply no_sep_nil |].
      destruct (exists_last Hne) as (init & s & ->). rewrite last_last.
      apply Forall_app in Hsegs as [_ Hs]. apply Forall_cons in Hs as [Hs _].
      now apply clean_no_sep. }
    assert (Forall clean (removelast segs)) as Hparent.
    { now apply parent_segments_clean. }
    exists (removelast segs ++ [List.last segs [] ++ suffix]).
    split; [apply Forall_app; split;
              [exact Hparent | constructor; [exact Hname | constructor]] |].
    split; [now apply join_resolved |].
    destruct (decide (segs = [])) as [-> | Hne]; [reflexivity |].
    destruct (exists_last Hne) as (init & s & ->).
    rewrite removelast_last, last_last, !unsegments_snoc.
    destruct init; cbn [app]; [reflexivity |].
    now rewrite <- !app_assoc. }
  assert (∃ root, Forall clean root
            ∧ Path.chars (Path.dirname (Path.str (sep :: unsegments segs)))
              = sep :: unsegments root
            ∧ root = removelast segs) as Hfile.
  { exists (removelast segs). split; [now apply parent_segments_clean |].
    split; [| reflexivity].
    unfold Path.dirname. rewrite !chars_str. now apply dirname_resolved. }
  unfold getOutputRoot.
  destruct outDir as [d |]; [case_bool_decide as Hd |]; destruct isDirectory;
    cbn [fst];
    [destruct Hdefault as (root & Hroot & Heq & Hshape)
    | destruct Hfile as (root & Hroot & Heq & Hshape)
    | destruct (Hresolve d) as (root & Hroot & Heq)
    | destruct (Hresolve d) as (root & Hroot & Heq)
    | destruct Hdefault as (root & Hroot & Heq & Hshape)
    | destruct Hfile as (root & Hroot & Heq & Hshape)];
    exists root; (split; [exact Hroot |]); (split; [exact Heq |]);
    split; intros His Hout;
    first [discriminate His | assumption | destruct Hout as [H | H]; congruence].
Qed.

Lemma getOutputRoot_configPath env inputPath isDirectory outDir :
  (getOutputRoot env inputPath isDirectory outDir).2
  = Path.join [(getOutputRoot env inputPath isDirectory outDir).1;
               ".squoosh-last.json"].
Proof. unfold getOutputRoot. now destruct isDirectory. Qed.

(** X10.  [main] hands [getOutputRoot] a resolved input path.  For such a
    path, and in both modes, with or without [--out]: the configuration
    file ".squoosh-last.json" sits directly in the output root; and for a
    folder given without [--out] (or with an empty one) the output root is
    the folder's own path followed by "-squoosh", its sibling. *)
Theorem output_root_layout env (p : string) isDirectory outDir :
  isAbsolute (Path.chars (cwd env)) = true →
  let inputPath := Path.resolve (cwd env) p in
  let roots := getOutputRoot env inputPath isDirectory outDir in
  Path.dirname roots.2 = roots.1
  ∧ Path.basename roots.2 = ".squoosh-last.json"
  ∧ (isDirectory = true → (outDir = None ∨ outDir = Some "") →
     roots = (inputPath +:+ "-squoosh",
              inputPath +:+ "-squoosh/.squoosh-last.json")).
Proof.
  intros Hcwd inputPath roots.
  assert (∃ segs, Forall clean segs ∧ inputPath = Path.str (sep :: unsegments segs))
    as (segs & Hsegs & HinputPath).
  { unfold inputPath, Path.resolve.
    destruct (resolve_shape (Path.chars (cwd env)) (Path.chars p) Hcwd)
      as (segs & Hsegs & ->).
    now exists segs. }
  destruct (outputRoot_shape env segs isDirectory outDir Hcwd Hsegs)
    as (root & Hroot & Hchars & Hdir & _).
  rewrite <- HinputPath in Hchars. fold roots in Hchars.
  destruct (config_in_root root Hroot) as [Hdirname Hbasename].
  assert (Path.chars roots.2 = join [sep :: unsegments root; config_name]) as Hconfig.
  { unfold roots. rewrite getOutputRoot_configPath. fold roots.
    unfold Path.join. cbn [map]. now rewrite chars_str, Hchars. }
  split; [| split].
  - apply chars_inj. unfold Path.dirname.
    now rewrite chars_str, Hconfig, Hdirname, Hchars.
  - apply chars_inj. unfold Path.basename.
    now rewrite chars_str, Hconfig, Hbasename.
  - intros His Hout. specialize (Hdir His Hout).
    assert (roots.1 = inputPath +:+ "-squoosh") as Hroot1.
    { apply chars_inj. rewrite Hchars, Hdir, chars_app, HinputPath.
      now rewrite chars_str. }
    rewrite (surjective_pairing roots). f_equal; [exact Hroot1 |].
    apply chars_inj. rewrite Hconfig.
    rewrite (join_resolved root _ Hroot clean_config_name).
    rewrite chars_app, HinputPath, chars_str, unsegments_snoc.
    destruct root as [| r0 root'].
    + exfalso. cbn [unsegments] in Hdir.
      apply (f_equal length) in Hdir. rewrite length_app in Hdir.
      cbn in Hdir. lia.
    + change (sep :: unsegments (r0 :: root') ++ sep :: config_name)
        with ((sep :: unsegments (r0 :: root')) ++ sep :: config_name).
      rewrite Hdir, <- app_assoc. reflexivity.
Qed.

Lemma output_root_layout_witness :
  let inputPath := Path.resolve (cwd Samples.sample_env) "/in" in
  let roots := getOutputRoot Samples.sample_env inputPath true None in
  Path.dirname roots.2 = roots.1
  ∧ Path.basename roots.2 = ".squoosh-last.json"
  ∧ (true = true → (@None string = None ∨ None = Some "") →
     roots = (inputPath +:+ "-squoosh",
              inputPath +:+ "-squoosh/.squoosh-last.json")).
Proof.
  apply (output_root_layout Samples.sample_env "/in" true None).
  reflexivity.
Defined.

(** X11.  A single input file given without [--out]: its output is written
    into the directory of the input itself, under the generated name, which
    is not the input's. *)
Theorem single_file_output_beside_input env (p outputExt : string) :
  isAbsolute (Path.chars (cwd env)) = true →
  no_sep (Path.chars outputExt) →
  let inputPath := Path.resolve (cwd env) p in
  let outputRoot := (getOutputRoot env inputPath false None).1 in
  let output :=
    buildOutputPath env inputPath (Path.dirname inputPath) outputRoot false outputExt in
  Path.dirname output = Path.dirname inputPath
  ∧ Path.basename output = Path.parse_name inputPath +:+ "-squoosh." +:+ outputExt
  ∧ output ≠ inputPath.
Proof.
  intros Hcwd Hext inputPath outputRoot output.
  assert (∃ segs, Forall clean segs ∧ inputPath = Path.str (sep :: unsegments segs))
    as (segs & Hsegs & HinputPath).
  { unfold inputPath, Path.resolve.
    destruct (resolve_shape (Path.chars (cwd env)) (Path.chars p) Hcwd)
      as (segs & Hsegs & ->).
    now exists segs. }
  pose proof (fileName_clean _ _ (parse_name_no_sep (Path.chars inputPath)) Hext)
    as Hname.
  pose proof (buildOutputPath_basename env inputPath (Path.dirname inputPath)
                outputRoot false outputExt Hext) as Hbase.
  fold output in Hbase.
  assert (Path.basename output ≠ Path.basename inputPath) as Hdiff.
  { unfold Path.basename. rewrite Hbase. intros Heq.
    apply (f_equal Path.chars) in Heq. rewrite !chars_str in Heq.
    now apply fileName_not_basename in Heq. }
  split; [| split].
  - assert (Forall clean (removelast segs)) as Hparent
      by now apply parent_segments_clean.
    assert (Path.chars (Path.dirname inputPath) = sep :: unsegments (removelast segs))
      as Hdir.
    { unfold Path.dirname. rewrite chars_str, HinputPath, chars_str.
      now apply dirname_resolved. }
    apply chars_inj. rewrite Hdir.
    unfold Path.dirname, output. rewrite chars_str, buildOutputPath_file_chars.
    unfold outputRoot, getOutputRoot. cbn [fst]. rewrite Hdir.
    rewrite (join_resolved _ _ Hparent Hname).
    apply dirname_rooted_snoc;
      [now apply Forall_clean_solid | now apply clean_solid].
  - apply chars_inj. unfold Path.basename.
    now rewrite chars_str, Hbase, fileName_chars.
  - intros Heq. apply Hdiff. now rewrite Heq.
Qed.

Lemma single_file_output_beside_input_witness :
  let inputPath := Path.resolve (cwd Samples.sample_env) "/in/a.png" in
  let outputRoot := (getOutputRoot Samples.sample_env inputPath false None).1 in
  let output :=
    buildOutputPath Samples.sample_env inputPath (Path.dirname inputPath)
      outputRoot false "webp" in
  Path.dirname output = Path.dirname inputPath
  ∧ Path.basename output = Path.parse_name inputPath +:+ "-squoosh." +:+ "webp"
  ∧ output ≠ inputPath.
Proof.
  apply (single_file_output_beside_input Samples.sample_env "/in/a.png" "webp").
  - reflexivity.
  - unfold no_sep. apply (bool_decide_unpack _). vm_compute. exact I.
Defined.

(** *** Relative output paths *)



End LayoutSpec.

(** ** The two encoders *)

Module EncodeSpec.
Import Js World Encoders Fs Process MachineFacts ProcessSpec FsSpec.

(** The pipeline the [switch] of [encodeWithSharp] configures for a
    format, if it configures one. *)
Definition sharp_call (i : EncoderId) (quality : Q) : option SharpCall :=
  match i with
  | browser_jpeg => Some (SharpJpeg quality false)
  | mozjpeg => Some (SharpJpeg quality true)
  | browser_png => Some (SharpPng 9 true)
  | webp => Some (SharpWebp quality)
  | avif => Some (SharpAvif quality)
  | _ => None
  end.

(** The bytes a pipeline makes of a file of the disk, when it makes any. *)
Definition piped (env : Env) (call : SharpCall) (d : Disk) (input : string)
  : option Buffer :=
  match files d !! input with
  | Some data =>
      match sharp_encode env call data with
      | Ok out => Some out
      | Throw _ => None
      end
  | None => None
  end.

(** What [encodeWithSharp] is to leave at its output path. *)
Definition sharp_output (env : Env) (i : EncoderId) (quality : Q) (d : Disk)
    (input : string) : option Buffer :=
  match sharp_call i quality with
  | Some call => piped env call d input
  | None => None
  end.

(** What [encodeWithSquoosh] is to leave at its output path: the binary the
    codec returned. *)
Definition squoosh_output (env : Env) (encoder : EncoderOption) (quality : Q)
    (input : Buffer) : option Buffer :=
  match squooshCodec encoder with
  | Some codec =>
      if bool_decide (codec = "") then None
      else match squoosh_encode env codec
                   (getSquooshEncodeOptions (id encoder) quality) input with
           | Ok (Some (Some binary)) => Some binary
           | _ => None
           end
  | None => None
  end.

Lemma sharp_toFile_run env call input output m :
  sharp_toFile env call input output m
  = let m1 := advance m (disk m) [] [EvSharpToFile input output] 0 in
    match files (disk m) !! input with
    | None => (Throw "Input file is missing", m1)
    | Some data =>
        match sharp_encode env call data with
        | Throw msg => (Throw msg, m1)
        | Ok out =>
            if bool_decide (output ∈ dirs (disk m)) then (Throw "EISDIR", m1)
            else if bool_decide (Path.dirname output ∈ dirs (disk m))
            then (Ok tt, advance m (put_file output out (disk m))
                           (write_stages output out (disk m))
                           [EvSharpToFile input output] 0)
            else (Throw "ENOENT", m1)
        end
    end.
Proof.
  unfold sharp_toFile. rewrite bind_unfold, emit_run, bind_unfold.
  unfold get_disk. cbn [disk advance].
  fold (advance m (disk m) [] [EvSharpToFile input output] 0).
  destruct (files (disk m) !! input) as [data |]; [| reflexivity].
  destruct (sharp_encode env call data) as [out | msg]; [| reflexivity].
  rewrite write_bytes_run. cbn [disk advance].
  fold (advance m (disk m) [] [EvSharpToFile input output] 0).
  repeat case_bool_decide; try reflexivity.
  cbv zeta. now rewrite advance_advance.
Qed.

Lemma sharp_toFile_fills env call input m :
  fills (piped env call (disk m) input) (EvSharpToFile input)
    (sharp_toFile env call input) m.
Proof.
  intros temp m1 Hfiles. rewrite sharp_toFile_run. unfold piped.
  rewrite Hfiles. cbv zeta.
  destruct (files (disk m) !! input) as [data |]; [| left; eauto].
  destruct (sharp_encode env call data) as [out | msg]; [| left; eauto].
  repeat case_bool_decide; [left | right | left]; eauto.
Qed.

(** The write-then-rename sequence with the temporary name taken first,
    as [encodeWithSharp] has it. *)
Lemma atomic_sequence_name_first env target content put c m :
  fills content put c m →
  written_atomically target (temp_path env target (ticks m)) content
    (put (temp_path env target (ticks m))) m
    ((tempPath ← getTempPath env target;
      ensureDir (Path.dirname target) ≫= λ _,
      c tempPath ≫= λ _, fs_rename tempPath target) m).
Proof.
  intros Hfills. unfold written_atomically.
  set (temp := temp_path env target (ticks m)).
  assert (temp ≠ target) as Hfresh by apply temp_path_fresh.
  rewrite bind_unfold, getTempPath_run.
  change (target +:+ ".tmp-" +:+ decimal (pid env) +:+ "-"
          +:+ decimal (now env (ticks m)) +:+ "-"
          +:+ hex (random_digits env (ticks m))) with temp.
  unfold ensureDir. rewrite bind_unfold, mkdir_run, disk_advance.
  destruct (files (disk m) !! Path.dirname target) as [existing |] eqn:Hdir.
  { rewrite advance_advance. cbn [fst snd app].
    rewrite new_events_advance, new_observed_advance.
    split; [now exists 1%nat |]. split; [intros d Hd; inversion Hd |].
    discriminate. }
  cbv beta iota zeta.
  set (d1 := {| files := files (disk m);
                dirs := {[Path.dirname target]} ∪ dirs (disk m) |}).
  rewrite advance_advance. cbn [app Nat.add].
  rewrite bind_unfold.
  destruct (Hfills temp (advance m d1 [d1] [EvMkdir (Path.dirname target)] 1)
              eq_refl) as [(e & ->) | (data & -> & ->)].
  { rewrite advance_advance. cbn [fst snd app].
    rewrite new_events_advance, new_observed_advance.
    split; [now exists 2%nat |]. split; [| discriminate].
    intros d Hd. apply list_elem_of_singleton in Hd as ->. now left. }
  rewrite advance_advance. cbn [app Nat.add].
  rewrite fs_rename_run, !disk_advance. cbn [put_file files dirs].
  rewrite lookup_insert_eq. cbv zeta.
  assert (∀ d, d ∈ d1 :: write_stages temp data d1 →
               files d !! target = files (disk m) !! target) as Hstages.
  { intros d Hd. apply elem_of_cons in Hd as [-> | Hd]; [reflexivity |].
    now rewrite (write_stages_elsewhere temp data d1 target d). }
  repeat case_bool_decide; cbn [fst snd];
    rewrite !advance_advance; cbn [app Nat.add];
    rewrite new_events_advance, new_observed_advance, ?disk_advance.
  - rewrite app_nil_r.
    split; [now exists 3%nat |]. split; [| discriminate].
    intros d Hd. left. now apply Hstages.
  - cbn [files dirs].
    split; [now exists 3%nat |]. split.
    + intros d Hd. rewrite app_comm_cons in Hd.
      apply elem_of_app in Hd as [Hd | Hd]; [left; now apply Hstages |].
      apply list_elem_of_singleton in Hd as ->. right. cbn [files].
      split; [now eexists | apply lookup_insert_eq].
    + intros _. split; [reflexivity |].
      split; [apply elem_of_union_l, elem_of_singleton; reflexivity |].
      split; [now eexists |].
      split; [apply lookup_insert_eq |].
      rewrite lookup_insert_ne by (intros Heq; now apply Hfresh).
      apply lookup_delete_eq.
  - rewrite app_nil_r.
    split; [now exists 3%nat |]. split; [| discriminate].
    intros d Hd. left. now apply Hstages.
Qed.

(** [encodeWithSharp] for a format its [switch] knows. *)
Lemma encodeWithSharp_configured env encoder input output quality call m :
  sharp_call (id encoder) quality = Some call →
  encodeWithSharp env encoder input output quality m
  = (tempPath ← getTempPath env output;
     ensureDir (Path.dirname output) ≫= λ _,
     sharp_toFile env call input tempPath ≫= λ _, fs_rename tempPath output) m.
Proof.
  unfold encodeWithSharp, sharp_call.
  destruct (id encoder); intros [= <-]; reflexivity.
Qed.

(** ... and for one it does not know: the directory is made, then the
    [default] branch throws. *)
Lemma encodeWithSharp_unconfigured env encoder input output quality m :
  sharp_call (id encoder) quality = None →
  encodeWithSharp env encoder input output quality m
  = (tempPath ← getTempPath env output;
     ensureDir (Path.dirname output) ≫= λ _,
     throw ("Sharp encoder not configured for " +:+ id_string (id encoder))) m.
Proof.
  unfold encodeWithSharp, sharp_call.
  destruct (id encoder); intros [=]; reflexivity.
Qed.

Lemma encodeWithSharp_written env encoder input output quality m :
  written_atomically output (temp_path env output (ticks m))
    (sharp_output env (id encoder) quality (disk m) input)
    (EvSharpToFile input (temp_path env output (ticks m))) m
    (encodeWithSharp env encoder input output quality m)
  ∧ (sharp_call (id encoder) quality = None →
     returns (encodeWithSharp env encoder input output quality m).1 = false
     ∧ files (disk (encodeWithSharp env encoder input output quality m).2)
       = files (disk m)).
Proof.
  unfold sharp_output.
  destruct (sharp_call (id encoder) quality) as [call |] eqn:Hcall.
  - split; [| discriminate].
    rewrite (encodeWithSharp_configured _ _ _ _ _ call) by exact Hcall.
    apply (atomic_sequence_name_first env output _ (EvSharpToFile input)
             (sharp_toFile env call input)).
    apply sharp_toFile_fills.
  - rewrite encodeWithSharp_unconfigured by exact Hcall.
    rewrite bind_unfold, getTempPath_run.
    unfold ensureDir. rewrite bind_unfold, mkdir_run, disk_advance.
    unfold written_atomically.
    destruct (files (disk m) !! Path.dirname output) as [existing |];
      cbv beta iota zeta; unfold throw;
      rewrite !advance_advance; cbn [fst snd app];
      rewrite new_events_advance, new_observed_advance.
    + split; [| now split].
      split; [now exists 1%nat |]. split; [intros d Hd; inversion Hd |].
      discriminate.
    + split; [| now split].
      split; [now exists 1%nat |]. split; [| discriminate].
      intros d Hd. apply list_elem_of_singleton in Hd as ->. now left.
Qed.


Lemma sharp_entries_configured (support : SquooshSupport) (quality : Q) :
  Forall (λ e, encoderType e = sharp → is_Some (sharp_call (id e) quality))
    (getMenuOptions support).
Proof.
  unfold getMenuOptions.
  repeat (apply Forall_cons; split); [.. | constructor];
    cbn [id encoderType sharp_call];
    repeat match goal with
           | |- context [if ?b then _ else _] => destruct b
           end;
    intros H; (discriminate H || now eexists).
Qed.

Lemma squoosh_entries_have_codec (support : SquooshSupport) :
  Forall (λ e, encoderType e = squoosh → squooshCodec e = Some (id_string (id e)))
    (getMenuOptions support).
Proof.
  unfold getMenuOptions.
  repeat (apply Forall_cons; split); [.. | constructor];
    cbn [id encoderType squooshCodec id_string];
    repeat match goal with
           | |- context [if ?b then _ else _] => destruct b
           end;
    intros H; (discriminate H || reflexivity).
Qed.

Lemma id_string_nonempty i : id_string i ≠ "".
Proof. destruct i; discriminate. Qed.

Lemma encodeWithSharp_reaches_sharp env encoder input output quality call m :
  sharp_call (id encoder) quality = Some call →
  files (disk m) !! Path.dirname output = None →
  EvSharpToFile input (temp_path env output (ticks m))
  ∈ new_events m (encodeWithSharp env encoder input output quality m).2.
Proof.
  intros Hcall Hdir.
  rewrite (encodeWithSharp_configured _ _ _ _ _ call) by exact Hcall.
  rewrite bind_unfold, getTempPath_run.
  change (output +:+ ".tmp-" +:+ decimal (pid env) +:+ "-"
          +:+ decimal (now env (ticks m)) +:+ "-"
          +:+ hex (random_digits env (ticks m)))
    with (temp_path env output (ticks m)).
  set (temp := temp_path env output (ticks m)).
  unfold ensureDir. rewrite bind_unfold, mkdir_run, disk_advance, Hdir.
  cbv beta iota zeta. rewrite advance_advance. cbn [app Nat.add].
  rewrite bind_unfold.
  match goal with
  | |- context [sharp_toFile env call input temp ?m1] =>
      destruct (silent_sharp_toFile env call input temp m1) as (evs1 & He1 & _);
      pose proof (sharp_toFile_run env call input temp m1) as Hrun;
      destruct (sharp_toFile env call input temp m1) as [[[] | msg] m2]
  end.
  - destruct (silent_fs_rename temp output m2) as (evs2 & He2 & _).
    assert (∃ evs, evs1 = EvSharpToFile input temp :: evs) as [evs ->].
    { cbv zeta in Hrun. cbn [disk advance] in Hrun.
      repeat match type of Hrun with
             | context [match ?x with _ => _ end] => destruct x
             end; try discriminate Hrun;
        injection Hrun as ->; cbn [events advance] in He1;
        apply app_inv_head in He1; eauto. }
    unfold new_events. rewrite He2. cbn [snd] in He1. rewrite He1.
    cbn [events advance]. rewrite <- !app_assoc, drop_app_length.
    cbn [app]. right. now left.
  - assert (∃ evs, evs1 = EvSharpToFile input temp :: evs) as [evs ->].
    { cbv zeta in Hrun. cbn [disk advance] in Hrun.
      repeat match type of Hrun with
             | context [match ?x with _ => _ end] => destruct x
             end; try discriminate Hrun;
        injection Hrun as _ ->; cbn [events advance] in He1;
        apply app_inv_head in He1; eauto. }
    unfold new_events. cbn [snd] in He1 |- *. rewrite He1.
    cbn [events advance]. rewrite <- !app_assoc, drop_app_length.
    cbn [app]. right. now left.
Qed.

Lemma encodeWithSquoosh_calls_codec env encoder codec buffer output quality m :
  squooshCodec encoder = Some codec → codec ≠ "" →
  ∃ rest,
    new_events m (encodeWithSquoosh env encoder buffer output quality m).2
    = EvSquooshEncode codec (getSquooshEncodeOptions (id encoder) quality) buffer
      :: rest.
Proof.
  intros Hcodec Hne. unfold encodeWithSquoosh. rewrite Hcodec.
  rewrite bool_decide_eq_false_2 by exact Hne.
  rewrite bind_unfold. unfold pool_encode. rewrite bind_unfold, emit_run.
  set (ev := EvSquooshEncode _ _ _).
  destruct (squoosh_encode env _ _ buffer) as [[[binary |] |] | msg];
    cbn [mret M_ret throw];
    try (unfold throw; cbn [snd]; rewrite new_events_advance; now exists []).
  destruct (silent_writeFileAtomic env output binary (advance m (disk m) [] [ev] 0))
    as (evs & He & _).
  exists evs. unfold new_events. rewrite He. cbn [events advance].
  now rewrite <- app_assoc, drop_app_length.
Qed.

(** X14.  The catalog never sends a format to an encoder that does not know
    it.  For an entry whose strategy is [sharp], [encodeWithSharp] has a
    pipeline: whenever the output directory can be made, sharp is called on
    the temporary file.  For an entry whose strategy is [squoosh],
    [encodeWithSquoosh] has a codec: the pool is always handed the input
    with the options [getSquooshEncodeOptions] gives for the format. *)
Theorem catalog_entries_reach_their_encoder (support : SquooshSupport) :
  Forall (λ e,
      (encoderType e = sharp →
       ∀ env input output quality m,
         files (disk m) !! Path.dirname output = None →
         EvSharpToFile input (temp_path env output (ticks m))
         ∈ new_events m (encodeWithSharp env e input output quality m).2)
      ∧ (encoderType e = squoosh →
         ∀ env buffer output quality m,
           EvSquooshEncode (id_string (id e))
             (getSquooshEncodeOptions (id e) quality) buffer
           ∈ new_events m (encodeWithSquoosh env e buffer output quality m).2))
    (getMenuOptions support).
Proof.
  pose proof (squoosh_entries_have_codec support) as Hcodec.
  assert (Forall (λ e, ∀ quality,
                    encoderType e = sharp → is_Some (sharp_call (id e) quality))
            (getMenuOptions support)) as Hcall.
  { apply Forall_forall. intros e He quality.
    pose proof (sharp_entries_configured support quality) as H.
    rewrite Forall_forall in H. now apply H. }
  rewrite Forall_forall in Hcodec, Hcall. apply Forall_forall. intros e He.
  split.
  - intros Htype env input output quality m Hdir.
    destruct (Hcall e He quality Htype) as [call Hc].
    now apply (encodeWithSharp_reaches_sharp _ _ _ _ _ call).
  - intros Htype env buffer output quality m.
    destruct (encodeWithSquoosh_calls_codec env e (id_string (id e)) buffer output
                quality m (Hcodec e He Htype) (id_string_nonempty _))
      as [rest ->].
    now left.
Qed.

(** What holds of a call that threw after making only calls that write
    nowhere. *)
Definition nothing_written (output : string) (content : option Buffer)
    (m : Machine) (out : Result unit * Machine) : Prop :=
  (out.1 = Ok tt → is_Some content ∧ files (disk out.2) !! output = content)
  ∧ (content = None →
     returns out.1 = false ∧ disk out.2 = disk m ∧ new_observed m out.2 = [])
  ∧ (∀ d, d ∈ new_observed m out.2 →
       files d !! output = files (disk m) !! output
       ∨ files d !! output = content)
  ∧ Forall (λ ev, writes_into output ev = false) (new_events m out.2).

Lemma thrown_nothing_written output m msg evs :
  Forall (λ ev, writes_into output ev = false) evs →
  nothing_written output None m (Throw msg, advance m (disk m) [] evs 0).
Proof.
  intros Hevs. unfold nothing_written. cbn [fst snd].
  rewrite new_observed_advance, new_events_advance, disk_advance.
  split; [discriminate |]. split; [now intros _ |].
  split; [intros d Hd; inversion Hd | exact Hevs].
Qed.

Lemma encodeWithSquoosh_written env encoder buffer output quality m :
  nothing_written output (squoosh_output env encoder quality buffer) m
    (encodeWithSquoosh env encoder buffer output quality m).
Proof.
  unfold encodeWithSquoosh, squoosh_output.
  destruct (squooshCodec encoder) as [codec |].
  2: { unfold throw. rewrite <- (advance_id m) at 2.
       apply thrown_nothing_written. constructor. }
  case_bool_decide as Hcodec.
  { unfold throw. rewrite <- (advance_id m) at 2.
    apply thrown_nothing_written. constructor. }
  rewrite bind_unfold. unfold pool_encode.
  rewrite bind_unfold, emit_run.
  set (ev := EvSquooshEncode codec _ buffer).
  destruct (squoosh_encode env codec _ buffer) as [[[binary |] |] | msg];
    cbn [mret M_ret];
    try (unfold throw; apply thrown_nothing_written; now repeat constructor).
  set (m1 := advance m (disk m) [] [ev] 0).
  pose proof (atomic_sequence env output (Some binary)
                (λ p, EvWriteFile p binary) (λ p, fs_writeFile p binary) m1
                (fs_writeFile_fills binary m1)) as Hatomic.
  fold (writeFileAtomic env output binary) in Hatomic.
  destruct (silent_writeFileAtomic env output binary m1) as (evs & He & _).
  assert (new_observed m (writeFileAtomic env output binary m1).2
          = new_observed m1 (writeFileAtomic env output binary m1).2) as Hobs.
  { unfold new_observed, m1, advance. cbn [observed]. now rewrite app_nil_r. }
  assert (new_events m (writeFileAtomic env output binary m1).2
          = ev :: new_events m1 (writeFileAtomic env output binary m1).2) as Hevs.
  { rewrite (new_events_app _ _ _ He). unfold new_events. rewrite He.
    unfold m1. cbn [events advance]. now rewrite <- app_assoc, drop_app_length. }
  pose proof (written_atomically_never_direct _ _ _ _ _ _ Hatomic) as Hdirect.
  destruct Hatomic as (_ & Hseen & Hdone).
  split; [| split; [discriminate | split]].
  - intros Hok. destruct (Hdone Hok) as (_ & _ & Hsome & Hfile & _).
    now split.
  - intros d Hd. rewrite Hobs in Hd. destruct (Hseen d Hd) as [Hd' | [_ Hd']].
    + left. exact Hd'.
    + right. exact Hd'.
  - rewrite Hevs. constructor; [reflexivity |]. apply Hdirect.
    cbn [writes_into]. apply bool_decide_eq_false_2. apply temp_path_fresh.
Qed.


(** *** One job *)

(** The output path of the job of an input file and an encoder. *)
Definition job_output (env : Env) (params : Params) (f : string)
    (e : EncoderOption) : string :=
  buildOutputPath env f (inputRoot params) (outputRoot params) (isDirectory params)
    (if decide (id e = original) then getOriginalExtension f else ext e).

(** What the job is to leave there, on the disk [d] it starts from: the
    input itself, what sharp makes of it, or what the codec makes of the
    buffer, loaded or read. *)
Definition job_content (env : Env) (params : Params) (pool : bool) (f : string)
    (e : EncoderOption) (ib : option Buffer) (d : Disk) : option Buffer :=
  match encoderType e with
  | Encoders.copy => files d !! f
  | Encoders.sharp =>
      sharp_output env (id e) (getQualityForEncoder e (quality params)) d f
  | Encoders.squoosh =>
      if pool then
        match (match ib with Some b => Some b | None => files d !! f end) with
        | Some buffer =>
            squoosh_output env e (getQualityForEncoder e (quality params)) buffer
        | None => None
        end
      else None
  | Encoders.unsupported => None
  end.

(** A call that left at [output] what was there or the whole [content],
    and wrote into [output] with no call of its own. *)
Definition whole_or_none (output : string) (content : option Buffer)
    (m : Machine) (out : Result unit * Machine) : Prop :=
  (out.1 = Ok tt → is_Some content ∧ files (disk out.2) !! output = content)
  ∧ (∀ d, d ∈ new_observed m out.2 →
       files d !! output = files (disk m) !! output
       ∨ files d !! output = content)
  ∧ Forall (λ ev, writes_into output ev = false) (new_events m out.2).

Lemma written_whole_or_none output temp content put m out :
  written_atomically output temp content put m out →
  writes_into output put = false →
  whole_or_none output content m out.
Proof.
  intros Hatomic Hput.
  pose proof (written_atomically_never_direct _ _ _ _ _ _ Hatomic Hput) as Hdirect.
  destruct Hatomic as (_ & Hseen & Hdone).
  split; [| split; [| exact Hdirect]].
  - intros Hok. destruct (Hdone Hok) as (_ & _ & Hsome & Hfile & _). now split.
  - intros d Hd. destruct (Hseen d Hd) as [Hd' | [_ Hd']]; [now left | now right].
Qed.

(** X28.  Every job is atomic at its output path, whatever its strategy
    and however it ends.  A job returns to the loop with an outcome; no
    call of it writes into its output path; whoever looks at the disk while
    it runs finds at the output path what was there before the job or the
    whole result, never a part of it; and when the job succeeded, the
    output path holds the whole result: the input's bytes for a copy, what
    sharp made of the input file, or the binary the codec returned for the
    buffer. *)
Theorem job_leaves_whole_output_or_none env params pool (f : string) e ib m :
  let output := job_output env params f e in
  let content := job_content env params pool f e ib (disk m) in
  ∃ ib' outcome m',
    dispatch env params pool f e ib m = (Ok (ib', outcome), m')
    ∧ (encoderType e ≠ Encoders.unsupported → outcome = Ok tt →
       is_Some content ∧ files (disk m') !! output = content)
    ∧ (∀ d, d ∈ new_observed m m' →
         files d !! output = files (disk m) !! output
         ∨ files d !! output = content)
    ∧ Forall (λ ev, writes_into output ev = false) (new_events m m').
Proof.
  intros output. cbv zeta.
  assert (∀ (P : Prop) content (c : M unit) (ib' : option Buffer),
            whole_or_none output content m (c m) →
            ∃ outcome m',
              (attempt c ≫= λ r, mret (ib', r)) m = (Ok (ib', outcome), m')
              ∧ (P → outcome = Ok tt →
                 is_Some content ∧ files (disk m') !! output = content)
              ∧ (∀ d, d ∈ new_observed m m' →
                   files d !! output = files (disk m) !! output
                   ∨ files d !! output = content)
              ∧ Forall (λ ev, writes_into output ev = false) (new_events m m'))
    as Hwrap.
  { intros P content c ib' (Hdone & Hseen & Hdirect).
    rewrite bind_unfold. unfold attempt.
    destruct (c m) as [r m'] eqn:Hc. cbn [fst snd] in *.
    exists r, m'. split; [reflexivity |].
    split; [intros _; exact Hdone |]. now split. }
  assert (∀ content : option Buffer,
            (∀ d, d ∈ new_observed m m →
               files d !! output = files (disk m) !! output
               ∨ files d !! output = content)
            ∧ Forall (λ ev, writes_into output ev = false) (new_events m m))
    as Hidle.
  { intros content. unfold new_observed, new_events. rewrite !drop_all.
    split; [intros d Hd; inversion Hd | constructor]. }
  unfold dispatch. fold (job_output env params f e). fold output.
  unfold job_content.
  destruct (encoderType e) eqn:Htype.
  - (* squoosh *)
    destruct pool; cbn [negb].
    2: { eexists ib, _, m. split; [reflexivity |].
         split; [intros _ H; discriminate H | apply Hidle]. }
    destruct ib as [b |].
    + rewrite bind_unfold. unfold attempt at 1. cbn [mret M_ret].
      exists (Some b). apply Hwrap.
      pose proof (encodeWithSquoosh_written env e b output
                    (getQualityForEncoder e (quality params)) m)
        as (Hdone & _ & Hseen & Hdirect).
      split; [exact Hdone | split; [exact Hseen | exact Hdirect]].
    + rewrite bind_unfold. unfold attempt at 1.
      rewrite CliSpec.fs_readFile_run.
      set (m1 := CliSpec.read_event m f).
      assert (∀ m', new_observed m m' = new_observed m1 m') as Hobs
        by reflexivity.
      destruct (files (disk m) !! f) as [data |].
      * rewrite bind_unfold.
        pose proof (encodeWithSquoosh_written env e data output
                      (getQualityForEncoder e (quality params)) m1)
          as (Hdone & _ & Hseen & Hdirect).
        destruct (silent_encodeWithSquoosh env e data output
                    (getQualityForEncoder e (quality params)) m1)
          as (evs & He & _).
        unfold attempt.
        destruct (encodeWithSquoosh env e data output _ m1) as [r m'].
        cbn [fst snd] in *.
        exists (Some data), r, m'. split; [reflexivity |].
        split; [intros _; exact Hdone |]. split; [exact Hseen |].
        rewrite (new_events_app _ _ _ He) in Hdirect.
        assert (new_events m m' = EvReadFile f :: evs) as ->.
        { unfold new_events. rewrite He. unfold m1, CliSpec.read_event,
            DetectSpec.add_events. cbn [events].
          rewrite <- app_assoc. apply drop_app_length. }
        constructor; [reflexivity | exact Hdirect].
      * exists None, (Throw "ENOENT"), m1. split; [reflexivity |].
        split; [intros _ H; discriminate H |].
        unfold new_observed, new_events, m1, CliSpec.read_event,
          DetectSpec.add_events.
        cbn [events observed]. rewrite drop_all, drop_app_length.
        split; [intros d Hd; inversion Hd | now repeat constructor].
  - (* sharp *)
    exists ib. apply Hwrap.
    destruct (encodeWithSharp_written env e f output
                (getQualityForEncoder e (quality params)) m) as [Hatomic _].
    apply (written_whole_or_none _ _ _ _ _ _ Hatomic).
    cbn [writes_into]. apply bool_decide_eq_false_2. apply temp_path_fresh.
  - (* copy *)
    exists ib. apply Hwrap.
    pose proof (atomic_sequence env output (files (disk m) !! f)
                  (EvCopyFile f) (fs_copyFile f) m (fs_copyFile_fills f m))
      as Hatomic.
    fold (copyFileAtomic env f output) in Hatomic.
    apply (written_whole_or_none _ _ _ _ _ _ Hatomic).
    cbn [writes_into]. apply bool_decide_eq_false_2. apply temp_path_fresh.
  - (* unsupported: nothing to do *)
    eexists ib, _, m. split; [reflexivity |].
    split; [intros H; now destruct H | apply Hidle].
Qed.

End EncodeSpec.

(** ** The batch as a whole *)

Module BatchSpec.
Import Js World Encoders Fs Process MachineFacts ProcessSpec FsSpec.

(** *** Calls of one kind among the events *)

Definition is_pool_event (ev : Event) : bool :=
  match ev with
  | EvImportSquoosh | EvNewImagePool _ | EvClosePool => true
  | _ => false
  end.

Definition is_read_event (ev : Event) : bool :=
  match ev with
  | EvReadFile _ => true
  | _ => false
  end.

Section Tracking.

(** The kind of call looked for: among those about the pool and the reads. *)
Variable track : Event → bool.
Hypothesis track_few :
  ∀ ev, track ev = true → is_pool_event ev = true ∨ is_read_event ev = true.

Definition tracked (evs : list Event) : list Event := List.filter track evs.

Lemma tracked_app evs1 evs2 : tracked (evs1 ++ evs2) = tracked evs1 ++ tracked evs2.
Proof. apply List.filter_app. Qed.

(** A computation that only adds events, none of the kind looked for. *)
Definition calm {A} (c : M A) : Prop :=
  ∀ m, ∃ evs, events (c m).2 = events m ++ evs ∧ tracked evs = [].

Lemma calm_ret {A} (a : A) : calm (mret a : M A).
Proof. intros m. exists []. split; [symmetry; apply app_nil_r | reflexivity]. Qed.

Lemma calm_throw {A} msg : calm (throw msg : M A).
Proof. intros m. exists []. split; [symmetry; apply app_nil_r | reflexivity]. Qed.

Lemma calm_bind {A B} (c : M A) (k : A → M B) :
  calm c → (∀ a, calm (k a)) → calm (c ≫= k).
Proof.
  intros Hc Hk m. rewrite bind_unfold.
  destruct (Hc m) as (evs1 & He1 & Hp1).
  destruct (c m) as [[a | e] m1]; simpl in He1.
  - destruct (Hk a m1) as (evs2 & He2 & Hp2).
    exists (evs1 ++ evs2). split.
    + rewrite He2, He1. symmetry. apply app_assoc.
    + rewrite tracked_app, Hp1, Hp2. reflexivity.
  - exists evs1. split; assumption.
Qed.

Lemma calm_try_catch {A} (c : M A) (h : string → M A) :
  calm c → (∀ e, calm (h e)) → calm (try_catch c h).
Proof.
  intros Hc Hh m. unfold try_catch.
  destruct (Hc m) as (evs1 & He1 & Hp1).
  destruct (c m) as [[a | e] m1]; simpl in He1.
  - exists evs1. split; assumption.
  - destruct (Hh e m1) as (evs2 & He2 & Hp2).
    exists (evs1 ++ evs2). split.
    + rewrite He2, He1. symmetry. apply app_assoc.
    + rewrite tracked_app, Hp1, Hp2. reflexivity.
Qed.

Lemma calm_attempt {A} (c : M A) : calm c → calm (attempt c).
Proof.
  intros Hc m. unfold attempt.
  destruct (Hc m) as (evs1 & He1 & Hp1).
  destruct (c m) as [r m1]. exists evs1. split; assumption.
Qed.

Lemma calm_emit e : track e = false → calm (emit e).
Proof.
  intros He m. exists [e]. split; [reflexivity |].
  unfold tracked. cbn [List.filter]. now rewrite He.
Qed.

(** A call that is neither about the pool nor a read is not looked for. *)
Lemma calm_emit_other e :
  is_pool_event e = false → is_read_event e = false → calm (emit e).
Proof.
  intros Hpool Hread. apply calm_emit.
  destruct (track e) eqn:He; [| reflexivity].
  destruct (track_few e He) as [H | H]; congruence.
Qed.

Lemma calm_get_disk : calm get_disk.
Proof. intros m. exists []. split; [symmetry; apply app_nil_r | reflexivity]. Qed.

Lemma calm_set_disk d : calm (set_disk d).
Proof. intros m. exists []. split; [symmetry; apply app_nil_r | reflexivity]. Qed.

Lemma calm_next_tick : calm next_tick.
Proof. intros m. exists []. split; [symmetry; apply app_nil_r | reflexivity]. Qed.

Lemma calm_set_disks ds : calm (set_disks ds).
Proof.
  induction ds as [| d ds IH]; simpl.
  - apply calm_ret.
  - apply calm_bind; [apply calm_set_disk | intros _; exact IH].
Qed.

Ltac calm_step :=
  match goal with
  | |- calm (mbind _ _) => apply calm_bind; [| intros ?]
  | |- calm (try_catch _ _) => apply calm_try_catch; [| intros ?]
  | |- calm (attempt _) => apply calm_attempt
  | |- calm (emit _) => apply calm_emit_other; reflexivity
  | |- calm (mret _) => apply calm_ret
  | |- calm (throw _) => apply calm_throw
  | |- calm get_disk => apply calm_get_disk
  | |- calm (set_disk _) => apply calm_set_disk
  | |- calm (set_disks _) => apply calm_set_disks
  | |- calm next_tick => apply calm_next_tick
  | |- calm (match ?x with _ => _ end) => destruct x
  | |- calm (if ?b then _ else _) => destruct b
  | |- calm _ => assumption
  end.
Ltac solve_calm := repeat calm_step.

Lemma calm_write_bytes p data : calm (write_bytes p data).
Proof. unfold write_bytes. solve_calm. Qed.

Lemma calm_fs_mkdir_recursive dir : calm (fs_mkdir_recursive dir).
Proof. unfold fs_mkdir_recursive. solve_calm. Qed.

Lemma calm_fs_writeFile p data : calm (fs_writeFile p data).
Proof. unfold fs_writeFile. solve_calm. apply calm_write_bytes. Qed.

Lemma calm_fs_copyFile src dst : calm (fs_copyFile src dst).
Proof. unfold fs_copyFile. solve_calm. apply calm_write_bytes. Qed.

Lemma calm_fs_rename src dst : calm (fs_rename src dst).
Proof. unfold fs_rename. solve_calm. Qed.

Lemma calm_pool_encode env codec options input :
  calm (pool_encode env codec options input).
Proof. unfold pool_encode. solve_calm. Qed.

Lemma calm_sharp_toFile env call input output :
  calm (sharp_toFile env call input output).
Proof. unfold sharp_toFile. solve_calm. apply calm_write_bytes. Qed.

Lemma calm_getTempPath env target : calm (getTempPath env target).
Proof. unfold getTempPath. solve_calm. Qed.

Lemma calm_writeFileAtomic env target data : calm (writeFileAtomic env target data).
Proof.
  unfold writeFileAtomic, ensureDir.
  apply calm_bind; [apply calm_fs_mkdir_recursive | intros _].
  apply calm_bind; [apply calm_getTempPath | intros temp].
  apply calm_bind; [apply calm_fs_writeFile | intros _].
  apply calm_fs_rename.
Qed.

Lemma calm_copyFileAtomic env src target : calm (copyFileAtomic env src target).
Proof.
  unfold copyFileAtomic, ensureDir.
  apply calm_bind; [apply calm_fs_mkdir_recursive | intros _].
  apply calm_bind; [apply calm_getTempPath | intros temp].
  apply calm_bind; [apply calm_fs_copyFile | intros _].
  apply calm_fs_rename.
Qed.

Lemma calm_encodeWithSharp env encoder input output q :
  calm (encodeWithSharp env encoder input output q).
Proof.
  unfold encodeWithSharp, ensureDir.
  apply calm_bind; [apply calm_getTempPath | intros temp].
  apply calm_bind; [apply calm_fs_mkdir_recursive | intros _].
  apply calm_bind; [destruct (id encoder); (apply calm_ret || apply calm_throw) |].
  intros call.
  apply calm_bind; [apply calm_sharp_toFile | intros _].
  apply calm_fs_rename.
Qed.

Lemma calm_encodeWithSquoosh env encoder buffer output q :
  calm (encodeWithSquoosh env encoder buffer output q).
Proof.
  unfold encodeWithSquoosh.
  destruct (squooshCodec encoder) as [codec |]; [| apply calm_throw].
  case_bool_decide; [apply calm_throw |].
  apply calm_bind; [apply calm_pool_encode | intros [[binary |] |]];
    (apply calm_writeFileAtomic || apply calm_throw).
Qed.

(** Reads are not looked for: then reading a file is calm too. *)
Lemma calm_fs_readFile p :
  (∀ q, track (EvReadFile q) = false) → calm (fs_readFile p).
Proof.
  intros Hread. unfold fs_readFile.
  apply calm_bind; [now apply calm_emit | intros _].
  solve_calm.
Qed.

(** A job that finds the input loaded, or needs no input. *)
Lemma calm_dispatch env params pool f e ib :
  (∀ q, track (EvReadFile q) = false) ∨ is_Some ib →
  calm (dispatch env params pool f e ib).
Proof.
  intros Hread. unfold dispatch. destruct (encoderType e).
  - destruct pool; cbn [negb]; [| apply calm_ret].
    apply calm_bind.
    + apply calm_attempt. destruct ib as [b |]; [apply calm_ret |].
      destruct Hread as [Hread | [b Hb]]; [| discriminate Hb].
      now apply calm_fs_readFile.
    + intros [buffer | msg]; [| apply calm_ret].
      apply calm_bind; [| intros r; apply calm_ret].
      apply calm_attempt, calm_encodeWithSquoosh.
  - apply calm_bind; [| intros r; apply calm_ret].
    apply calm_attempt, calm_encodeWithSharp.
  - apply calm_bind; [| intros r; apply calm_ret].
    apply calm_attempt, calm_copyFileAtomic.
  - apply calm_ret.
Qed.

End Tracking.

Definition pool_events (evs : list Event) : list Event := tracked is_pool_event evs.
Definition read_events (evs : list Event) : list Event := tracked is_read_event evs.

Lemma pool_events_app evs1 evs2 :
  pool_events (evs1 ++ evs2) = pool_events evs1 ++ pool_events evs2.
Proof. apply tracked_app. Qed.

Lemma read_events_app evs1 evs2 :
  read_events (evs1 ++ evs2) = read_events evs1 ++ read_events evs2.
Proof. apply tracked_app. Qed.

(** No job touches the pool's life. *)
Lemma pool_calm_dispatch env params pool f e ib :
  calm is_pool_event (dispatch env params pool f e ib).
Proof. apply calm_dispatch; [intros ev H; now left | now left]. Qed.

(** *** Counting outcomes *)

Definition all_ids : list EncoderId :=
  [avif; browser_gif; browser_jpeg; browser_png; jxl; mozjpeg;
   oxipng; qoi; webp; wp2; original].

(** The outputs counted over all formats. *)
Definition total_outputs (outputs : EncoderId → nat) : nat :=
  list_sum (map outputs all_ids).

(** The jobs a tally has accounted for: counted as output or listed as
    failure. *)
Definition accounted (t : Tally) : nat :=
  (total_outputs (outputs t) + length (failed t))%nat.

Lemma total_outputs_count i t :
  total_outputs (outputs (count_output i t)) = S (total_outputs (outputs t)).
Proof.
  unfold total_outputs, all_ids.
  cbn [map list_sum fold_right outputs count_output].
  destruct i;
    repeat match goal with
           | |- context [decide (?a = ?b)] =>
               destruct (decide (a = b)); try discriminate; try congruence
           end;
    lia.
Qed.

(** One job: it returns, and exactly one outcome is recorded for it, a
    counted output or a failure naming its input file. *)
Lemma encodeOne_account env params pool f e ib t m :
  ∃ ib' t' m' evs,
    encodeOne env params pool f e (ib, t) m = (Ok (ib', t'), m')
    ∧ events m' = events m ++ evs
    ∧ pool_events evs = []
    ∧ jobs_of evs = [job_mark f e]
    ∧ accounted t' = S (accounted t)
    ∧ ∃ extra, failed t' = failed t ++ extra ∧ Forall (λ x, file x = f) extra.
Proof.
  unfold encodeOne. rewrite bind_unfold. simpl.
  set (m1 := {| disk := disk m; observed := observed m;
                events := events m ++ [EvJob f (id_string (id e))];
                ticks := ticks m |}).
  rewrite bind_unfold.
  destruct (pool_calm_dispatch env params pool f e ib m1) as (evs' & He' & Hp').
  destruct (dispatch_returns_quietly env params pool f e ib m1)
    as ([ib' outcome] & m2 & evs & Hrun & He & Hj).
  rewrite Hrun in He' |- *. cbn [snd] in He'.
  assert (evs' = evs) as -> by (rewrite He in He'; now apply app_inv_head in He').
  exists ib'.
  destruct outcome as [[] | message]; simpl.
  - exists (count_output (id e) t), m2, (EvJob f (id_string (id e)) :: evs).
    split; [reflexivity |].
    split; [rewrite He; simpl; now rewrite <- app_assoc |].
    split; [exact Hp' |].
    split; [simpl; fold (jobs_of evs); now rewrite Hj |].
    split.
    + unfold accounted. rewrite total_outputs_count. reflexivity.
    + exists []. split; [symmetry; apply app_nil_r | constructor].
  - eexists _, m2, (EvJob f (id_string (id e)) :: evs).
    split; [reflexivity |].
    split; [rewrite He; simpl; now rewrite <- app_assoc |].
    split; [exact Hp' |].
    split; [simpl; fold (jobs_of evs); now rewrite Hj |].
    split.
    + unfold accounted. cbn [outputs failed record_failure].
      rewrite length_app. simpl. lia.
    + eexists. split; [reflexivity |]. now repeat constructor.
Qed.

Lemma encodeAll_account env params pool f active : ∀ ib t m,
  ∃ ib' t' m' evs,
    encodeAll env params pool f active (ib, t) m = (Ok (ib', t'), m')
    ∧ events m' = events m ++ evs
    ∧ pool_events evs = []
    ∧ jobs_of evs = map (job_mark f) active
    ∧ accounted t' = (accounted t + length active)%nat
    ∧ ∃ extra, failed t' = failed t ++ extra ∧ Forall (λ x, file x = f) extra.
Proof.
  induction active as [| e rest IH]; intros ib t m.
  - exists ib, t, m, []. repeat split; try (symmetry; apply app_nil_r).
    + simpl. lia.
    + exists []. split; [symmetry; apply app_nil_r | constructor].
  - cbn [encodeAll]. rewrite bind_unfold.
    destruct (encodeOne_account env params pool f e ib t m)
      as (ib1 & t1 & m1 & evs1 & -> & He1 & Hp1 & Hj1 & Ha1 & x1 & Hf1 & Hx1).
    destruct (IH ib1 t1 m1)
      as (ib2 & t2 & m2 & evs2 & -> & He2 & Hp2 & Hj2 & Ha2 & x2 & Hf2 & Hx2).
    exists ib2, t2, m2, (evs1 ++ evs2).
    split; [reflexivity |].
    split; [rewrite He2, He1; symmetry; apply app_assoc |].
    split; [rewrite pool_events_app, Hp1, Hp2; reflexivity |].
    split; [rewrite jobs_of_app, Hj1, Hj2; reflexivity |].
    split; [rewrite Ha2, Ha1; simpl; lia |].
    exists (x1 ++ x2). split; [rewrite Hf2, Hf1; symmetry; apply app_assoc |].
    now apply Forall_app.
Qed.

Lemma runTasks_account env params pool active files : ∀ t m,
  ∃ t' m' evs,
    runTasks env params pool active files t m = (Ok t', m')
    ∧ events m' = events m ++ evs
    ∧ pool_events evs = []
    ∧ jobs_of evs = jobs_for files active
    ∧ accounted t' = (accounted t + length files * length active)%nat
    ∧ ∃ extra, failed t' = failed t ++ extra ∧ Forall (λ x, file x ∈ files) extra.
Proof.
  induction files as [| f rest IH]; intros t m.
  - exists t, m, []. repeat split; try (symmetry; apply app_nil_r).
    + simpl. lia.
    + exists []. split; [symmetry; apply app_nil_r | constructor].
  - cbn [runTasks]. rewrite bind_unfold. unfold task at 1. rewrite bind_unfold.
    destruct (encodeAll_account env params pool f active None t m)
      as (ib1 & t1 & m1 & evs1 & -> & He1 & Hp1 & Hj1 & Ha1 & x1 & Hf1 & Hx1).
    cbn [snd]. unfold mret, M_ret.
    destruct (IH (file_done t1) m1)
      as (t2 & m2 & evs2 & -> & He2 & Hp2 & Hj2 & Ha2 & x2 & Hf2 & Hx2).
    exists t2, m2, (evs1 ++ evs2).
    split; [reflexivity |].
    split; [rewrite He2, He1; symmetry; apply app_assoc |].
    split; [rewrite pool_events_app, Hp1, Hp2; reflexivity |].
    split; [rewrite jobs_of_app, Hj1, Hj2; reflexivity |].
    split.
    + rewrite Ha2. unfold accounted in *. cbn [outputs failed file_done length].
      rewrite Ha1. lia.
    + exists (x1 ++ x2). split.
      * rewrite Hf2. cbn [failed file_done]. rewrite Hf1.
        symmetry. apply app_assoc.
      * apply Forall_app. split.
        -- eapply Forall_impl; [exact Hx1 |]. intros x ->. now left.
        -- eapply Forall_impl; [exact Hx2 |]. intros x Hx. now right.
Qed.

(** *** Opening and closing the pool *)

(** Does a selected encoder still active need the codec pool? *)
Definition needs_pool (params : Params) : bool :=
  existsb (is_type squoosh) (selected_active params).

(** The pool is open during the jobs. *)
Definition pool_open (env : Env) (params : Params) : bool :=
  needs_pool params && pool_constructs env params.

(** The calls made to open the pool, before the first job. *)
Definition opening (env : Env) (params : Params) : list Event :=
  if needs_pool params then
    if import_ok env
    then [EvImportSquoosh; EvNewImagePool (effective_concurrency env params)]
    else [EvImportSquoosh]
  else [].

(** The call made to close it, after the last job. *)
Definition closing (env : Env) (params : Params) : list Event :=
  if pool_open env params then [EvClosePool] else [].

Lemma openPool_opening env params m :
  ∃ m',
    openPool env params (effective_concurrency env params)
      (selected_active params)
      (map (skip_all params) (selected_unsupported params)) m
    = (Ok (pool_open env params, final_active env params,
           final_unsupported env params), m')
    ∧ events m' = events m ++ opening env params.
Proof.
  unfold openPool, final_active, final_unsupported, pool_open, opening,
    needs_pool, pool_constructs.
  destruct (existsb (is_type squoosh) (selected_active params)) eqn:Hneeds.
  - unfold try_catch, import_squoosh. rewrite !bind_unfold. simpl.
    destruct (import_ok env); simpl.
    + unfold new_ImagePool. rewrite !bind_unfold. simpl.
      destruct (pool_ctor_ok env (effective_concurrency env params)); simpl.
      * eexists. rewrite app_nil_r. split; [reflexivity |].
        simpl. now rewrite <- app_assoc.
      * eexists. split; [reflexivity |]. simpl. now rewrite <- app_assoc.
    + eexists. split; reflexivity.
  - destruct (filter_no_squoosh _ Hneeds) as [-> ->].
    exists m. simpl.
    replace (if import_ok env && pool_ctor_ok env (effective_concurrency env params)
             then selected_active params else selected_active params)
      with (selected_active params) by (now destruct (_ && _)).
    replace (if import_ok env && pool_ctor_ok env (effective_concurrency env params)
             then @nil Skipped else [])
      with (@nil Skipped) by (now destruct (_ && _)).
    rewrite !app_nil_r. split; reflexivity.
Qed.

(** A batch, from the opening of the pool to its closing. *)
Lemma processImages_account env params m :
  (1 ≤ effective_concurrency env params)%Z →
  ∃ s m' work,
    processImages env params m = (Ok s, m')
    ∧ new_events m m' = opening env params ++ work ++ closing env params
    ∧ pool_events work = []
    ∧ jobs_of work = jobs_for (inputFiles params) (final_active env params)
    ∧ (total_outputs (outputsByEncoder s) + length (failures s))%nat
      = (length (inputFiles params) * length (final_active env params))%nat
    ∧ Forall (λ x, file x ∈ inputFiles params) (failures s).
Proof.
  intros Hc. unfold processImages.
  fold (effective_concurrency env params).
  fold (selected_active params). fold (selected_unsupported params).
  rewrite bind_unfold. unfold Date_now at 1. rewrite bind_unfold. simpl.
  set (m1 := {| disk := disk m; observed := observed m; events := events m;
                ticks := S (ticks m) |}).
  rewrite bind_unfold. unfold pLimit.
  rewrite bool_decide_eq_true_2 by exact Hc. simpl.
  rewrite bind_unfold.
  destruct (openPool_opening env params m1) as (m2 & -> & He1).
  rewrite bind_unfold.
  destruct (runTasks_account env params (pool_open env params)
              (final_active env params) (inputFiles params)
              {| outputs := λ _, 0%nat; failed := []; completed := 0 |} m2)
    as (t & m3 & work & -> & He2 & Hp2 & Hj2 & Ha2 & extra & Hf2 & Hx2).
  rewrite bind_unfold.
  assert (∃ m4, (if pool_open env params then pool_close else mret tt) m3 = (Ok tt, m4)
                ∧ events m4 = events m3 ++ closing env params)
    as (m4 & -> & He3).
  { unfold closing. destruct (pool_open env params).
    - eexists. split; reflexivity.
    - exists m3. split; [reflexivity | symmetry; apply app_nil_r]. }
  rewrite bind_unfold. unfold Date_now. rewrite bind_unfold. simpl.
  eexists _, _, work. split; [reflexivity |].
  cbn [outputsByEncoder failures].
  split; [| split; [exact Hp2 | split; [exact Hj2 | split]]].
  - unfold new_events. cbn [events]. rewrite He3, He2, He1. cbn [events m1].
    now rewrite <- !app_assoc, drop_app_length.
  - unfold accounted in Ha2. cbn [outputs failed] in Ha2.
    rewrite Ha2. unfold total_outputs, all_ids. simpl. lia.
  - cbn [failed] in Hf2. rewrite Hf2. exact Hx2.
Qed.

Lemma length_jobs_for files (active : list EncoderOption) :
  length (jobs_for files active) = (length files * length active)%nat.
Proof.
  unfold jobs_for. induction files as [| f files IH]; [reflexivity |].
  cbn [flat_map length]. rewrite length_app, length_map, IH. lia.
Qed.

(** X16.  Every job of a batch is accounted for exactly once.  With a
    concurrency [pLimit] accepts, the batch returns a summary whatever
    fails along the way, and the outputs counted over all formats plus the
    failures listed come to (input files) x (encoders still active); each
    failure names an input file of the batch. *)
Theorem every_job_counted_once env params m :
  (1 ≤ effective_concurrency env params)%Z →
  ∃ s m',
    processImages env params m = (Ok s, m')
    ∧ (total_outputs (outputsByEncoder s) + length (failures s))%nat
      = (length (inputFiles params) * length (final_active env params))%nat
    ∧ Forall (λ x, file x ∈ inputFiles params) (failures s)
    ∧ length (jobs_of (new_events m m'))
      = (length (inputFiles params) * length (final_active env params))%nat.
Proof.
  intros Hc.
  destruct (processImages_account env params m Hc)
    as (s & m' & work & Hrun & Hev & Hp & Hj & Hacc & Hfail).
  exists s, m'. split; [exact Hrun |]. split; [exact Hacc |].
  split; [exact Hfail |].
  rewrite Hev, !jobs_of_app, Hj.
  assert (jobs_of (opening env params) = []) as ->
    by (unfold opening; now destruct (needs_pool params), (import_ok env)).
  assert (jobs_of (closing env params) = []) as ->
    by (unfold closing; now destruct (pool_open env params)).
  rewrite app_nil_r. cbn [app]. apply length_jobs_for.
Qed.

Lemma every_job_counted_once_witness :
  ∃ s m',
    processImages Samples.sample_env Samples.sample_params Samples.sample_machine
    = (Ok s, m')
    ∧ (total_outputs (outputsByEncoder s) + length (failures s))%nat
      = (length (inputFiles Samples.sample_params)
         * length (final_active Samples.sample_env Samples.sample_params))%nat
    ∧ Forall (λ x, file x ∈ inputFiles Samples.sample_params) (failures s)
    ∧ length (jobs_of (new_events Samples.sample_machine m'))
      = (length (inputFiles Samples.sample_params)
         * length (final_active Samples.sample_env Samples.sample_params))%nat.
Proof.
  apply (every_job_counted_once Samples.sample_env Samples.sample_params
           Samples.sample_machine).
  vm_compute. discriminate.
Defined.

(** X17.  The life of the codec pool in a batch.  The library is imported
    and the pool constructed only when a selected encoder still active has
    the strategy [squoosh], and then before the first job, once; the pool is
    closed exactly when it was constructed, once, after the last job; and no
    job imports the library, constructs a pool or closes one. *)
Theorem pool_opened_and_closed_around_the_jobs env params m :
  (1 ≤ effective_concurrency env params)%Z →
  ∃ work,
    new_events m (processImages env params m).2
    = opening env params ++ work ++ closing env params
    ∧ pool_events work = []
    ∧ jobs_of work = jobs_for (inputFiles params) (final_active env params)
    ∧ pool_events (new_events m (processImages env params m).2)
      = opening env params ++ closing env params
    ∧ (needs_pool params = false →
       pool_events (new_events m (processImages env params m).2) = []).
Proof.
  intros Hc.
  destruct (processImages_account env params m Hc)
    as (s & m' & work & Hrun & Hev & Hp & Hj & _).
  rewrite Hrun. cbn [snd]. exists work.
  split; [exact Hev |]. split; [exact Hp |]. split; [exact Hj |].
  assert (pool_events (new_events m m') = opening env params ++ closing env params)
    as Hpool.
  { rewrite Hev, !pool_events_app, Hp. cbn [app].
    assert (pool_events (opening env params) = opening env params) as ->
      by (unfold opening; now destruct (needs_pool params), (import_ok env)).
    assert (pool_events (closing env params) = closing env params) as ->
      by (unfold closing; now destruct (pool_open env params)).
    reflexivity. }
  split; [exact Hpool |].
  intros Hneeds. rewrite Hpool. unfold opening, closing, pool_open.
  now rewrite Hneeds.
Qed.

Lemma pool_opened_and_closed_around_the_jobs_witness :
  ∃ work,
    new_events Samples.sample_machine
      (processImages Samples.sample_env Samples.sample_params
         Samples.sample_machine).2
    = opening Samples.sample_env Samples.sample_params ++ work
      ++ closing Samples.sample_env Samples.sample_params
    ∧ pool_events work = []
    ∧ jobs_of work
      = jobs_for (inputFiles Samples.sample_params)
          (final_active Samples.sample_env Samples.sample_params)
    ∧ pool_events
        (new_events Samples.sample_machine
           (processImages Samples.sample_env Samples.sample_params
              Samples.sample_machine).2)
      = opening Samples.sample_env Samples.sample_params
        ++ closing Samples.sample_env Samples.sample_params
    ∧ (needs_pool Samples.sample_params = false →
       pool_events
         (new_events Samples.sample_machine
            (processImages Samples.sample_env Samples.sample_params
               Samples.sample_machine).2) = []).
Proof.
  apply (pool_opened_and_closed_around_the_jobs Samples.sample_env
           Samples.sample_params Samples.sample_machine).
  vm_compute. discriminate.
Defined.

(** X18.  A concurrency below 1 ends the batch before it starts: [pLimit]
    throws, and no directory was made, no file read or written, no library
    loaded and no job run. *)
Theorem invalid_concurrency_stops_before_any_work env params m :
  (effective_concurrency env params < 1)%Z →
  (processImages env params m).1
  = Throw "Expected `concurrency` to be a number from 1 and up"
  ∧ new_events m (processImages env params m).2 = []
  ∧ new_observed m (processImages env params m).2 = []
  ∧ disk (processImages env params m).2 = disk m.
Proof.
  intros Hc. unfold processImages.
  fold (effective_concurrency env params).
  rewrite bind_unfold. unfold Date_now at 1. rewrite bind_unfold. simpl.
  rewrite bind_unfold. unfold pLimit.
  rewrite bool_decide_eq_false_2 by lia. unfold throw. cbn [fst snd].
  unfold new_events, new_observed. cbn [events observed disk].
  now rewrite !drop_all.
Qed.

Lemma invalid_concurrency_stops_before_any_work_witness :
  (processImages Samples.sample_env Hosts.params_no_worker Samples.sample_machine).1
  = Throw "Expected `concurrency` to be a number from 1 and up"
  ∧ new_events Samples.sample_machine
      (processImages Samples.sample_env Hosts.params_no_worker
         Samples.sample_machine).2 = []
  ∧ new_observed Samples.sample_machine
      (processImages Samples.sample_env Hosts.params_no_worker
         Samples.sample_machine).2 = []
  ∧ disk (processImages Samples.sample_env Hosts.params_no_worker
            Samples.sample_machine).2
    = disk Samples.sample_machine.
Proof.
  apply (invalid_concurrency_stops_before_any_work Samples.sample_env
           Hosts.params_no_worker Samples.sample_machine).
  vm_compute. reflexivity.
Defined.

(** X19.  Without [--concurrency] the batch runs with
    min(8, max(2, cores - 1)) workers, 2 when the host reports no core at
    all: a count from 2 to 8, which [pLimit] accepts, so the batch returns
    a summary. *)
Theorem default_concurrency_is_accepted env params m :
  concurrency params = None →
  effective_concurrency env params = defaultConcurrency env
  ∧ (2 ≤ defaultConcurrency env ≤ 8)%Z
  ∧ (cpus env = 0%nat → defaultConcurrency env = 2%Z)
  ∧ ((3 ≤ cpus env ≤ 9)%nat → defaultConcurrency env = (Z.of_nat (cpus env) - 1)%Z)
  ∧ ∃ s m',
      processImages env params m = (Ok s, m')
      ∧ totalInputs s = length (inputFiles params).
Proof.
  intros Hnone.
  assert (effective_concurrency env params = defaultConcurrency env) as Heff
    by (unfold effective_concurrency; now rewrite Hnone).
  pose proof (defaultConcurrency_range env) as Hrange.
  split; [exact Heff |]. split; [exact Hrange |].
  split; [| split].
  - intros Hcpus. unfold defaultConcurrency. rewrite Hcpus. reflexivity.
  - intros Hcpus. unfold defaultConcurrency. case_bool_decide; lia.
  - destruct (processImages_run env params m) as (s & m' & _ & Hrun & _ & _ & Htotal & _);
      [rewrite Heff; lia |].
    now exists s, m'.
Qed.

Lemma default_concurrency_is_accepted_witness :
  effective_concurrency Samples.sample_env Samples.sample_params
  = defaultConcurrency Samples.sample_env
  ∧ (2 ≤ defaultConcurrency Samples.sample_env ≤ 8)%Z
  ∧ (cpus Samples.sample_env = 0%nat → defaultConcurrency Samples.sample_env = 2%Z)
  ∧ ((3 ≤ cpus Samples.sample_env ≤ 9)%nat →
     defaultConcurrency Samples.sample_env
     = (Z.of_nat (cpus Samples.sample_env) - 1)%Z)
  ∧ ∃ s m',
      processImages Samples.sample_env Samples.sample_params Samples.sample_machine
      = (Ok s, m')
      ∧ totalInputs s = length (inputFiles Samples.sample_params).
Proof.
  apply (default_concurrency_is_accepted Samples.sample_env Samples.sample_params
           Samples.sample_machine).
  reflexivity.
Defined.

(** *** Reading the input *)

(** Does a job have to read the input file?  Only a [squoosh] encoder with
    an open pool, and only while the buffer is not loaded. *)
Definition reads_input (pool : bool) (e : EncoderOption) (ib : option Buffer) : bool :=
  pool && is_type squoosh e && bool_decide (ib = None).

(** The buffer a job leaves to the next one. *)
Definition buffer_after (pool : bool) (e : EncoderOption) (ib : option Buffer)
    (d : Disk) (f : string) : option Buffer :=
  match ib with
  | Some b => Some b
  | None => if reads_input pool e ib then files d !! f else None
  end.

Lemma read_track_few ev :
  is_read_event ev = true → is_pool_event ev = true ∨ is_read_event ev = true.
Proof. now right. Qed.

Lemma dispatch_reads env params pool f e ib m :
  ∃ outcome m' evs,
    dispatch env params pool f e ib m
    = (Ok (buffer_after pool e ib (disk m) f, outcome), m')
    ∧ events m' = events m ++ evs
    ∧ read_events evs = (if reads_input pool e ib then [EvReadFile f] else []).
Proof.
  unfold dispatch, buffer_after, reads_input, is_type.
  destruct (encoderType e) eqn:Htype;
    rewrite ?bool_decide_eq_true_2 by reflexivity;
    rewrite ?bool_decide_eq_false_2 by discriminate;
    rewrite ?andb_false_r; cbn [andb].
  - destruct pool; cbn [negb andb].
    2: { eexists _, m, []. destruct ib; repeat split;
           symmetry; apply app_nil_r. }
    destruct ib as [b |].
    + rewrite bind_unfold. unfold attempt at 1. cbn [mret M_ret].
      rewrite bind_unfold.
      destruct (calm_encodeWithSquoosh is_read_event read_track_few env e b
                  (buildOutputPath env f (inputRoot params) (outputRoot params)
                     (isDirectory params)
                     (if decide (id e = original) then getOriginalExtension f
                      else ext e))
                  (getQualityForEncoder e (quality params)) m)
        as (evs & He & Hr).
      unfold attempt.
      destruct (encodeWithSquoosh env e b _ _ m) as [r m'].
      exists r, m', evs. now repeat split.
    + rewrite bind_unfold. unfold attempt at 1.
      rewrite CliSpec.fs_readFile_run.
      destruct (files (disk m) !! f) as [data |].
      * rewrite bind_unfold.
        set (m1 := CliSpec.read_event m f).
        destruct (calm_encodeWithSquoosh is_read_event read_track_few env e data
                    (buildOutputPath env f (inputRoot params) (outputRoot params)
                       (isDirectory params)
                       (if decide (id e = original) then getOriginalExtension f
                        else ext e))
                    (getQualityForEncoder e (quality params)) m1)
          as (evs & He & Hr).
        unfold attempt.
        destruct (encodeWithSquoosh env e data _ _ m1) as [r m'].
        exists r, m', (EvReadFile f :: evs). split; [reflexivity |]. split.
        -- cbn [snd] in He. rewrite He. unfold m1, CliSpec.read_event,
             DetectSpec.add_events. cbn [events]. now rewrite <- app_assoc.
        -- change (EvReadFile f :: evs) with ([EvReadFile f] ++ evs).
           rewrite read_events_app. unfold read_events. now rewrite Hr.
      * eexists _, _, [EvReadFile f]. repeat split.
  - rewrite bind_unfold.
    destruct (calm_encodeWithSharp is_read_event read_track_few env e f
                (buildOutputPath env f (inputRoot params) (outputRoot params)
                   (isDirectory params)
                   (if decide (id e = original) then getOriginalExtension f
                    else ext e))
                (getQualityForEncoder e (quality params)) m) as (evs & He & Hr).
    unfold attempt. destruct (encodeWithSharp env e f _ _ m) as [r m'].
    exists r, m', evs. destruct ib; now repeat split.
  - rewrite bind_unfold.
    destruct (calm_copyFileAtomic is_read_event read_track_few env f
                (buildOutputPath env f (inputRoot params) (outputRoot params)
                   (isDirectory params)
                   (if decide (id e = original) then getOriginalExtension f
                    else ext e)) m) as (evs & He & Hr).
    unfold attempt. destruct (copyFileAtomic env f _ m) as [r m'].
    exists r, m', evs. destruct ib; now repeat split.
  - eexists _, m, []. destruct ib; repeat split; symmetry; apply app_nil_r.
Qed.

Lemma encodeOne_reads env params pool f e ib t m :
  ∃ t' m' evs,
    encodeOne env params pool f e (ib, t) m
    = (Ok (buffer_after pool e ib (disk m) f, t'), m')
    ∧ events m' = events m ++ evs
    ∧ read_events evs = (if reads_input pool e ib then [EvReadFile f] else []).
Proof.
  unfold encodeOne. rewrite bind_unfold, emit_run.
  set (m1 := advance m (disk m) [] [EvJob f (id_string (id e))] 0).
  rewrite bind_unfold.
  destruct (dispatch_reads env params pool f e ib m1)
    as (outcome & m2 & evs & -> & He & Hr).
  change (disk m1) with (disk m).
  assert (events m2 = events m ++ EvJob f (id_string (id e)) :: evs) as He'.
  { rewrite He. unfold m1. cbn [events advance]. now rewrite <- app_assoc. }
  assert (read_events (EvJob f (id_string (id e)) :: evs)
          = (if reads_input pool e ib then [EvReadFile f] else [])) as Hr'.
  { change (EvJob f (id_string (id e)) :: evs)
      with ([EvJob f (id_string (id e))] ++ evs).
    now rewrite read_events_app, Hr. }
  destruct outcome as [[] | message]; eexists _, m2, _;
    (split; [reflexivity |]); split; eassumption.
Qed.

Lemma encodeAll_loaded env params pool f active b : ∀ t m,
  ∃ t' m' evs,
    encodeAll env params pool f active (Some b, t) m = (Ok (Some b, t'), m')
    ∧ events m' = events m ++ evs
    ∧ read_events evs = [].
Proof.
  induction active as [| e rest IH]; intros t m.
  - exists t, m, []. repeat split. symmetry. apply app_nil_r.
  - cbn [encodeAll]. rewrite bind_unfold.
    destruct (encodeOne_reads env params pool f e (Some b) t m)
      as (t1 & m1 & evs1 & -> & He1 & Hr1).
    cbn [buffer_after].
    assert (reads_input pool e (Some b) = false) as Hno
      by (unfold reads_input; rewrite bool_decide_eq_false_2 by discriminate;
          apply andb_false_r).
    rewrite Hno in Hr1.
    destruct (IH t1 m1) as (t2 & m2 & evs2 & -> & He2 & Hr2).
    exists t2, m2, (evs1 ++ evs2). split; [reflexivity |]. split.
    + rewrite He2, He1. symmetry. apply app_assoc.
    + now rewrite read_events_app, Hr1, Hr2.
Qed.

(** X20.  The input file is read only when needed.  A job reads a file
    only if its encoder has the strategy [squoosh], the pool is open and
    the buffer is not loaded yet: then it reads its own input file, once,
    and a read that succeeds leaves the buffer loaded with the file as it
    was when the job started.  A loaded buffer stays as it is: the jobs of
    the same input file that follow make no read at all. *)
Theorem input_read_only_when_needed env params pool (f : string) :
  (∀ e ib t m,
     ∃ t' m',
       encodeOne env params pool f e (ib, t) m
       = (Ok (buffer_after pool e ib (disk m) f, t'), m')
       ∧ read_events (new_events m m')
         = (if reads_input pool e ib then [EvReadFile f] else []))
  ∧ (∀ active b t m,
       ∃ t' m',
         encodeAll env params pool f active (Some b, t) m = (Ok (Some b, t'), m')
         ∧ read_events (new_events m m') = []).
Proof.
  split.
  - intros e ib t m.
    destruct (encodeOne_reads env params pool f e ib t m)
      as (t' & m' & evs & Hrun & He & Hr).
    exists t', m'. split; [exact Hrun |].
    now rewrite (new_events_app _ _ _ He).
  - intros active b t m.
    destruct (encodeAll_loaded env params pool f active b t m)
      as (t' & m' & evs & Hrun & He & Hr).
    exists t', m'. split; [exact Hrun |].
    now rewrite (new_events_app _ _ _ He).
Qed.

End BatchSpec.

(** ** Command line, menu and saved selection *)

Module MenuSpec.
Import Js World Encoders Fs Cli CliArgs MachineFacts CatalogSpec.

(** *** [parseArgs] *)

Section ArgsFacts.

Context {number : Type}.
Variable Number_ : string → option number.

(** What the variables of [parseArgs] hold was read off the command line
    [line]: the input path is an argument that does not start with "-";
    the output directory follows an "--out"; the concurrency is the number
    written after a "--concurrency"; and [yes] is set only by a "--yes". *)
Definition read_from (line : list string) (a : Args) : Prop :=
  (∀ p, inputPath a = Some p → p ∈ line ∧ startsWith p "-" = false)
  ∧ (∀ d, outDir a = Some d → ∃ before after, line = before ++ "--out" :: d :: after)
  ∧ (∀ n, concurrency a = Some n →
       ∃ before v after,
         line = before ++ "--concurrency" :: v :: after ∧ Number_ v = Some n)
  ∧ (yes a = true → "--yes" ∈ line).

(** How [parseArgs] ends on the command line [line]. *)
Definition ends_well (line : list string) (out : Outcome (@Args number)) : Prop :=
  match out with
  | Returned a => read_from line a
  | Exited code => code = 0%Z ∧ ("--help" ∈ line ∨ "-h" ∈ line)
  end.

Lemma read_from_more line more a : read_from line a → read_from (line ++ more) a.
Proof.
  intros (Hin & Hout & Hconc & Hyes). repeat split.
  - apply elem_of_app. left. now apply Hin.
  - now apply Hin.
  - intros d Hd. destruct (Hout d Hd) as (before & after & ->).
    exists before, (after ++ more). now rewrite <- app_assoc.
  - intros n Hn. destruct (Hconc n Hn) as (before & v & after & -> & Hv).
    exists before, v, (after ++ more). now rewrite <- app_assoc.
  - intros Hy. apply elem_of_app. left. now apply Hyes.
Qed.

Lemma parseArgs_from_ends_well (n : nat) : ∀ rest line st,
  (length rest ≤ n)%nat →
  read_from line st →
  ends_well (line ++ rest) (parseArgs_from Number_ rest st).
Proof.
  induction n as [| n IH]; intros rest line st Hlen Hst.
  { destruct rest; [| simpl in Hlen; lia]. cbn. now rewrite app_nil_r. }
  destruct rest as [| arg rest]; [cbn; now rewrite app_nil_r |].
  simpl in Hlen.
  assert (∀ st', read_from (line ++ [arg]) st' →
                 ends_well (line ++ arg :: rest) (parseArgs_from Number_ rest st'))
    as Hnext.
  { intros st' Hst'. rewrite (cons_middle arg line rest), app_assoc.
    apply IH; [lia | exact Hst']. }
  pose proof (read_from_more line [arg] st Hst) as Hst1.
  pose proof Hst1 as (Hin & Hout & Hconc & Hyes).
  cbn [parseArgs_from].
  destruct (negb (startsWith arg "-") && negb (given (inputPath st))) eqn:Hpath.
  { apply Hnext. repeat split; cbn [inputPath outDir concurrency yes];
      try assumption.
    - injection H as <-. apply elem_of_app. right. now left.
    - injection H as <-. apply andb_true_iff in Hpath as [Hdash _].
      now apply negb_true_iff in Hdash. }
  case_bool_decide as Hopt_out.
  { subst arg. destruct rest as [| value rest'].
    - cbn [ends_well]. apply (read_from_more line ["--out"]).
      destruct Hst as (Hin0 & Hout0 & Hconc0 & Hyes0).
      repeat split; cbn [inputPath outDir concurrency yes]; try assumption;
        try (intros; now apply Hin0); discriminate.
    - rewrite (cons_middle "--out" line), (cons_middle value), !app_assoc.
      apply IH; [simpl in Hlen; lia |].
      rewrite <- app_assoc.
      destruct (read_from_more line (["--out"] ++ [value]) st Hst)
        as (Hin2 & Hout2 & Hconc2 & Hyes2).
      repeat split; cbn [inputPath outDir concurrency yes]; try assumption;
        try (intros; now apply Hin2).
      intros d [= <-]. exists line, []. reflexivity. }
  case_bool_decide as Hopt_conc.
  { subst arg. destruct rest as [| value rest'].
    - cbn [ends_well]. now apply (read_from_more line ["--concurrency"]).
    - rewrite (cons_middle "--concurrency" line), (cons_middle value), !app_assoc.
      apply IH; [simpl in Hlen; lia |].
      rewrite <- app_assoc.
      pose proof (read_from_more line (["--concurrency"] ++ [value]) st Hst) as Hst2.
      destruct (Number_ value) as [k |] eqn:Hvalue; [| exact Hst2].
      destruct Hst2 as (Hin2 & Hout2 & Hconc2 & Hyes2).
      repeat split; cbn [inputPath outDir concurrency yes]; try assumption;
        try (intros; now apply Hin2).
      intros k' [= <-]. exists line, value, []. now split. }
  case_bool_decide as Hopt_yes.
  { subst arg. apply Hnext.
    repeat split; cbn [inputPath outDir concurrency yes]; try assumption;
      try (intros; now apply Hin).
    intros _. apply elem_of_app. right. now left. }
  destruct (bool_decide (arg = "--help") || bool_decide (arg = "-h")) eqn:Hhelp.
  { cbn [ends_well]. split; [reflexivity |].
    apply orb_true_iff in Hhelp as [Hh | Hh]; apply bool_decide_eq_true in Hh;
      subst arg; [left | right]; apply elem_of_app; right; now left. }
  apply Hnext. exact Hst1.
Qed.

(** X21.  [parseArgs] only reports what the command line says.  When it
    returns, the input path is one of the arguments and does not start with
    "-", the output directory is the argument after an "--out", the
    concurrency is the number written after a "--concurrency", and [yes] is
    set only if "--yes" was given; it ends the process, with code 0, only
    if "--help" or "-h" was given. *)
Theorem parseArgs_reads_the_command_line (args : list string) :
  match parseArgs Number_ args with
  | Returned a =>
      (∀ p, inputPath a = Some p → p ∈ args ∧ startsWith p "-" = false)
      ∧ (∀ d, outDir a = Some d →
           ∃ before after, args = before ++ "--out" :: d :: after)
      ∧ (∀ n, concurrency a = Some n →
           ∃ before v after,
             args = before ++ "--concurrency" :: v :: after ∧ Number_ v = Some n)
      ∧ (yes a = true → "--yes" ∈ args)
  | Exited code => code = 0%Z ∧ ("--help" ∈ args ∨ "-h" ∈ args)
  end.
Proof.
  change (ends_well ([] ++ args) (parseArgs Number_ args)).
  apply (parseArgs_from_ends_well (length args)); [lia |].
  repeat split; cbn; discriminate.
Qed.

End ArgsFacts.

(** *** [parseSelection] *)

Section SelectionFacts.

Variable trim : string → string.
Variable Number_ : string → option Q.

(** The loop keeps the indices distinct and within the menu, and an index
    it has taken stays. *)
Lemma collect_indices_spec count parts : ∀ acc indices,
  collect_indices Number_ count parts acc = Some indices →
  NoDup acc → Forall (λ i, (i < count)%nat) acc →
  NoDup indices ∧ Forall (λ i, (i < count)%nat) indices
  ∧ (parts ≠ [] ∨ acc ≠ [] → indices ≠ []).
Proof.
  induction parts as [| part rest IH]; intros acc indices Hrun Hnd Hlt.
  - injection Hrun as <-. repeat split; try assumption.
    intros [H | H]; [now destruct H | exact H].
  - cbn [collect_indices] in Hrun.
    destruct (Number_ part) as [value |]; [| discriminate Hrun].
    destruct (negb (isInteger value) || negb (Qle_bool 1 value)
              || negb (Qle_bool value (inject_Z (Z.of_nat count)))) eqn:Hbad;
      [discriminate Hrun |].
    apply orb_false_iff in Hbad as [Hbad Hhi].
    apply orb_false_iff in Hbad as [_ Hlo].
    apply negb_false_iff, Qle_bool_iff in Hlo, Hhi.
    assert ((Z.to_nat (Qfloor value - 1) < count)%nat) as Hindex.
    { apply Qfloor_resp_le in Hlo, Hhi. rewrite Qfloor_Z in Hhi.
      change 1%Q with (inject_Z 1) in Hlo. rewrite Qfloor_Z in Hlo. lia. }
    set (index := Z.to_nat (Qfloor value - 1)) in *.
    assert (NoDup (set_add index acc)
            ∧ Forall (λ i, (i < count)%nat) (set_add index acc)
            ∧ set_add index acc ≠ []) as (Hnd' & Hlt' & Hne').
    { unfold set_add. case_bool_decide as Hmem.
      - repeat split; try assumption. intros ->. inversion Hmem.
      - repeat split.
        + apply NoDup_app. repeat split; try assumption.
          * intros x Hx Hx'. apply list_elem_of_singleton in Hx'. now subst x.
          * apply NoDup_singleton.
        + apply Forall_app. split; [exact Hlt | now repeat constructor].
        + now destruct acc. }
    destruct (IH _ _ Hrun Hnd' Hlt') as (H1 & H2 & H3).
    repeat split; try assumption. intros _. apply H3. now right.
Qed.

Lemma ids_at_spec (options : list EncoderOption) indices :
  Forall (λ i, (i < length options)%nat) indices →
  ∃ ids, ids_at options indices = Ok ids
         ∧ Forall2 (λ i x, id <$> options !! i = Some x) indices ids.
Proof.
  induction 1 as [| index rest Hindex Hrest (ids & Hids & Hall)].
  - exists []. split; [reflexivity | constructor].
  - cbn [ids_at]. unfold id_at.
    destruct (lookup_lt_is_Some_2 options index Hindex) as [option Hoption].
    rewrite Hoption. cbn [bind]. rewrite Hids. cbn [bind].
    eexists. split; [reflexivity |].
    constructor; [now rewrite Hoption | exact Hall].
Qed.

Lemma picked_ids_NoDup (options : list EncoderOption) indices ids :
  NoDup (map id options) → NoDup indices →
  Forall2 (λ i x, id <$> options !! i = Some x) indices ids →
  NoDup ids.
Proof.
  intros Hoptions Hindices Hall.
  induction Hall as [| index x rest ids Hx Hall IH]; [constructor |].
  apply NoDup_cons in Hindices as [Hnew Hrest].
  apply NoDup_cons. split; [| now apply IH].
  intros Hin. apply Hnew.
  apply list_elem_of_lookup in Hin as [k Hk].
  destruct (Forall2_lookup_r _ _ _ _ _ Hall Hk) as (index' & Hindex' & Hx').
  assert (index = index') as ->.
  { apply (NoDup_lookup (map id options) _ _ x Hoptions);
      now rewrite list_lookup_fmap. }
  now apply list_elem_of_lookup_2 in Hindex'.
Qed.

(** [parseSelection] on any menu whose ids are distinct. *)
Lemma parseSelection_spec input (options : list EncoderOption) :
  NoDup (map id options) →
  ∃ r, parseSelection trim Number_ input options = Ok r
       ∧ (toLowerCase (trim input) = "all" → r = Some (map id options))
       ∧ ∀ ids, r = Some ids →
           NoDup ids ∧ (∀ i, i ∈ ids → i ∈ map id options)
           ∧ (options ≠ [] → ids ≠ []).
Proof.
  intros Hoptions. unfold parseSelection.
  case_bool_decide as Hall.
  { eexists. split; [reflexivity |]. split; [reflexivity |].
    intros ids [= <-]. repeat split; try assumption; [auto |].
    now destruct options. }
  set (parts := filter _ _).
  case_bool_decide as Hparts.
  { eexists. split; [reflexivity |]. split; [now intros |]. discriminate. }
  destruct (collect_indices Number_ (length options) parts []) as [indices |] eqn:Hrun.
  2: { eexists. split; [reflexivity |]. split; [now intros |]. discriminate. }
  destruct (collect_indices_spec _ _ _ _ Hrun (NoDup_nil_2) (Forall_nil_2 _))
    as (Hnd & Hlt & Hne).
  destruct (ids_at_spec options indices Hlt) as (ids & -> & Hids).
  cbn [bind]. eexists. split; [reflexivity |]. split; [now intros |].
  intros ids' [= <-]. split; [now apply (picked_ids_NoDup options indices) |].
  split.
  - intros i Hi. apply list_elem_of_lookup in Hi as [k Hk].
    destruct (Forall2_lookup_r _ _ _ _ _ Hids Hk) as (index & _ & Hx).
    destruct (options !! index) as [option |] eqn:Hoption; [| discriminate Hx].
    injection Hx as <-. apply list_elem_of_fmap. exists option.
    split; [reflexivity |]. now apply list_elem_of_lookup_2 in Hoption.
  - intros _ ->. apply Forall2_nil_inv_r in Hids. apply Hne; [| exact Hids].
    left. intros Hnil. apply Hparts. now rewrite Hnil.
Qed.

(** X22.  On the catalog, whatever is typed, [parseSelection] does not
    throw: every index it keeps is within the menu.  It answers [null] or a
    list of formats that is not empty and names no format twice, however
    often a number was typed; "all", in any case, selects the whole menu
    in menu order. *)
Theorem parseSelection_picks_distinct_formats (support : SquooshSupport) (input : string) :
  ∃ r, parseSelection trim Number_ input (getMenuOptions support) = Ok r
       ∧ (toLowerCase (trim input) = "all" →
          r = Some [avif; browser_gif; browser_jpeg; browser_png; jxl; mozjpeg;
                    oxipng; qoi; webp; wp2; original])
       ∧ ∀ ids, r = Some ids → ids ≠ [] ∧ NoDup ids.
Proof.
  destruct (parseSelection_spec input (getMenuOptions support)
              (getMenuOptions_ids_NoDup support)) as (r & Hrun & Hall & Hids).
  exists r. split; [exact Hrun |]. split; [exact Hall |].
  intros ids Hr. destruct (Hids ids Hr) as (Hnd & _ & Hne).
  split; [apply Hne; discriminate | exact Hnd].
Qed.

End SelectionFacts.

(** *** The encoders selected *)

Lemma every_id_in_menu support (i : EncoderId) : i ∈ map id (getMenuOptions support).
Proof.
  rewrite getMenuOptions_ids. apply list_elem_of_In.
  destruct i; simpl; tauto.
Qed.

(** X23.  The encoders handed to the batch are exactly the formats chosen,
    each once, however often and in whatever order they were named; they
    come in menu order. *)
Theorem selected_encoders_are_the_chosen_formats
    (support : SquooshSupport) (selection : list EncoderId) :
  map id (selectedEncoders (getMenuOptions support) selection)
  ≡ₚ remove_dups selection
  ∧ selectedEncoders (getMenuOptions support) selection
    `sublist_of` getMenuOptions support.
Proof.
  split; [| apply sublist_filter].
  apply NoDup_Permutation.
  - unfold selectedEncoders.
    pose proof (getMenuOptions_ids_NoDup support) as Hnd.
    induction (getMenuOptions support) as [| o l IH]; [constructor |].
    cbn [map] in Hnd. apply NoDup_cons in Hnd as [Ho Hl].
    rewrite filter_cons.
    destruct (decide (id o ∈ selection)) as [Hsel | Hsel]; [| now apply IH].
    cbn [map]. apply NoDup_cons. split; [| now apply IH].
    intros Hin. apply Ho.
    apply list_elem_of_fmap in Hin as (e & -> & He).
    apply list_elem_of_filter in He as [_ He].
    apply list_elem_of_fmap. now exists e.
  - apply NoDup_remove_dups.
  - intros i. rewrite elem_of_remove_dups. unfold selectedEncoders.
    rewrite list_elem_of_fmap. split.
    + intros (e & -> & He). now apply list_elem_of_filter in He as [? _].
    + intros Hi.
      pose proof (every_id_in_menu support i) as Hmenu.
      apply list_elem_of_fmap in Hmenu as (e & -> & He).
      exists e. split; [reflexivity |]. now apply list_elem_of_filter.
Qed.

(** *** The saved selection *)

Section Saved.

Variable JSON_parse : Buffer → Result Json.

(** X24.  Loading the saved configuration never throws and writes nothing:
    it reads the file once, and answers [null] unless the file holds text
    that [JSON.parse] accepts, in which case it answers what was parsed. *)
Theorem loadSavedConfig_never_throws (configPath : string) (m : Machine) :
  ∃ value,
    loadSavedConfig JSON_parse configPath m
    = (Ok value, CliSpec.read_event m configPath)
    ∧ new_events m (loadSavedConfig JSON_parse configPath m).2
      = [EvReadFile configPath]
    ∧ disk (loadSavedConfig JSON_parse configPath m).2 = disk m
    ∧ value
      = match files (disk m) !! configPath with
        | Some raw =>
            match JSON_parse raw with
            | Ok parsed => parsed
            | Throw _ => JNull
            end
        | None => JNull
        end.
Proof.
  assert (∀ value,
            loadSavedConfig JSON_parse configPath m
            = (Ok value, CliSpec.read_event m configPath) →
            new_events m (loadSavedConfig JSON_parse configPath m).2
            = [EvReadFile configPath]
            ∧ disk (loadSavedConfig JSON_parse configPath m).2 = disk m) as Hrest.
  { intros value ->. cbn [snd]. split; [| reflexivity].
    unfold new_events, CliSpec.read_event, DetectSpec.add_events. cbn [events].
    apply drop_app_length. }
  destruct (files (disk m) !! configPath) as [raw |] eqn:Hraw.
  - destruct (JSON_parse raw) as [parsed | msg] eqn:Hparse.
    + pose proof (CliSpec.loadSavedConfig_parsed JSON_parse configPath m raw parsed
                    Hraw Hparse) as Hrun.
      exists parsed. split; [exact Hrun |].
      destruct (Hrest _ Hrun). now repeat split.
    + pose proof (CliSpec.loadSavedConfig_malformed JSON_parse configPath m raw msg
                    Hraw Hparse) as Hrun.
      exists JNull. split; [exact Hrun |].
      destruct (Hrest _ Hrun). now repeat split.
  - pose proof (CliSpec.loadSavedConfig_unreadable JSON_parse configPath m Hraw)
      as Hrun.
    exists JNull. split; [exact Hrun |].
    destruct (Hrest _ Hrun). now repeat split.
Qed.

End Saved.

(** The record [JSON.parse] returns for a configuration file written by
    [saveConfig]: the selected ids and the quality settings. *)
Definition saved_record (selectedIds : list EncoderId) (quality : Json) : Json :=
  JObj [("selectedIds", JArr (map (λ i, JStr (id_string i)) selectedIds));
        ("quality", quality)].

Lemma menu_id_known support (i : EncoderId) :
  menu_id (getMenuOptions support) (JStr (id_string i)) = Some i.
Proof. destruct i; reflexivity. Qed.

Lemma menu_id_unknown support (s : string) :
  (∀ i, id_string i ≠ s) → menu_id (getMenuOptions support) (JStr s) = None.
Proof.
  intros Hs. unfold menu_id, getMenuOptions.
  cbn [List.find is_id id].
  repeat (rewrite bool_decide_eq_false_2;
          [| intros Heq; exact (Hs _ (eq_sym Heq))]).
  reflexivity.
Qed.

Lemma omap_menu_ids support (ids : list EncoderId) :
  omap (menu_id (getMenuOptions support)) (map (λ i, JStr (id_string i)) ids) = ids.
Proof.
  induction ids as [| i rest IH]; [reflexivity |].
  cbn [map omap list_omap]. rewrite menu_id_known.
  f_equal. exact IH.
Qed.

Lemma reuseSaved_saved_record support (selectedIds : list EncoderId) (quality : Json) :
  reuseSaved true (saved_record selectedIds quality) (getMenuOptions support)
  = Ok (selectedIds, Some quality).
Proof.
  unfold reuseSaved, saved_record, filter_selectedIds.
  cbn [truthy]. unfold property. cbn [List.find fst snd].
  rewrite bool_decide_eq_true_2 by reflexivity.
  cbn [fmap option_fmap option_map snd]. cbn [bind].
  rewrite omap_menu_ids.
  rewrite bool_decide_eq_false_2 by discriminate.
  rewrite bool_decide_eq_true_2 by reflexivity. reflexivity.
Qed.

(** X25.  Under [--yes] a saved selection comes back as it was saved: the
    same formats in the same order, with the saved quality, whatever the
    capability set is now; entries that name no format of the catalog are
    dropped without a word; and without [--yes] nothing is reused. *)
Theorem saved_selection_is_restored
    (support : SquooshSupport) (selectedIds : list EncoderId) (quality : Json) :
  reuseSaved true (saved_record selectedIds quality) (getMenuOptions support)
  = Ok (selectedIds, Some quality)
  ∧ reuseSaved false (saved_record selectedIds quality) (getMenuOptions support)
    = Ok ([], None)
  ∧ ∀ (unknown : string) (before after : list Json),
      (∀ i, id_string i ≠ unknown) →
      filter_selectedIds
        (JObj [("selectedIds", JArr (before ++ JStr unknown :: after))])
        (getMenuOptions support)
      = filter_selectedIds (JObj [("selectedIds", JArr (before ++ after))])
          (getMenuOptions support).
Proof.
  split; [apply reuseSaved_saved_record | split; [reflexivity |]].
  intros unknown before after Hunknown.
    unfold filter_selectedIds, property. cbn [List.find fst snd].
    rewrite bool_decide_eq_true_2 by reflexivity.
    cbn [fmap option_fmap option_map snd].
    f_equal. rewrite !omap_app. f_equal.
    cbn [omap list_omap]. now rewrite menu_id_unknown.
Qed.

End MenuSpec.

(** ** From one run to the next *)

Module SessionSpec.
Import Js World Encoders Fs Cli CliArgs MachineFacts FsSpec EncodeSpec MenuSpec.

(** *** The quality prompt *)

(** The quality reaches the encoder of a format: two qualities for which
    what is handed to [sharp] or to the codec differs. *)
Definition quality_matters (e : EncoderOption) : Prop :=
  ∃ q q' : Q,
    match encoderType e with
    | sharp => sharp_call (id e) q ≠ sharp_call (id e) q'
    | squoosh => getSquooshEncodeOptions (id e) q ≠ getSquooshEncodeOptions (id e) q'
    | _ => False
    end.

(** X26.  The quality prompt and the encoders agree.  Whatever the
    capability set, a selected catalog entry is asked a quality for exactly
    when the quality reaches its encoder: when there are two qualities for
    which the pipeline given to sharp, or the options given to the codec,
    differ.  No quality is asked for PNG, OxiPNG, the original copy or an
    unsupported format, whose encoding ignores it. *)
Theorem quality_asked_iff_it_matters (support : SquooshSupport) :
  Forall (λ e, e ∈ lossyEncoders [e] ↔ quality_matters e) (getMenuOptions support).
Proof.
  assert (∀ e, e ∈ lossyEncoders [e]
               ↔ (lossy e = true ∧ supportsQuality e = true
                  ∧ encoderType e ≠ unsupported)) as Hasked.
  { intros e. unfold lossyEncoders. rewrite list_elem_of_filter.
    rewrite list_elem_of_singleton. tauto. }
  apply Forall_forall. intros e He. rewrite Hasked. clear Hasked.
  unfold quality_matters.
  unfold getMenuOptions in He.
  repeat (apply elem_of_cons in He as [-> | He]);
    [.. | inversion He];
    cbn [lossy supportsQuality encoderType id];
    repeat match goal with
           | |- context [if ?b then _ else _] => destruct b
           end;
    (split;
     [ intros (Hl & Hq & Ht);
       first [ discriminate Hl | discriminate Hq | now destruct Ht
             | exists 1%Q, 100%Q; discriminate ]
     | intros (q & q' & Hdiff);
       first [ now repeat split
             | exact (False_ind _ Hdiff)
             | exfalso; apply Hdiff; reflexivity ] ]).
Qed.

(** *** Saving the selection and finding it again *)

Section RoundTrip.

Variable JSON_stringify : Json → Buffer.
Variable JSON_parse : Buffer → Result Json.

(** X27.  What one run saves the next run finds.  When the directory of
    the configuration file exists, [saveConfig] writes the record in one
    call, in place: whoever reads the file meanwhile may find any prefix
    of the text.  Once it has returned, and provided [JSON.parse] gives
    back the record from its text, a run with [--yes] reuses the saved
    formats, in the saved order, and the saved quality. *)
Theorem saved_configuration_round_trip
    (support : SquooshSupport) (configPath : string)
    (selectedIds : list EncoderId) (quality : Json) (m : Machine) :
  let record := saved_record selectedIds quality in
  let text := JSON_stringify record ++ [Byte.x0a] in
  JSON_parse text = Ok record →
  Path.dirname configPath ∈ dirs (disk m) →
  configPath ∉ dirs (disk m) →
  ∃ m1,
    saveConfig JSON_stringify configPath record m = (Ok tt, m1)
    ∧ new_events m m1 = [EvWriteFile configPath text]
    ∧ (∀ k, (k ≤ length text)%nat →
         put_file configPath (take k text) (disk m) ∈ new_observed m m1)
    ∧ files (disk m1) !! configPath = Some text
    ∧ loadAndReuse JSON_parse true configPath (getMenuOptions support) m1
      = (Ok (selectedIds, Some quality), CliSpec.read_event m1 configPath).
Proof.
  intros record text Hparse Hdir Hfile.
  unfold saveConfig. fold record. fold text.
  rewrite fs_writeFile_run. cbv zeta.
  rewrite bool_decide_eq_false_2 by exact Hfile.
  rewrite bool_decide_eq_true_2 by exact Hdir.
  eexists. split; [reflexivity |].
  rewrite new_events_advance, new_observed_advance, disk_advance.
  split; [reflexivity |]. split; [| split].
  - intros k Hk. unfold write_stages.
    apply list_elem_of_fmap. exists k. split; [reflexivity |].
    apply elem_of_seq. lia.
  - unfold put_file. cbn [files]. apply lookup_insert_eq.
  - unfold loadAndReuse. rewrite bind_unfold.
    rewrite (CliSpec.loadSavedConfig_parsed JSON_parse configPath _ text record).
    + unfold record. now rewrite reuseSaved_saved_record.
    + rewrite disk_advance. unfold put_file. cbn [files]. apply lookup_insert_eq.
    + exact Hparse.
Qed.

End RoundTrip.

(** A saved record, the text [JSON.stringify(record, null, 2)] makes of it,
    and stand-ins for [JSON.stringify] and [JSON.parse] that know this
    record and this text. *)
Definition sample_record : Json :=
  saved_record [webp; original]
    (JObj [("default", JNum 80); ("overrides", JObj [])]).

Definition sample_text : Buffer :=
  [
Byte.x7b; Byte.x0a; Byte.x20; Byte.x20; Byte.x22; Byte.x73; Byte.x65; Byte.x6c; Byte.x65; Byte.x63;
    Byte.x74; Byte.x65; Byte.x64; Byte.x49; Byte.x64; Byte.x73; Byte.x22; Byte.x3a; Byte.x20; Byte.x5b;
    Byte.x0a; Byte.x20; Byte.x20; Byte.x20; Byte.x20; Byte.x22; Byte.x77; Byte.x65; Byte.x62; Byte.x70;
    Byte.x22; Byte.x2c; Byte.x0a; Byte.x20; Byte.x20; Byte.x20; Byte.x20; Byte.x22; Byte.x6f; Byte.x72;
    Byte.x69; Byte.x67; Byte.x69; Byte.x6e; Byte.x61; Byte.x6c; Byte.x22; Byte.x0a; Byte.x20; Byte.x20;
    Byte.x5d; Byte.x2c; Byte.x0a; Byte.x20; Byte.x20; Byte.x22; Byte.x71; Byte.x75; Byte.x61; Byte.x6c;
    Byte.x69; Byte.x74; Byte.x79; Byte.x22; Byte.x3a; Byte.x20; Byte.x7b; Byte.x0a; Byte.x20; Byte.x20;
    Byte.x20; Byte.x20; Byte.x22; Byte.x64; Byte.x65; Byte.x66; Byte.x61; Byte.x75; Byte.x6c; Byte.x74;
    Byte.x22; Byte.x3a; Byte.x20; Byte.x38; Byte.x30; Byte.x2c; Byte.x0a; Byte.x20; Byte.x20; Byte.x20;
    Byte.x20; Byte.x22; Byte.x6f; Byte.x76; Byte.x65; Byte.x72; Byte.x72; Byte.x69; Byte.x64; Byte.x65;
    Byte.x73; Byte.x22; Byte.x3a; Byte.x20; Byte.x7b; Byte.x7d; Byte.x0a; Byte.x20; Byte.x20; Byte.x7d;
    Byte.x0a; Byte.x7d ].

Definition print_sample (value : Json) : Buffer := sample_text.

Definition parse_sample (raw : Buffer) : Result Json :=
  if bool_decide (raw = sample_text ++ [Byte.x0a]) then Ok sample_record
  else Throw "Unexpected token".

Lemma saved_configuration_round_trip_witness :
  ∃ m1,
    saveConfig print_sample Samples.sample_config_path sample_record
      Samples.sample_machine_saved = (Ok tt, m1)
    ∧ new_events Samples.sample_machine_saved m1
      = [EvWriteFile Samples.sample_config_path (sample_text ++ [Byte.x0a])]
    ∧ (∀ k, (k ≤ length (sample_text ++ [Byte.x0a]))%nat →
         put_file Samples.sample_config_path (take k (sample_text ++ [Byte.x0a]))
           (disk Samples.sample_machine_saved)
         ∈ new_observed Samples.sample_machine_saved m1)
    ∧ files (disk m1) !! Samples.sample_config_path = Some (sample_text ++ [Byte.x0a])
    ∧ loadAndReuse parse_sample true Samples.sample_config_path
        (getMenuOptions Samples.full_support) m1
      = (Ok ([webp; original],
             Some (JObj [("default", JNum 80); ("overrides", JObj [])])),
         CliSpec.read_event m1 Samples.sample_config_path).
Proof.
  apply (saved_configuration_round_trip print_sample parse_sample
           Samples.full_support Samples.sample_config_path [webp; original]
           (JObj [("default", JNum 80); ("overrides", JObj [])])
           Samples.sample_machine_saved).
  - vm_compute. reflexivity.
  - apply (bool_decide_unpack _). vm_compute. exact I.
  - apply (bool_decide_unpack _). vm_compute. exact I.
Defined.

End SessionSpec.
